(** * binjitsu: ROP chain builder and sigreturn frames

    A shallow embedding of [pwnlib/rop/srop.py] and [pwnlib/rop/rop.py].
    Python objects that are mutated in place are modelled by explicit state
    passing in a small state-and-exception monad; an exception leaves the
    object in the state it had when the exception was raised. *)

From Stdlib Require Import ZArith List String Ascii Bool Lia Sorted.
From stdpp Require Import base tactics option list strings gmap.

Local Open Scope string_scope.
Local Open Scope list_scope.
Local Open Scope Z_scope.

(** ** Exceptions and the state monad *)

(** The exceptions the modelled code can raise. *)
Inductive Exn : Type :=
| LogError (msg : string)   (* raised by [log.error] *)
| KeyError
| TypeError
| ValueError
| IndexError
| AttributeError
| ZeroDivisionError
| OutOfFuel.                (* not an exception: the model's fuel ran out *)

Inductive Result (A : Type) : Type :=
| Ok (a : A)
| Raise (e : Exn).
Arguments Ok {A} a.
Arguments Raise {A} e.

(** A computation over a mutable object of type [S]. *)
Definition M (S A : Type) : Type := S -> Result A * S.

Definition ret {S A} (a : A) : M S A := fun s => (Ok a, s).

Definition bind {S A B} (c : M S A) (k : A -> M S B) : M S B :=
  fun s => match c s with
           | (Ok a, s') => k a s'
           | (Raise e, s') => (Raise e, s')
           end.

Notation "'let*' x ':=' c 'in' k" := (bind c (fun x => k))
  (at level 10, x name, c at level 100, k at level 200).
Notation "'let*' ' p ':=' c 'in' k" := (bind c (fun x => let 'p := x in k))
  (at level 10, p pattern, c at level 100, k at level 200).

Definition raise {S A} (e : Exn) : M S A := fun s => (Raise e, s).
Definition get {S} : M S S := fun s => (Ok s, s).
Definition modify {S} (f : S -> S) : M S unit := fun s => (Ok tt, f s).

(** Lifts a pure result into a computation. *)
Definition lift {S A} (r : Result A) : M S A := fun s => (r, s).

(** Modelled from the spec: [log.error] of [pwnlib.log], which is not under
    src/, reports a hard failure immediately: it raises. *)
Definition log_error {S A} (msg : string) : M S A := raise (LogError msg).

Definition is_error {A} (r : Result A) : Prop := exists msg, r = Raise (LogError msg).

(** ** Python values *)

(** A byte string (a Python 2 [str] used as data). *)
Abbreviation bytes := (list ascii).

(** A destination of a gadget effect: a register name or something else (a
    memory reference). *)
Inductive Dst : Type :=
| DReg (r : string)
| DOther (n : nat).

(** A source of a gadget effect: a string, a list of strings, a [Mem]
    object with its register, or something else (an immediate). *)
Inductive Src : Type :=
| SStr (s : string)
| SList (l : list string)
| SMem (reg : string)
| SOther (n : Z).

(** A classified gadget (class [Gadget] of [pwnlib.rop.gadgets]): [regs]
    is the dictionary of its effects, in iteration order. *)
Record Gadget : Type := mkGadget {
  address : Z;
  insns : list string;
  regs : list (Dst * Src);
  move : Z
}.

Global Instance Dst_eq_dec : EqDecision Dst.
Proof. solve_decision. Defined.
Global Instance Src_eq_dec : EqDecision Src.
Proof. solve_decision. Defined.
Global Instance Gadget_eq_dec : EqDecision Gadget.
Proof. solve_decision. Defined.

(** The values that can sit in a chain, in a call's arguments, in a frame or
    on the stack under construction. *)
#[warnings="-register-all"]
Inductive Value : Type :=
| VInt (z : Z)
| VStr (s : bytes)
| VNone
| VGadget (g : Gadget)
| VPadding                       (* an instance of [Padding] *)
| VCurrentStackPointer
| VNextGadgetAddress
| VAppendedArgument (vs : list Value)
| VFunction (attr : string)      (* the [call] closure of [ROP.__getattr__] *)
| VGadgetTuple (addr : Z) (details : Gadget).  (* the namedtuple of [ROP.__getattr__] *)

(** Python truthiness, as [if x:] uses it. *)
Definition truthy (v : Value) : bool :=
  match v with
  | VInt z => negb (z =? 0)
  | VStr s => negb (Nat.eqb (length s) 0)
  | VNone => false
  | _ => true
  end.

(** The fields of an [ABI] object (of [pwnlib.abi]) that the code reads. *)
Record ABI : Type := mkABI {
  register_arguments : list string;
  returns : bool;
  syscall_register : string
}.

(** ** srop.py *)

Module srop.

Record offsets_t : Type := {
  off_base : Z;
  off_coproc : list (string * (Z * Z))
}.

Record sropregs : Type := {
  context : list string;
  offsets : option offsets_t
}.

Definition registers (arch : string) : option sropregs :=
  if String.eqb arch "i386" then
    Some {| context :=
              ["gs"; "fs"; "es"; "ds"; "edi"; "esi"; "ebp"; "esp"; "ebx";
               "edx"; "ecx"; "eax"; "trapno"; "err"; "eip"; "cs"; "eflags";
               "esp_at_signal"; "ss"; "fpstate"];
            offsets := None |}
  else if String.eqb arch "amd64" then
    Some {| context :=
              ["uc_flags"; "&uc"; "uc_stack.ss_sp"; "uc_stack.ss_flags"; "uc_stack.ss_size";
               "r8"; "r9"; "r10"; "r11"; "r12"; "r13"; "r14"; "r15"; "rdi"; "rsi"; "rbp";
               "rbx"; "rdx"; "rax"; "rcx"; "rsp"; "rip"; "eflags"; "csgsfs"; "err"; "trapno";
               "oldmask"; "cr2"; "&fpstate"; "__reserved"; "sigmask"];
            offsets := None |}
  else if String.eqb arch "arm" then
    Some {| context :=
              ["uc_flags"; "uc_link"; "uc_stack.ss_sp"; "uc_stack.ss_flags"; "uc_stack.ss_size";
               "trap_no"; "error_code"; "oldmask"; "r0"; "r1"; "r2"; "r3"; "r4"; "r5"; "r6"; "r7";
               "r8"; "r9"; "r10"; "fp"; "ip"; "sp"; "lr"; "pc"; "cpsr"; "fault_address"; "uc_sigmask";
               "__unused"; "uc_regspace"];
            offsets := Some {| off_base := 232;
                               off_coproc := [("CRUNCH", (0x5065cf03, 0xa8));
                                              ("IWMMXT", (0x12ef842a, 0x98));
                                              ("VFPU", (0x56465001, 0x120))] |} |}
  else None.

Definition defaults (arch : string) : option (list (string * Z)) :=
  if String.eqb arch "i386" then Some [("cs", 0x73); ("ss", 0x7b)]
  else if String.eqb arch "amd64" then Some [("csgsfs", 0x33)]
  else if String.eqb arch "arm" then Some [("trap_no", 0x6); ("cpsr", 0x40000010)]
  else None.

Definition instruction_pointers (arch : string) : option string :=
  if String.eqb arch "i386" then Some "eip"
  else if String.eqb arch "amd64" then Some "rip"
  else if String.eqb arch "arm" then Some "pc"
  else None.

Definition stack_pointers (arch : string) : option string :=
  if String.eqb arch "i386" then Some "esp"
  else if String.eqb arch "amd64" then Some "rsp"
  else if String.eqb arch "arm" then Some "sp"
  else None.

Definition syscall_instructions (arch : string) : option (list string) :=
  if String.eqb arch "amd64" then Some ["int 0x80"; "syscall"; "sysenter"]
  else if String.eqb arch "i386" then Some ["int 0x80"; "syscall"; "sysenter"]
  else if String.eqb arch "arm" then Some ["svc 0"]
  else if String.eqb arch "aarch64" then Some ["svc 0"]
  else if String.eqb arch "thumb" then Some ["svc 0"]
  else if String.eqb arch "mips" then Some ["syscall"]
  else None.

(** Modelled from the spec: the architecture descriptor's word size in bytes
    ([context.bytes] of [pwnlib.context], which is not under src/), for the
    architectures that have a frame layout. *)
Definition arch_bytes (arch : string) : nat :=
  if String.eqb arch "amd64" then 8%nat else 4%nat.

(** The frame: a dictionary (the object itself) and its [arch] attribute. *)
Record SigreturnFrame : Type := mkFrame {
  arch : string;
  items : gmap string Value
}.

Definition set_items (m : gmap string Value) (f : SigreturnFrame) : SigreturnFrame :=
  {| arch := arch f; items := m |}.

(** A dictionary lookup that raises [KeyError] on a missing key. *)
Definition subscript {S A} (o : option A) : M S A :=
  match o with
  | Some a => ret a
  | None => raise KeyError
  end.

(** The [registers] property. *)
Definition frame_registers : M SigreturnFrame (list string) :=
  let* f := get in
  let* r := subscript (registers (arch f)) in
  ret (context r).

(** [dict.update] with a list of items; it does not go through
    [__setitem__]. *)
Definition dict_update (kvs : list (string * Value)) (m : gmap string Value)
  : gmap string Value :=
  fold_left (fun acc kv => <[kv.1 := kv.2]> acc) kvs m.

(** [SigreturnFrame(arch=a)]. *)
Definition __init__ (a : string) : Result SigreturnFrame :=
  match registers a, defaults a with
  | Some r, Some d =>
      Ok {| arch := a;
            items := dict_update (map (fun kv => (kv.1, VInt kv.2)) d)
                       (dict_update (map (fun r => (r, VInt 0)) (context r)) ∅) |}
  | _, _ => Raise KeyError
  end.

(** [value & 0x7] as a truth value. *)
Definition and7 {S} (value : Value) : M S bool :=
  match value with
  | VInt z => ret (negb (Z.land z 0x7 =? 0))
  | _ => raise TypeError
  end.

Definition __setitem__ (item : string) (value : Value) : M SigreturnFrame unit :=
  let* rs := frame_registers in
  let* _ := (if bool_decide (item ∈ rs) then ret tt
             else log_error "Unknown register") in
  let* f := get in
  let* _ := (if String.eqb (arch f) "arm" && String.eqb item "sp" then
               let* b := and7 value in
               if b then log_error "ARM SP should be 8-bit aligned" else ret tt
             else ret tt) in
  modify (fun f => set_items (<[item := value]> (items f)) f).

Definition set_regvalue (reg : string) (val : Value) : M SigreturnFrame unit :=
  __setitem__ reg val.

Definition __getitem__ (item : string) : M SigreturnFrame Value :=
  let* f := get in subscript (items f !! item).

(** Runs [c] on every element of a list, in order. *)
Fixpoint mapM {S A B} (c : A -> M S B) (l : list A) : M S (list B) :=
  match l with
  | [] => ret []
  | a :: l' => let* b := c a in let* bs := mapM c l' in ret (b :: bs)
  end.

Section Packing.

(** [flat] of [pwnlib.util.packing] (not under src/) applied to one value at
    a word size in bytes. *)
Variable flat1 : nat -> Value -> Result bytes.

Fixpoint flat (w : nat) (vs : list Value) : Result bytes :=
  match vs with
  | [] => Ok []
  | v :: vs' =>
      match flat1 w v with
      | Ok b => match flat w vs' with
                | Ok bs => Ok (b ++ bs)
                | Raise e => Raise e
                end
      | Raise e => Raise e
      end
  end.

Definition __str__ : M SigreturnFrame bytes :=
  let* f := get in
  let* rs := frame_registers in
  let* vs := mapM __getitem__ rs in
  lift (flat (arch_bytes (arch f)) vs).

Definition __len__ : M SigreturnFrame nat :=
  let* s := __str__ in ret (length s).

End Packing.

Section Properties.

(** [ABI.syscall] of [pwnlib.abi] (not under src/), by architecture. *)
Variable ABI_syscall : string -> ABI.

(** The property [arguments]: the syscall ABI's registers without the one
    that holds the syscall number. *)
Definition arguments : M SigreturnFrame (list string) :=
  let* f := get in ret (tail (register_arguments (ABI_syscall (arch f)))).

(** The setter of the property [sp]. *)
Definition set_sp (v : Value) : M SigreturnFrame unit :=
  let* f := get in
  let* r := subscript (stack_pointers (arch f)) in
  __setitem__ r v.

(** The setter of the property [pc]. *)
Definition set_pc (v : Value) : M SigreturnFrame unit :=
  let* f := get in
  let* r := subscript (instruction_pointers (arch f)) in
  __setitem__ r v.

(** The setter of the property [syscall]. *)
Definition set_syscall (v : Value) : M SigreturnFrame unit :=
  let* f := get in
  __setitem__ (syscall_register (ABI_syscall (arch f))) v.

End Properties.

End srop.

(** ** String helpers used by rop.py *)

(** [s.startswith(p)]. *)
Fixpoint startswith (s p : string) : bool :=
  match p, s with
  | EmptyString, _ => true
  | String c p', String d s' => Ascii.eqb c d && startswith s' p'
  | String _ _, EmptyString => false
  end.

(** [c in s] for a one-character string [c]. *)
Fixpoint contains_char (c : ascii) (s : string) : bool :=
  match s with
  | EmptyString => false
  | String d s' => Ascii.eqb c d || contains_char c s'
  end.

(** [needle in s] for strings. *)
Fixpoint contains (needle s : string) : bool :=
  startswith s needle ||
  match s with
  | EmptyString => false
  | String _ s' => contains needle s'
  end.

(** [s.split(sep)] for a one-character separator: the current field is
    accumulated in reverse in [cur]. *)
Fixpoint split_aux (sep : ascii) (s : string) (cur : list ascii) : list string :=
  match s with
  | EmptyString => [string_of_list_ascii (rev cur)]
  | String c s' =>
      if Ascii.eqb c sep then string_of_list_ascii (rev cur) :: split_aux sep s' []
      else split_aux sep s' (c :: cur)
  end.

Definition split (sep : ascii) (s : string) : list string := split_aux sep s [].

(** [s[-2:]]: the last two characters, or all of [s] when it is shorter. *)
Definition last2 (s : string) : string :=
  let l := list_ascii_of_string s in
  string_of_list_ascii (skipn (length l - 2)%nat l).

(** [s.lower()] on ASCII. *)
Definition lower_ascii (c : ascii) : ascii :=
  let n := nat_of_ascii c in
  if (65 <=? n)%nat && (n <=? 90)%nat then ascii_of_nat (n + 32) else c.

Fixpoint lower (s : string) : string :=
  match s with
  | EmptyString => EmptyString
  | String c s' => String (lower_ascii c) (lower s')
  end.

(** ['_'.join(l)] and the like. *)
Fixpoint join (sep : string) (l : list string) : string :=
  match l with
  | [] => ""
  | [x] => x
  | x :: l' => x ++ sep ++ join sep l'
  end%string.

(** [int(s)] for a decimal literal with an optional sign; anything else is a
    [ValueError] (blanks around the digits, which an attribute name does not
    have, are not handled). *)
Definition digit_of (c : ascii) : option Z :=
  let n := nat_of_ascii c in
  if (48 <=? n)%nat && (n <=? 57)%nat then Some (Z.of_nat (n - 48)) else None.

Fixpoint int_digits (s : string) (acc : Z) : option Z :=
  match s with
  | EmptyString => Some acc
  | String c s' =>
      match digit_of c with
      | Some d => int_digits s' (10 * acc + d)
      | None => None
      end
  end.

Definition int_of_string (s : string) : option Z :=
  match s with
  | EmptyString => None
  | String "-" (String c s') => Z.opp <$> int_digits (String c s') 0
  | String "+" (String c s') => int_digits (String c s') 0
  | _ => int_digits s 0
  end.

(** ** Dictionaries and sets with an iteration order

    Where the code iterates over a dictionary or a set, the container is a
    list in insertion order: assigning to an existing key keeps its place. *)

Section Dict.
Context {K V : Type} `{EqDecision K}.

Fixpoint dict_get (k : K) (d : list (K * V)) : option V :=
  match d with
  | [] => None
  | (k', v) :: d' => if decide (k = k') then Some v else dict_get k d'
  end.

Fixpoint dict_set (k : K) (v : V) (d : list (K * V)) : list (K * V) :=
  match d with
  | [] => [(k, v)]
  | (k', v') :: d' =>
      if decide (k = k') then (k, v) :: d' else (k', v') :: dict_set k v d'
  end.

Fixpoint dict_del (k : K) (d : list (K * V)) : list (K * V) :=
  match d with
  | [] => []
  | (k', v') :: d' => if decide (k = k') then d' else (k', v') :: dict_del k d'
  end.

Definition dict_has (k : K) (d : list (K * V)) : bool :=
  bool_decide (is_Some (dict_get k d)).

Definition keys (d : list (K * V)) : list K := map fst d.
Definition values (d : list (K * V)) : list V := map snd d.

(** [set.add]. *)
Definition set_add (k : K) (s : list K) : list K :=
  if bool_decide (k ∈ s) then s else s ++ [k].

(** [set(l)]. *)
Definition to_set (l : list K) : list K := fold_left (fun s k => set_add k s) l [].

(** [list.remove] and [set.remove]: the first occurrence goes. *)
Fixpoint remove_first (k : K) (s : list K) : list K :=
  match s with
  | [] => []
  | k' :: s' => if decide (k = k') then s' else k' :: remove_first k s'
  end.

(** [a <= b] on sets. *)
Definition subset (a b : list K) : bool := forallb (fun k => bool_decide (k ∈ b)) a.

(** [a & b] on sets. *)
Definition intersection (a b : list K) : list K :=
  filter (fun k => k ∈ b) a.

End Dict.

(** ** rop.py *)

Module rop.

(** A [Call] object (of [pwnlib.rop.call]). *)
Record Call : Type := mkCall {
  name : string;
  target : Value;
  args : list Value;
  abi : ABI
}.

(** The part of an [ELF] object that the code reads. *)
Record ELF : Type := mkELF {
  symbols : gmap string Z
}.

(** What [ROP._chain] holds. *)
Inductive Element : Type :=
| EValue (v : Value)
| ECall (c : Call)
| ESigreturnFrame (f : srop.SigreturnFrame).

(** The [ROP] object, together with the state of the module [random]
    ([random_state] counts the numbers drawn so far). [_top_sorted] is [None]
    where the attribute holds Python's [None]. *)
Record ROP : Type := mkROP {
  _chain : list Element;
  elfs : list ELF;
  base : option Z;
  align : Z;
  migrated : bool;
  arch : string;
  gadgets : list (Z * Gadget);
  gadget_graph : list (Gadget * list Gadget);
  _global_delete_gadget : list (Gadget * list Gadget);
  _top_sorted : option (list Gadget);
  random_state : nat
}.

Definition set_chain (c : list Element) (r : ROP) : ROP :=
  mkROP c (elfs r) (base r) (align r) (migrated r) (arch r) (gadgets r)
        (gadget_graph r) (_global_delete_gadget r) (_top_sorted r) (random_state r).

Definition set_migrated (b : bool) (r : ROP) : ROP :=
  mkROP (_chain r) (elfs r) (base r) (align r) b (arch r) (gadgets r)
        (gadget_graph r) (_global_delete_gadget r) (_top_sorted r) (random_state r).

Definition set_gadgets (g : list (Z * Gadget)) (r : ROP) : ROP :=
  mkROP (_chain r) (elfs r) (base r) (align r) (migrated r) (arch r) g
        (gadget_graph r) (_global_delete_gadget r) (_top_sorted r) (random_state r).

Definition set_gadget_graph (g : list (Gadget * list Gadget)) (r : ROP) : ROP :=
  mkROP (_chain r) (elfs r) (base r) (align r) (migrated r) (arch r) (gadgets r)
        g (_global_delete_gadget r) (_top_sorted r) (random_state r).

Definition set_global_delete_gadget (d : list (Gadget * list Gadget)) (r : ROP) : ROP :=
  mkROP (_chain r) (elfs r) (base r) (align r) (migrated r) (arch r) (gadgets r)
        (gadget_graph r) d (_top_sorted r) (random_state r).

Definition set_top_sorted (t : option (list Gadget)) (r : ROP) : ROP :=
  mkROP (_chain r) (elfs r) (base r) (align r) (migrated r) (arch r) (gadgets r)
        (gadget_graph r) (_global_delete_gadget r) t (random_state r).

Definition set_random_state (n : nat) (r : ROP) : ROP :=
  mkROP (_chain r) (elfs r) (base r) (align r) (migrated r) (arch r) (gadgets r)
        (gadget_graph r) (_global_delete_gadget r) (_top_sorted r) n.

(** A gadget or [None] as a value. *)
Definition of_gadget (o : option Gadget) : Value :=
  match o with
  | Some g => VGadget g
  | None => VNone
  end.

(** *** search_iter and search *)

(** [set(gadget.regs)]: the keys of the effects dictionary. *)
Definition reg_keys (g : Gadget) : list Dst := map fst (regs g).

(** [len(g.regs)]. *)
Definition len_regs (g : Gadget) : Z := Z.of_nat (length (regs g)).

(** The gadgets that [search_iter] yields, in the order of [self.gadgets];
    [mv] is [move or 0] and [rs] is [regs or ()]. *)
Definition search_iter (mv : Z) (rs : list string) (self : ROP) : list Gadget :=
  filter (fun g => negb (move g <? mv) && subset (map DReg (to_set rs)) (reg_keys g))
         (values (gadgets self)).

(** The argument [order]: ['size'] or ['regs']. *)
Inductive Order : Type := size | by_regs.

Definition key (order : Order) (g : Gadget) : Z * Z * Z :=
  match order with
  | size => (move g, len_regs g, address g)
  | by_regs => (len_regs g, move g, address g)
  end.

(** Python's [<] on triples of integers. *)
Definition tuple_lt (a b : Z * Z * Z) : bool :=
  let '(a1, a2, a3) := a in
  let '(b1, b2, b3) := b in
  (a1 <? b1) || ((a1 =? b1) && ((a2 <? b2) || ((a2 =? b2) && (a3 <? b3)))).

(** [min(l, key=k)]: the first element whose key is minimal; [None] stands
    for the [ValueError] on an empty sequence. *)
Definition py_min {A} (k : A -> Z * Z * Z) (l : list A) : option A :=
  match l with
  | [] => None
  | x :: l' => Some (fold_left (fun best y => if tuple_lt (k y) (k best) then y else best) l' x)
  end.

Definition search (mv : Z) (rs : list string) (order : Order) (self : ROP)
  : option Gadget :=
  py_min (key order) (search_iter mv rs self).

(** *** __getattr__: the attribute shorthand *)

Definition bad_attrs : list string := ["trait_names"; "download"; "upload"].

Definition x86_suffixes : list string :=
  ["ax"; "bx"; "cx"; "dx"; "bp"; "sp"; "di"; "si";
   "r8"; "r9"; "10"; "11"; "12"; "13"; "14"; "15"].

Definition syscall_mapping (attr : string) : string :=
  if String.eqb attr "int80" then "int 0x80"
  else if String.eqb attr "syscall" then "syscall"
  else "sysenter".

(** The loop over [self.gadgets] of the ['int80'] branch. *)
Fixpoint first_with_insns (l : list string) (d : list (Z * Gadget)) : Value :=
  match d with
  | [] => VNone
  | (each, g) :: d' =>
      if bool_decide (insns g = l) then VGadgetTuple each g
      else first_with_insns l d'
  end.

(** Attributes that the object and its class define never reach
    [__getattr__]; it is called for the other names. *)
Definition __getattr__ (attr : string) : M ROP Value :=
  if bool_decide (attr ∈ bad_attrs) || startswith attr "_" then raise AttributeError
  else if startswith attr "ret" then
    let* count :=
      (if contains_char "_" attr then
         match split "_" attr with
         | _ :: x :: _ =>
             match int_of_string x with
             | Some n => ret n
             | None => raise ValueError
             end
         | _ => raise IndexError
         end
       else ret 4) in
    let* self := get in
    ret (of_gadget (search count [] size self))
  else if bool_decide (attr ∈ ["int80"; "syscall"; "sysenter"]) then
    let* self := get in
    ret (first_with_insns [syscall_mapping attr] (gadgets self))
  else if forallb (fun x => bool_decide (last2 x ∈ x86_suffixes)) (split "_" attr) then
    let* self := get in
    ret (of_gadget (search 0 (split "_" attr) by_regs self))
  else ret (VFunction attr).

(** [a or b]: [b] is only evaluated when [a] is falsy. *)
Definition or_else {S} (a b : M S Value) : M S Value :=
  let* x := a in
  if truthy x then ret x else b.

(** *** raw and migrate *)

Definition raw (value : Element) : M ROP unit :=
  let* self := get in
  let* _ := (if migrated self then log_error "Cannot append to a migrated chain"
             else ret tt) in
  modify (fun self => set_chain (_chain self ++ [value]) self).

(** [len(v.regs) == 1]; only a gadget has the attribute. *)
Definition one_reg {S} (v : Value) : M S bool :=
  match v with
  | VGadget g => ret (len_regs g =? 1)
  | _ => raise AttributeError
  end.

(** [a and b] as a condition, with [b] evaluated only when [a] holds. *)
Definition and_then {S} (a : bool) (b : M S bool) : M S bool :=
  if a then b else ret false.

(** [v - n]. *)
Definition minus {S} (v : Value) (n : Z) : M S Value :=
  match v with
  | VInt z => ret (VInt (z - n))
  | _ => raise TypeError
  end.

(** The argument of [migrate]: a value (an address) or a [ROP] object. *)
Inductive NextBase : Type :=
| NBValue (v : Value)
| NBRop (r : ROP).

Definition of_base (b : option Z) : Value :=
  match b with
  | Some z => VInt z
  | None => VNone
  end.

Definition migrate (next_base : NextBase) : M ROP unit :=
  let* self := get in
  let next_base := match next_base with
                   | NBRop _ => of_base (base self)
                   | NBValue v => v
                   end in
  let* pop_sp := or_else (__getattr__ "rsp") (__getattr__ "esp") in
  let* pop_bp := or_else (__getattr__ "rbp") (__getattr__ "ebp") in
  let* leave := __getattr__ "leave" in
  let* c1 := and_then (truthy pop_sp) (one_reg pop_sp) in
  let* _ :=
    (if c1 then
       let* _ := raw (EValue pop_sp) in
       raw (EValue next_base)
     else
       let* c2 := and_then (truthy pop_bp && truthy leave) (one_reg pop_bp) in
       if c2 then
         let* _ := raw (EValue pop_bp) in
         let* nb := minus next_base 4 in
         let* _ := raw (EValue nb) in
         raw (EValue leave)
       else log_error "Cannot find the gadgets to migrate") in
  modify (set_migrated true).

(** *** resolve, call and _srop_call *)

(** What [call] and [resolve] accept: a name or an integer. *)
Inductive Resolvable : Type :=
| RStr (s : string)
| RInt (z : Z).

(** The loop of [resolve] over the ELF files. *)
Fixpoint resolve_str (s : string) (es : list ELF) : option Z :=
  match es with
  | [] => None
  | elf :: es' =>
      match symbols elf !! s with
      | Some a => Some a
      | None => resolve_str s es'
      end
  end.

(** [None] is Python's [None]. *)
Definition resolve (resolvable : Resolvable) (self : ROP) : option Z :=
  match resolvable with
  | RStr s => resolve_str s (elfs self)
  | RInt z => Some z
  end.

(** [find_gadget]: the first gadget with exactly these instructions. *)
Fixpoint find_gadget_in (instructions : list string) (gs : list Gadget) : option Gadget :=
  match gs with
  | [] => None
  | g :: gs' =>
      if bool_decide (insns g = instructions) then Some g
      else find_gadget_in instructions gs'
  end.

Definition find_gadget (instructions : list string) (self : ROP) : option Gadget :=
  find_gadget_in instructions (values (gadgets self)).

(** Runs a computation on a frame that is local to the caller. *)
Definition on_frame {A} (c : M srop.SigreturnFrame A) (f : srop.SigreturnFrame)
  : M ROP (A * srop.SigreturnFrame) :=
  fun self => match c f with
              | (Ok a, f') => (Ok (a, f'), self)
              | (Raise e, _) => (Raise e, self)
              end.

(** [for x in l: c x] on a local frame. *)
Fixpoint for_each {S A} (c : A -> M S unit) (l : list A) : M S unit :=
  match l with
  | [] => ret tt
  | a :: l' => let* _ := c a in for_each c l'
  end.

(** [zip]. *)
Fixpoint zip {A B} (l : list A) (l' : list B) : list (A * B) :=
  match l, l' with
  | a :: l, b :: l' => (a, b) :: zip l l'
  | _, _ => []
  end.

Section Collaborators.

(** [context.arch] of the global context. *)
Variable context_arch : string.

(** [getattr(constants, name, None)] of [pwnlib.constants]. *)
Variable constants : string -> option Z.

(** [ABI.syscall(arch)], [ABI.sigreturn()] and the ABI that [Call] takes
    when it is given none. *)
Variable ABI_syscall : string -> ABI.
Variable ABI_sigreturn : ABI.
Variable ABI_default : ABI.

(** [Call(name, target, args, abi)]. *)
Definition Call_init (name : string) (target : Value) (args : list Value)
    (abi : option ABI) : Call :=
  mkCall name target args (default ABI_default abi).

(** The [for ... else] loop over the syscall instructions. *)
Fixpoint first_syscall_gadget (l : list string) (self : ROP) : option Gadget :=
  match l with
  | [] => None
  | instruction :: l' =>
      match find_gadget [instruction] self with
      | Some g => Some g
      | None => first_syscall_gadget l' self
      end
  end.

Definition _srop_call (resolvable : string) (arguments : list Value) : M ROP bool :=
  let resolvable := ("SYS_" ++ lower resolvable)%string in
  match constants resolvable with
  | None => ret false
  | Some syscall_number =>
      let* syscall_instructions := srop.subscript (srop.syscall_instructions context_arch) in
      let* self := get in
      let* syscall_gadget :=
        (match first_syscall_gadget syscall_instructions self with
         | Some g => ret g
         | None => log_error "Could not find any instructions"
         end) in
      let* frame := lift (srop.__init__ (arch self)) in
      let* '(_, frame) :=
        on_frame (let* _ := srop.set_pc (VGadget syscall_gadget) in
                  srop.set_syscall ABI_syscall (VInt syscall_number)) frame in
      let* SYS_sigreturn :=
        (match constants "SYS_sigreturn" with
         | Some n => ret n
         | None => raise AttributeError
         end) in
      let* '(_, frame) :=
        on_frame (let* regs := srop.arguments ABI_syscall in
                  for_each (fun '(register, value) => srop.__setitem__ register value)
                           (zip regs arguments)) frame in
      let call := Call_init "SYS_sigreturn" (VGadget syscall_gadget)
                            [VInt SYS_sigreturn] (Some ABI_sigreturn) in
      let* _ := raw (ECall call) in
      let* _ := raw (ESigreturnFrame frame) in
      let* _ := modify (set_migrated true) in
      ret true
  end.

Definition call (resolvable : Resolvable) (arguments : list Value)
    (abi : option ABI) : M ROP unit :=
  let* self := get in
  let* _ := (if migrated self then log_error "Cannot append to a migrated chain"
             else ret tt) in
  let '(addr, resolvable) :=
    match resolvable with
    | RStr s => (of_base (resolve (RStr s) self), s)
    | RInt z => (VInt z, "")
    end in
  if truthy addr then
    raw (ECall (Call_init resolvable addr arguments abi))
  else
    let* ok := _srop_call resolvable arguments in
    if negb ok then log_error "Could not resolve" else ret tt.

End Collaborators.

(** *** __build_top_sort *)

Section TopSort.
Context {N : Type} `{EqDecision N}.

(** A graph: a dictionary from a node to the set of its successors. *)
Definition graph_t : Type := list (N * list N).

(** [indegree[k] = 0] for every key and every successor. *)
Definition zero_indegree (graph : graph_t) : list (N * Z) :=
  fold_left (fun ind kv =>
               fold_left (fun ind l => dict_set l 0 ind) kv.2 (dict_set kv.1 0 ind))
            graph [].

(** [d[k] += n] on a key that is present. *)
Definition dict_incr (k : N) (n : Z) (d : list (N * Z)) : list (N * Z) :=
  dict_set k (default 0 (dict_get k d) + n) d.

Definition count_indegree (graph : graph_t) (ind : list (N * Z)) : list (N * Z) :=
  fold_left (fun ind kv => fold_left (fun ind gadget => dict_incr gadget 1 ind) kv.2 ind)
            graph ind.

(** [l.pop()]: the last element and the rest. *)
Definition pop {A} (l : list A) : option (A * list A) :=
  match rev l with
  | [] => None
  | x :: r => Some (x, rev r)
  end.

(** The state of the [while] loop. *)
Record loop_state : Type := mkLoop {
  st_indegree_zero : list N;
  st_top_sorted : list N;
  st_indegree : list (N * Z);
  st_graph : graph_t
}.

(** The body of [for m in graph[n]]. *)
Definition visit_successor (acc : list (N * Z) * list N) (m : N) : list (N * Z) * list N :=
  let ind := dict_incr m (-1) acc.1 in
  if default 0 (dict_get m ind) =? 0 then (ind, acc.2 ++ [m]) else (ind, acc.2).

(** The [while len(indegree_zero) > 0] loop; [None] when the fuel runs out. *)
Fixpoint top_loop (fuel : nat) (st : loop_state) : option loop_state :=
  match fuel with
  | O => None
  | S fuel' =>
      match pop (st_indegree_zero st) with
      | None => Some st
      | Some (n, rest) =>
          let sorted := st_top_sorted st ++ [n] in
          match dict_get n (st_graph st) with
          | None => top_loop fuel' (mkLoop rest sorted (st_indegree st) (st_graph st))
          | Some succs =>
              let '(ind, zero) := fold_left visit_successor succs (st_indegree st, rest) in
              top_loop fuel' (mkLoop zero sorted ind (dict_del n (st_graph st)))
          end
      end
  end.

(** The edge that the nested [for] loops delete: for the first [g] of
    [indegree] with an in-degree above 1, the first key [k] of [graph] that
    has [g] among its successors. *)
Definition first_key_into (g : N) (graph : graph_t) : option N :=
  fst <$> List.find (fun kv => bool_decide (g ∈ kv.2)) graph.

Fixpoint find_cycle_edge (ind : list (N * Z)) (graph : graph_t) : option (N * N) :=
  match ind with
  | [] => None
  | (g, indeg) :: ind' =>
      if 1 <? indeg then
        match first_key_into g graph with
        | Some k => Some (k, g)
        | None => find_cycle_edge ind' graph
        end
      else find_cycle_edge ind' graph
  end.

(** Recording a deleted edge in [_global_delete_gadget]. *)
Definition record_deleted (k h : N) (deleted : graph_t) : graph_t :=
  let deleted := if dict_has k deleted then deleted else dict_set k [] deleted in
  dict_set k (set_add h (default [] (dict_get k deleted))) deleted.

(** What a call returns: a list, Python's [None], or nothing when the fuel
    ran out. *)
Inductive sorted_t : Type :=
| Sorted (l : list N)
| ReturnsNone
| NoFuel.

(** [__build_top_sort(graph)], with [_global_delete_gadget] threaded. *)
Fixpoint __build_top_sort (fuel : nat) (graph : graph_t) (deleted : graph_t)
  : sorted_t * graph_t :=
  match fuel with
  | O => (NoFuel, deleted)
  | S fuel' =>
      let ind := count_indegree graph (zero_indegree graph) in
      let zero := map fst (filter (fun gi => gi.2 = 0) ind) in
      match top_loop fuel (mkLoop zero [] ind graph) with
      | None => (NoFuel, deleted)
      | Some st =>
          if Nat.eqb (length (st_graph st)) 0 then (Sorted (st_top_sorted st), deleted)
          else
            match find_cycle_edge (st_indegree st) (st_graph st) with
            | None => (ReturnsNone, deleted)
            | Some (k, h) =>
                let graph' :=
                  dict_set k (remove_first h (default [] (dict_get k (st_graph st))))
                           (st_graph st) in
                match __build_top_sort fuel' graph' (record_deleted k h deleted) with
                | (Sorted l, d) => (Sorted (st_top_sorted st ++ l), d)
                | (ReturnsNone, d) => (Sorted (st_top_sorted st ++ []), d)
                | (NoFuel, d) => (NoFuel, d)
                end
            end
      end
  end.

End TopSort.

(** *** build_graph *)

(** The two-letter suffixes of the destinations that are register names. *)
Definition outputs_of (g : Gadget) : list string :=
  flat_map (fun d => match d with
                     | DReg i => if negb (contains_char "[" i) then [last2 i] else []
                     | DOther _ => []
                     end) (reg_keys g).

(** The two-letter suffixes of the sources; for a list, ["[" not in i] tests
    the list itself. *)
Definition inputs_of (g : Gadget) : list string :=
  flat_map (fun i => match i with
                     | SStr i => if negb (contains_char "[" i) then [last2 i] else []
                     | SList l => if negb (bool_decide ("[" ∈ l)) then map last2 l else []
                     | _ => []
                     end) (values (regs g)).

Definition build_graph (self : ROP) : list (Gadget * list Gadget) :=
  let gs := values (gadgets self) in
  fold_left
    (fun gadget_graph gad_1 =>
       let outputs := outputs_of gad_1 in
       fold_left
         (fun gadget_graph gad_2 =>
            if bool_decide (gad_1 = gad_2) then gadget_graph
            else
              let inter := intersection (to_set (inputs_of gad_2)) (to_set outputs) in
              if (0 <? length inter)%nat then
                dict_set gad_1 (set_add gad_2 (default [] (dict_get gad_1 gadget_graph)))
                         gadget_graph
              else gadget_graph)
         gs (dict_set gad_1 [] gadget_graph))
    gs [].

(** *** __find_path *)

(** The paths that the generator yields, in order. *)
Fixpoint __find_path (fuel : nat) (graph : list (Gadget * list Gadget))
    (start end_ : Gadget) (path : list Gadget) : Result (list (list Gadget)) :=
  match fuel with
  | O => Raise OutOfFuel
  | S fuel' =>
      let path := path ++ [start] in
      let here := if bool_decide (start = end_) then [path] else [] in
      match dict_get start graph with
      | None => Ok here
      | Some succs =>
          fold_left
            (fun acc node =>
               match acc with
               | Raise e => Raise e
               | Ok yielded =>
                   if bool_decide (node ∈ path) then Ok yielded
                   else
                     match __find_path fuel' graph node end_ path with
                     | Raise e => Raise e
                     | Ok new_paths =>
                         Ok (yielded ++ filter (fun p => p ≠ []) new_paths)
                     end
               end)
            succs (Ok here)
      end
  end.

(** [sorted(l, key=k)]: a stable insertion sort. *)
Fixpoint insert_by {A} (k : A -> Z) (x : A) (l : list A) : list A :=
  match l with
  | [] => [x]
  | y :: l' => if k y <=? k x then y :: insert_by k x l' else x :: y :: l'
  end.

Definition sorted_by {A} (k : A -> Z) (l : list A) : list A :=
  fold_left (fun acc x => insert_by k x acc) l [].

(** [len(s)] of a string. *)
Definition len (s : string) : Z := Z.of_nat (String.length s).

(** [l.index(x)]. *)
Fixpoint index_of {A} `{EqDecision A} (x : A) (l : list A) : option Z :=
  match l with
  | [] => None
  | y :: l' => if decide (x = y) then Some 0 else Z.succ <$> index_of x l'
  end.

(** *** The register solver: init_classify_and_solver, search_path,
    setRegisters and flat_as_stack *)

(** [set.remove] on [gadget_graph[d]]: a missing key or element is a
    [KeyError]. *)
Definition graph_remove (d i : Gadget) (g : list (Gadget * list Gadget))
  : Result (list (Gadget * list Gadget)) :=
  match dict_get d g with
  | None => Raise KeyError
  | Some s => if bool_decide (i ∈ s) then Ok (dict_set d (remove_first i s) g)
              else Raise KeyError
  end.

(** A fold whose body can raise. *)
Fixpoint foldM {A B} (f : B -> A -> Result B) (l : list A) (b : B) : Result B :=
  match l with
  | [] => Ok b
  | a :: l' => match f b a with
               | Ok b' => foldM f l' b'
               | Raise e => Raise e
               end
  end.

(** The strings that [search_path] collects from the sources of a gadget. *)
Definition gadget_srcs (g : Gadget) : list string :=
  flat_map (fun i => match i with
                     | SMem reg => [reg]
                     | SList l => l
                     | SStr s => [s]
                     | SOther _ => []
                     end) (values (regs g)).

(** ["; ".join(gadget.insns)]. *)
Definition the_insns (g : Gadget) : string := join "; " (insns g).

(** The key that ranks the paths: the length of their text. *)
Definition path_len (path : list Gadget) : Z := len (join " + " (map the_insns path)).

(** [reduce(set.intersection, l)]; an empty [l] is a [TypeError]. *)
Definition reduce_intersection (l : list (list string)) : Result (list string) :=
  match l with
  | [] => Raise TypeError
  | x :: l' => Ok (fold_left intersection l' x)
  end.

Section Solver.

(** [GadgetClassifier.classify] and [GadgetSolver.verify_path] of
    [pwnlib.rop.gadgetfinder] (not under src/); [None] is a falsy result. *)
Variable classify : Gadget -> option Gadget.
Variable verify_path : list Gadget -> list (string * Value) -> option (Z * list (Z * Z)).

(** The numbers that [random.randint(2**16, 2**32)] returns, by the count of
    the numbers drawn before. *)
Variable randint : nat -> Z.

Definition init_classify_and_solver (fuel : nat) : M ROP unit :=
  let* self := get in
  let gads := gadgets self in
  let* _ := modify (set_gadgets
                      (fold_left (fun acc gadget =>
                                    match classify gadget with
                                    | Some cl => dict_set (address cl) cl acc
                                    | None => acc
                                    end) (values gads) [])) in
  let* _ := modify (fun self => set_gadget_graph (build_graph self) self) in
  let* _ := modify (set_global_delete_gadget []) in
  let* self := get in
  let ggh := gadget_graph self in
  match __build_top_sort fuel ggh [] with
  | (NoFuel, _) => raise OutOfFuel
  | (r, deleted) =>
      let* _ := modify (set_global_delete_gadget deleted) in
      let* _ := modify (set_top_sorted match r with Sorted l => Some l | _ => None end) in
      let* g := lift (foldM (fun g dl => foldM (fun g i => graph_remove dl.1 i g) dl.2 g)
                            deleted (gadget_graph self)) in
      modify (set_gadget_graph g)
  end.

(** [random.randint(2**16, 2**32)]. *)
Definition random_randint : M ROP Z :=
  let* self := get in
  let* _ := modify (set_random_state (S (random_state self))) in
  ret (randint (random_state self)).

(** The dictionary [cond] of [search_path]: a random number for every
    register. *)
Fixpoint draw_cond (regs : list string) (cond : list (string * Value))
  : M ROP (list (string * Value)) :=
  match regs with
  | [] => ret cond
  | reg :: regs' =>
      let* n := random_randint in
      draw_cond regs' (dict_set reg (VInt n) cond)
  end.

(** The set [start] of [search_path]. *)
Definition start_set (src : string) (gs : list Gadget) : list Gadget :=
  fold_left (fun start gadget =>
               if existsb (contains src) (gadget_srcs gadget)
               then set_add gadget start else start) gs [].

(** The dictionaries [asm_instr_dict] and [alldst] of [search_path]. *)
Definition dst_tables (regs : list string) (gs : list Gadget)
  : list (string * Gadget) * list (string * list string) :=
  fold_left (fun acc gadget =>
               (dict_set (the_insns gadget) gadget acc.1,
                fold_left (fun alldst reg =>
                             if bool_decide (DReg reg ∈ reg_keys gadget)
                             then dict_set reg (set_add (the_insns gadget)
                                                        (default [] (dict_get reg alldst)))
                                           alldst
                             else alldst) regs acc.2))
            gs ([], fold_left (fun d reg => dict_set reg [] d) regs []).

(** The set [end] of [search_path]. *)
Definition end_set (regs : list string) (gs : list Gadget) : Result (list Gadget) :=
  let '(asm_instr_dict, alldst) := dst_tables regs gs in
  match reduce_intersection (values alldst) with
  | Raise e => Raise e
  | Ok results =>
      foldM (fun end_ r => match dict_get r asm_instr_dict with
                           | Some g => Ok (set_add g end_)
                           | None => Raise KeyError
                           end) results []
  end.

(** The list [paths] of [search_path] before it is filtered. *)
Definition all_paths (fuel : nat) (graph : list (Gadget * list Gadget))
    (start end_ : list Gadget) : Result (list (list Gadget)) :=
  if negb (Nat.eqb (length start) 0) && negb (Nat.eqb (length end_) 0) then
    foldM (fun paths s =>
             foldM (fun paths e =>
                      match __find_path fuel graph s e [] with
                      | Ok path => Ok (paths ++ path)
                      | Raise e => Raise e
                      end) end_ paths)
          start []
  else Ok [].

(** [None] is Python's [None]. *)
Definition search_path (fuel : nat) (src : string) (regs : list string)
  : M ROP (option (list (list Gadget))) :=
  let* self := get in
  let gs := values (gadgets self) in
  let start := start_set src gs in
  let* end_ := lift (end_set regs gs) in
  let* paths := lift (all_paths fuel (gadget_graph self) start end_) in
  let* cond := draw_cond regs [] in
  let path_filted := filter (fun path => is_Some (verify_path path cond)) paths in
  let paths := sorted_by path_len path_filted in
  if Nat.eqb (length paths) 0 then ret None else ret (Some paths).

(** A verified group of [setRegisters]: the gadgets, the stack pointer's
    advance and the bytes to put at the offsets. *)
Definition group_t : Type := list Gadget * Z * list (Z * Z).

(** The dictionary [know] of [flat_as_stack]. *)
Definition know_of (align : Z) (ropgadget : list Gadget) : Result (list (Z * Gadget)) :=
  match foldM (fun '(sp, know) gad =>
                 match (if sp =? 0 then Ok know
                        else if align =? 0 then Raise ZeroDivisionError
                        else Ok (dict_set (sp / align) gad know)) with
                 | Ok know => Ok (sp + (move gad - align), know)
                 | Raise e => Raise e
                 end) ropgadget (0, []) with
  | Ok (_, know) => Ok know
  | Raise e => Raise e
  end.

(** [temp_packed]: the bytes at [i], [i+1], ... as one integer. *)
Definition pack_at (align i : Z) (stack_result : list (Z * Z)) : Result Z :=
  foldM (fun temp_packed j =>
           match dict_get (i + j) stack_result with
           | Some b => Ok (temp_packed + Z.shiftl b (8 * j))
           | None => Raise KeyError
           end) (seqZ 0 align) 0.

(** The [while i < (move - self.align)] loop of [flat_as_stack]. *)
Fixpoint flat_loop (fuel : nat) (align mv i : Z) (stack_result : list (Z * Z))
    (know : list (Z * Gadget)) (outrop : list Value) : Result (list Value) :=
  match fuel with
  | O => Raise OutOfFuel
  | S fuel' =>
      if i <? mv - align then
        if dict_has i stack_result then
          match pack_at align i stack_result with
          | Ok temp_packed =>
              flat_loop fuel' align mv (i + align) stack_result know
                        (outrop ++ [VInt temp_packed])
          | Raise e => Raise e
          end
        else
          match dict_get i know with
          | Some g => flat_loop fuel' align mv (i + align) stack_result know
                                (outrop ++ [VGadget g])
          | None => flat_loop fuel' align mv (i + align) stack_result know
                              (outrop ++ [VPadding])
          end
      else Ok outrop
  end.

Definition flat_as_stack (fuel : nat) (align : Z) (ordered_dict : list (string * group_t))
  : Result (list (string * list Value)) :=
  foldM (fun out '(reg, (ropgadget, mv, stack_result)) =>
           match know_of align ropgadget with
           | Raise e => Raise e
           | Ok know =>
               match ropgadget with
               | [] => Raise IndexError
               | g0 :: _ =>
                   match flat_loop fuel align mv 0 stack_result know [VGadget g0] with
                   | Ok outrop => Ok (dict_set reg outrop out)
                   | Raise e => Raise e
                   end
               end
           end) ordered_dict [].

(** The first loop of [setRegisters]: a path for every register, grouped by
    the address of the path's last gadget. *)
Fixpoint find_groups (fuel : nat) (values : list (string * Value))
    (ropgadgets : list (Z * list Gadget)) (gadget_list : list (Z * list string))
  : M ROP (list (Z * list Gadget) * list (Z * list string)) :=
  match values with
  | [] => ret (ropgadgets, gadget_list)
  | (reg, value) :: values' =>
      let* found := search_path fuel "sp" [reg] in
      match found with
      | Some (ropgadget :: _) =>
          match last ropgadget with
          | None => log_error "Gadget to reg not found!"
          | Some g =>
              let last_gadget_address := address g in
              let ropgadgets := dict_set last_gadget_address ropgadget ropgadgets in
              let gadget_list :=
                if dict_has last_gadget_address gadget_list then gadget_list
                else dict_set last_gadget_address [] gadget_list in
              let gadget_list :=
                dict_set last_gadget_address
                         (default [] (dict_get last_gadget_address gadget_list) ++ [reg])
                         gadget_list in
              find_groups fuel values' ropgadgets gadget_list
          end
      | _ => log_error "Gadget to reg not found!"
      end
  end.

(** The second loop of [setRegisters]: the solver's answer for every
    group. A falsy answer cannot be unpacked. *)
Definition verify_groups (values : list (string * Value))
    (ropgadgets : list (Z * list Gadget)) (gadget_list : list (Z * list string))
  : Result (list (string * group_t)) :=
  foldM (fun out '(address, regs) =>
           match dict_get address ropgadgets with
           | None => Raise KeyError
           | Some ropgadget =>
               match foldM (fun conditions reg =>
                              match dict_get reg values with
                              | Some v => Ok (dict_set reg v conditions)
                              | None => Raise KeyError
                              end) regs [] with
               | Raise e => Raise e
               | Ok conditions =>
                   match verify_path ropgadget conditions with
                   | Some (sp, stack) => Ok (out ++ [(join "_" regs, (ropgadget, sp, stack))])
                   | None => Raise TypeError
                   end
               end
           end) gadget_list [].

(** The sort key of a group: the place of its last gadget in the reversed
    topological order. *)
Definition group_key (top_sorted : option (list Gadget)) (t : string * group_t) : Result Z :=
  match top_sorted with
  | None => Raise TypeError
  | Some l =>
      match last t.2.1.1 with
      | None => Raise IndexError
      | Some g => match index_of g (rev l) with
                  | Some i => Ok i
                  | None => Raise ValueError
                  end
      end
  end.

Definition setRegisters (fuel : nat) (values : list (string * Value))
  : M ROP (list (string * list Value)) :=
  let* _ := init_classify_and_solver fuel in
  let* '(ropgadgets, gadget_list) := find_groups fuel values [] [] in
  let* out := lift (verify_groups values ropgadgets gadget_list) in
  let* self := get in
  let* keyed := lift (foldM (fun acc t => match group_key (_top_sorted self) t with
                                          | Ok k => Ok (acc ++ [(k, t)])
                                          | Raise e => Raise e
                                          end) out []) in
  let ordered_out :=
    fold_left (fun d kt => dict_set kt.2.1 kt.2.2 d) (sorted_by fst keyed) [] in
  lift (flat_as_stack fuel (align self) ordered_out).

End Solver.

(** *** build *)

(** The resolved stack: its base address and its slots. The descriptions,
    which nothing reads back, are left out. *)
Record DescriptiveStack : Type := mkStack {
  stack_address : Z;
  slots : list Value
}.

(** [s[start:]]. *)
Definition slice_from {A} (start : Z) (s : list A) : list A :=
  if start <? 0 then skipn (Z.to_nat (Z.of_nat (length s) + start)) s
  else skipn (Z.to_nat start) s.

(** [lists.group(n, s)] of [pwnlib.util.lists] (not under src/): pieces of
    [n] elements, the last one as long as what is left. *)
Fixpoint group_aux {A} (fuel n : nat) (s : list A) : list (list A) :=
  match fuel, s with
  | _, [] => []
  | O, _ => []
  | S fuel', _ => firstn n s :: group_aux fuel' n (skipn n s)
  end.

Definition group {A} (n : nat) (s : list A) : list (list A) :=
  match n with
  | O => []
  | _ => group_aux (length s) n s
  end.

(** How many numbers [range(a, b, step)] holds; a zero step is a
    [ValueError]. *)
Definition range_len (a b step : Z) : Result nat :=
  if step =? 0 then Raise ValueError
  else if 0 <? step then Ok (Z.to_nat ((b - a + step - 1) / step))
  else Ok (Z.to_nat ((a - b - step - 1) / (- step))).

(** [dict(l)]. *)
Definition to_dict {K V} `{EqDecision K} (l : list (K * V)) : list (K * V) :=
  fold_left (fun d kv => dict_set kv.1 kv.2 d) l [].

(** The values for which [describe] returns a string. *)
Definition describable (v : Value) : bool :=
  match v with
  | VInt _ | VStr _ | VGadget _ => true
  | _ => false
  end.

Section Build.

Variable context_bytes : Z.

(** [cyclic.cyclic(n)] of [pwnlib.util.cyclic] (not under src/). *)
Variable cyclic : Z -> bytes.

(** [AppendedArgument.resolve(addr)] of [pwnlib.rop.call] (not under src/),
    on the argument's values. *)
Variable appended_resolve : list Value -> Z -> list Value.

Variable classify : Gadget -> option Gadget.
Variable verify_path : list Gadget -> list (string * Value) -> option (Z * list (Z * Z)).
Variable randint : nat -> Z.

Definition generatePadding (offset count : Z) : bytes :=
  slice_from (- count) (cyclic (offset + count)).

(** [stack.next]. *)
Definition next (start : Z) (stack : list Value) : Z :=
  start + Z.of_nat (length stack) * context_bytes.

(** The loop over [setRegisters.items()]: the descriptions can raise, the
    gadgets and values go on the stack. *)
Definition extend_with_groups (registers : list (string * Value))
    (groups : list (string * list Value)) (stack : list Value) : Result (list Value) :=
  foldM (fun stack '(register, gadgets) =>
           match foldM (fun values reg =>
                          match dict_get reg registers with
                          | Some v => Ok (values ++ [v])
                          | None => Raise KeyError
                          end) (split "_" register) [] with
           | Raise e => Raise e
           | Ok values =>
               if forallb describable values then Ok (stack ++ gadgets)
               else Raise TypeError
           end) groups stack.

(** The branch of the first pass for a [Call]. *)
Definition pass1_call (fuel : nat) (start : Z) (slot : Call) (remaining : nat)
    (stack : list Value) : M ROP (list Value) :=
  let registers := to_dict (zip (register_arguments (abi slot)) (args slot)) in
  let* groups := setRegisters classify verify_path randint fuel registers in
  let* stack := lift (extend_with_groups registers groups stack) in
  let stack := stack ++ [target slot] in
  let stackArguments := skipn (length (register_arguments (abi slot))) (args slot) in
  let nextGadgetAddr :=
    next start stack + context_bytes * Z.of_nat (length stackArguments) in
  let* '(stack, stackArguments, nextGadgetAddr) :=
    (if returns (abi slot) then
       if negb (Nat.eqb remaining 0) then
         let fix_size := 1 + Z.of_nat (length stackArguments) in
         let fix_bytes := fix_size * context_bytes in
         let* self := get in
         match search fix_bytes [] size self with
         | None => log_error "Could not find gadget to adjust stack"
         | Some adjust =>
             let nextGadgetAddr := next start stack + move adjust in
             let stack := stack ++ [VInt (address adjust)] in
             let* pads := lift (range_len fix_bytes (move adjust) context_bytes) in
             ret (stack, stackArguments ++ repeat VPadding pads, nextGadgetAddr)
         end
       else ret (stack ++ [VPadding], stackArguments, nextGadgetAddr)
     else ret (stack, stackArguments, nextGadgetAddr)) in
  ret (stack ++ map (fun argument => match argument with
                                     | VNextGadgetAddress => VInt nextGadgetAddr
                                     | _ => argument
                                     end) stackArguments).

(** The branch of the first pass for a byte blob. *)
Definition pass1_str (start : Z) (slot : bytes) (stack : list Value) : Result (list Value) :=
  if context_bytes =? 0 then Raise ZeroDivisionError
  else
    let slot := slot ++ generatePadding (next start stack)
                                        (Z.of_nat (length slot) mod context_bytes) in
    Ok (stack ++ map VStr (group (Z.to_nat context_bytes) slot)).

(** The branch of the first pass for a frame. *)
Definition pass1_frame (slot : srop.SigreturnFrame) (stack : list Value)
  : Result (list Value) :=
  match (let* rs := srop.frame_registers in srop.mapM srop.__getitem__ rs) slot with
  | (Ok values, _) => Ok (stack ++ values)
  | (Raise e, _) => Raise e
  end.

(** The first pass, from the element at hand on; [remaining] of the code is
    the length of [chain']. *)
Fixpoint pass1 (fuel : nat) (start : Z) (chain : list Element) (stack : list Value)
  : M ROP (list Value) :=
  match chain with
  | [] => ret stack
  | slot :: chain' =>
      let* stack :=
        match slot with
        | EValue (VInt z) => ret (stack ++ [VInt z])
        | EValue (VStr s) => lift (pass1_str start s stack)
        | ESigreturnFrame f => lift (pass1_frame f stack)
        | ECall c => pass1_call fuel start c (length chain') stack
        | EValue v => ret (stack ++ [v])
        end in
      pass1 fuel start chain' stack
  end.

(** The second pass: the loop runs over the list while the list grows. *)
Fixpoint pass2 (fuel : nat) (start : Z) (i : nat) (stack : list Value)
  : Result (list Value) :=
  match fuel with
  | O => Raise OutOfFuel
  | S fuel' =>
      match stack !! i with
      | None => Ok stack
      | Some slot =>
          let slot_address := start + Z.of_nat i * context_bytes in
          let stack :=
            match slot with
            | VAppendedArgument vs =>
                <[i := VInt (next start stack)]> stack ++ appended_resolve vs (next start stack)
            | VCurrentStackPointer => <[i := VInt slot_address]> stack
            | VPadding =>
                <[i := VStr (generatePadding (Z.of_nat i * context_bytes) context_bytes)]> stack
            | VGadget g => <[i := VInt (address g)]> stack
            | _ => stack
            end in
          pass2 fuel' start (S i) stack
      end
  end.

Definition build (fuel : nat) (base : option Z) : M ROP DescriptiveStack :=
  let* self := get in
  let base := match base with
              | None => default 0 (rop.base self)
              | Some b => b
              end in
  let* stack := pass1 fuel base (_chain self) [] in
  let* stack := lift (pass2 fuel base 0 stack) in
  ret (mkStack base stack).

End Build.

End rop.

(** ** srop.py, continued: the property getters, get_spindex, fix_offsets
    and get_frame *)

Module srop_frame.
Import srop.

(** [s.upper()] on ASCII. *)
Definition upper_ascii (c : ascii) : ascii :=
  let n := nat_of_ascii c in
  if (97 <=? n)%nat && (n <=? 122)%nat then ascii_of_nat (n - 32) else c.

Fixpoint upper (s : string) : string :=
  match s with
  | EmptyString => EmptyString
  | String c s' => String (upper_ascii c) (upper s')
  end.

(** The argument [namedoffsets]: [None], a string or a list of strings. *)
Inductive NamedOffsets : Type :=
| NONone
| NOStr (s : string)
| NOList (l : list string).

(** [namedoffsets] as a condition. *)
Definition named (n : NamedOffsets) : bool :=
  match n with
  | NONone => false
  | NOStr s => negb (String.eqb s "")
  | NOList l => negb (Nat.eqb (length l) 0)
  end.

(** [for key in namedoffsets]: a string gives its characters. *)
Definition iterate (n : NamedOffsets) : list string :=
  match n with
  | NONone => []
  | NOStr s => map (fun c => String c EmptyString) (list_ascii_of_string s)
  | NOList l => l
  end.

(** [offset_info[key]]: the entry ['base'] is an integer, the entry of a
    coprocessor a pair. *)
Definition offset_info_get (offset_info : offsets_t) (key : string) : option (Z + Z * Z) :=
  if String.eqb key "base" then Some (inl (off_base offset_info))
  else inr <$> dict_get key (off_coproc offset_info).

(** The keys [x[1]] of the sort: an integer has none. *)
Fixpoint sort_keys (l : list (Z + Z * Z)) : Result (list (Z * Z)) :=
  match l with
  | [] => Ok []
  | inl _ :: _ => Raise TypeError
  | inr p :: l' => match sort_keys l' with
                   | Ok ps => Ok (p :: ps)
                   | Raise e => Raise e
                   end
  end.

(** ["A" * n]: nothing for a negative [n]. *)
Definition filler (n : Z) : bytes := repeat "A"%char (Z.to_nat n).

(** The property getters [sp] and [pc]. *)
Definition get_sp : M SigreturnFrame Value :=
  let* f := get in
  let* r := subscript (stack_pointers (arch f)) in
  __getitem__ r.

Definition get_pc : M SigreturnFrame Value :=
  let* f := get in
  let* r := subscript (instruction_pointers (arch f)) in
  __getitem__ r.


Section Offsets.

(** [flat] of [pwnlib.util.packing] (not under src/) on one value, and the
    word size [context.bytes] of the global context: [fix_offsets] packs
    outside [context.local(arch=self.arch)]. *)
Variable flat1 : nat -> Value -> Result bytes.
Variable context_bytes : nat.

(** The loop of [_fixup]. *)
Fixpoint _fixup_loop (frcontents : bytes) (offsetvals : list (Z * Z)) : Result bytes :=
  match offsetvals with
  | [] => Ok frcontents
  | (magicva, size) :: offsetvals' =>
      match flat flat1 context_bytes [VInt magicva; VInt size] with
      | Raise e => Raise e
      | Ok b =>
          let frcontents := frcontents ++ b in
          let frcontents :=
            if Z.of_nat (length frcontents) <? size
            then frcontents ++ filler (size - Z.of_nat (length frcontents))
            else frcontents in
          _fixup_loop frcontents offsetvals'
      end
  end.

Definition _fixup (frcontents : bytes) (offsetvals : list (Z * Z)) (base : Z) : Result bytes :=
  _fixup_loop (frcontents ++ filler (base - Z.of_nat (length frcontents))) offsetvals.

(** The loop over [namedoffsets]. *)
Fixpoint collect {S} (offset_info : offsets_t) (names : list string)
  : M S (list (Z + Z * Z)) :=
  match names with
  | [] => ret []
  | key :: names' =>
      let key := upper key in
      match offset_info_get offset_info key with
      | None => log_error ("Named offset '" ++ key ++ "' not supported")
      | Some v => let* vs := collect offset_info names' in ret (v :: vs)
      end
  end.

Definition fix_offsets (frcontents : bytes) (namedoffsets : NamedOffsets)
  : M SigreturnFrame bytes :=
  let* f := get in
  let* r := subscript (registers (arch f)) in
  match offsets r with
  | None => ret frcontents
  | Some offset_info =>
      if negb (named namedoffsets) then ret frcontents
      else
        let base := off_base offset_info in
        let* offsetvals := collect offset_info (iterate namedoffsets) in
        let* offsetvals := lift (sort_keys offsetvals) in
        lift (_fixup frcontents (rop.sorted_by snd offsetvals) base)
  end.

Definition get_frame (namedoffsets : NamedOffsets) : M SigreturnFrame bytes :=
  let* frcontents := __str__ flat1 in
  fix_offsets frcontents namedoffsets.

End Offsets.

End srop_frame.

(** ** Concrete collaborators and inputs for the examples *)

Module inputs.

(** Modelled from the spec: a [flat] that packs an integer that fits the
    word into that many bytes, least significant first, and leaves a byte
    string as it is (the spec's "word-packed"; [pwnlib.util.packing] is not
    under src/). *)
Fixpoint pack_le (w : nat) (z : Z) : bytes :=
  match w with
  | O => []
  | S w' => ascii_of_N (Z.to_N (z mod 256)) :: pack_le w' (z / 256)
  end.

Definition flat1_le (w : nat) (v : Value) : Result bytes :=
  match v with
  | VInt z => if (0 <=? z) && (z <? 2 ^ (8 * Z.of_nat w)) then Ok (pack_le w z)
              else Raise ValueError
  | VStr s => Ok s
  | _ => Raise ValueError
  end.

(** An i386 frame as the constructor leaves it. *)
Definition frame_i386 : srop.SigreturnFrame :=
  match srop.__init__ "i386" with
  | Ok f => f
  | Raise _ => srop.mkFrame "i386" ∅
  end.

Definition frame_amd64 : srop.SigreturnFrame :=
  match srop.__init__ "amd64" with
  | Ok f => f
  | Raise _ => srop.mkFrame "amd64" ∅
  end.

Definition frame_arm : srop.SigreturnFrame :=
  match srop.__init__ "arm" with
  | Ok f => f
  | Raise _ => srop.mkFrame "arm" ∅
  end.

(** The frame layout of an architecture that has one. *)
Definition layout (a : string) : srop.sropregs :=
  default {| srop.context := []; srop.offsets := None |} (srop.registers a).


(** Gadgets of a 32-bit and of a 64-bit binary. The move of a [leave]
    gadget is the very large value that marks it. *)
Definition pop_ebp : Gadget :=
  mkGadget 0x8048001 ["pop ebp"; "ret"] [(DReg "ebp", SMem "esp")] 8.

Definition pop_eax : Gadget :=
  mkGadget 0x804805b ["pop eax"; "ret"] [(DReg "eax", SMem "esp")] 8.

Definition leave_ret : Gadget :=
  mkGadget 0x8048100 ["leave"; "ret"]
           [(DReg "ebp", SMem "ebp"); (DReg "esp", SStr "ebp")] (9999999999 + 4).

Definition pop_rbp : Gadget :=
  mkGadget 0x400501 ["pop rbp"; "ret"] [(DReg "rbp", SMem "rsp")] 16.

Definition leave_ret64 : Gadget :=
  mkGadget 0x400600 ["leave"; "ret"]
           [(DReg "rbp", SMem "rbp"); (DReg "rsp", SStr "rbp")] (9999999999 + 8).

(** A [ROP] object over the given gadgets with an empty chain. *)
Definition rop_of (arch : string) (align : Z) (gs : list Gadget) : rop.ROP :=
  rop.mkROP [] [] None align false arch (map (fun g => (address g, g)) gs) [] [] None 0.

(** A 32-bit binary whose only gadget is [pop ebp; ret]. *)
Definition rop_pop_ebp : rop.ROP := rop_of "i386" 4 [pop_ebp].

(** A 32-bit binary whose only gadget is [leave; ret]. *)
Definition rop_leave : rop.ROP := rop_of "i386" 4 [leave_ret].

(** A 64-bit binary with [pop rbp; ret] and [leave; ret]. *)
Definition rop_amd64 : rop.ROP := rop_of "amd64" 8 [pop_rbp; leave_ret64].

(** The graph of the docstring of [__build_top_sort]. *)
Definition docstring_graph : list (string * list string) :=
  [("eax", ["ebx"]); ("ebx", ["eax"]); ("edx", ["eax"])].

(** ABIs and syscall numbers of i386 Linux, for the examples: the stack
    ABI of a function call, the syscall ABI and the ABI of [sigreturn]. *)
Definition abi_i386 : ABI := mkABI [] true "".

Definition abi_syscall (arch : string) : ABI :=
  mkABI ["eax"; "ebx"; "ecx"; "edx"; "esi"; "edi"; "ebp"] false "eax".

Definition abi_sigreturn : ABI := mkABI ["eax"] false "eax".

Definition constants_i386 (name : string) : option Z :=
  if String.eqb name "SYS_sigreturn" then Some 0x77
  else if String.eqb name "SYS_execve" then Some 0xb
  else None.

(** A classifier that keeps every gadget, a solver for a path of one gadget
    that loads one register from the stack (the value goes to the first
    word, least significant byte first), and a source of random numbers. *)
Definition classify_all (g : Gadget) : option Gadget := Some g.

Definition verify_one_pop (path : list Gadget) (cond : list (string * Value))
  : option (Z * list (Z * Z)) :=
  match path, cond with
  | [g], [(r, VInt v)] =>
      if bool_decide (DReg r ∈ rop.reg_keys g)
      then Some (move g, [(0, v mod 256); (1, v / 256 mod 256);
                          (2, v / 65536 mod 256); (3, v / 16777216 mod 256)])
      else None
  | _, _ => None
  end.

Definition randint_seq (n : nat) : Z := 2 ^ 16 + Z.of_nat n.

(** A filler and an [AppendedArgument.resolve] for the examples. *)
Definition cyclic_a (n : Z) : bytes := repeat "a"%char (Z.to_nat n).

Definition resolve_flat (vs : list Value) (addr : Z) : list Value := vs.

(** An ABI with one register slot, and calls to [0xdead0000] with one
    register argument and two stack arguments under it, one that resumes and
    one that does not. *)
Definition abi_one_reg (returns : bool) : ABI := mkABI ["eax"] returns "eax".

Definition call_dead (returns : bool) : rop.Call :=
  rop.mkCall "" (VInt 0xdead0000) [VInt 1; VInt 11; VInt 22] (abi_one_reg returns).

(** A 32-bit binary whose only gadget is [pop eax; ret]. *)
Definition rop_pop_eax : rop.ROP := rop_of "i386" 4 [pop_eax].

(** The object after the register solver has run on [rop_pop_eax] for one
    register. *)
Definition rop_pop_eax_solved : rop.ROP :=
  rop.mkROP [] [] None 4 false "i386" [(address pop_eax, pop_eax)]
            [(pop_eax, [])] [] (Some [pop_eax]) 1.

(** A chain with a raw word, a blob, a gadget, padding and a call. *)
Definition rop_with_call : rop.ROP :=
  rop.set_chain [rop.EValue (VInt 1);
                 rop.EValue (VStr (list_ascii_of_string "abcd"));
                 rop.EValue (VGadget pop_eax);
                 rop.EValue VPadding;
                 rop.ECall (call_dead true)] rop_pop_eax.

Definition pop_esp : Gadget :=
  mkGadget 0x8048200 ["pop esp"; "ret"] [(DReg "esp", SMem "esp")] 8.

(** A 32-bit binary with [pop esp; ret] and [pop ebp; ret]. *)
Definition rop_pop_esp : rop.ROP := rop_of "i386" 4 [pop_esp; pop_ebp].

(** [rop_pop_eax] with an ELF file that has the symbol [system]. *)
Definition rop_with_symbol : rop.ROP :=
  rop.mkROP [] [rop.mkELF {["system" := 0x8048420]}] None 4 false "i386"
            [(address pop_eax, pop_eax)] [] [] None 0.

(** A gadget graph with a cycle: [pop eax] and [pop ebp] lead to each other
    and both to [leave]. *)
Definition cyclic_graph : list (Gadget * list Gadget) :=
  [(pop_eax, [pop_ebp; leave_ret]); (pop_ebp, [pop_eax; leave_ret])].

(** The graph of the docstring of [__build_top_sort] without the edge from
    [ebx] back to [eax], and a numbering of its nodes that its edges
    increase. *)
Definition acyclic_graph : list (string * list string) :=
  [("eax", ["ebx"]); ("edx", ["eax"])].

Definition acyclic_rank (n : string) : nat :=
  if String.eqb n "edx" then 0%nat else if String.eqb n "eax" then 1%nat else 2%nat.

Definition int80 : Gadget := mkGadget 0x8048300 ["int 0x80"] [] 4.

(** A 32-bit binary with [pop eax; ret] and [int 0x80]. *)
Definition rop_int80 : rop.ROP := rop_of "i386" 4 [pop_eax; int80].

Definition mov_ebx_eax : Gadget :=
  mkGadget 0x8048400 ["mov ebx, eax"; "ret"] [(DReg "ebx", SStr "eax")] 4.

(** A 32-bit binary with [pop eax; ret] and [mov ebx, eax; ret]: the second
    reads what the first writes. *)
Definition rop_mov : rop.ROP := rop_of "i386" 4 [pop_eax; mov_ebx_eax].

Definition rank_mov (g : Gadget) : nat := if bool_decide (g = pop_eax) then 0%nat else 1%nat.


End inputs.

(** * Properties *)

(** ** Reasoning about the monad *)

Lemma bind_ok {S A B} (c : M S A) (k : A -> M S B) s a s' :
  c s = (Ok a, s') -> bind c k s = k a s'.
Proof. intros Hc. unfold bind. now rewrite Hc. Qed.

Lemma bind_raise {S A B} (c : M S A) (k : A -> M S B) s e s' :
  c s = (Raise e, s') -> bind c k s = (Raise e, s').
Proof. intros Hc. unfold bind. now rewrite Hc. Qed.

(** ** Sigreturn frames *)

Section FrameFacts.
Import srop.

Lemma registers_cases a rs :
  registers a = Some rs ->
  a = "i386" \/ a = "amd64" \/ a = "arm".
Proof.
  unfold registers. intros Hr.
  destruct (String.eqb_spec a "i386"); [now left|].
  destruct (String.eqb_spec a "amd64"); [now right; left|].
  destruct (String.eqb_spec a "arm"); [now right; right|].
  discriminate.
Qed.

Lemma registers_NoDup a rs : registers a = Some rs -> NoDup (context rs).
Proof.
  intros Hr. destruct (registers_cases _ _ Hr) as [-> | [-> | ->]];
    vm_compute in Hr; injection Hr as <-; cbn [context];
    apply (bool_decide_unpack _); vm_compute; reflexivity.
Qed.

Lemma frame_registers_eq f rs :
  registers (arch f) = Some rs -> frame_registers f = (Ok (context rs), f).
Proof. intros Hr. unfold frame_registers, bind, get, subscript, ret. now rewrite Hr. Qed.

(** [value & 0x7] is zero exactly for a multiple of 8. *)
Lemma land7_aligned z : Z.land z 0x7 = 0 <-> z mod 8 = 0.
Proof. change 0x7 with (Z.ones 3). rewrite Z.land_ones by lia. reflexivity. Qed.

(** What [__setitem__] does with an integer, case by case. *)
Lemma setitem_int_cases f rs item z :
  registers (arch f) = Some rs ->
  __setitem__ item (VInt z) f =
    if bool_decide (item ∈ context rs) then
      if String.eqb (arch f) "arm" && String.eqb item "sp" && negb (Z.land z 0x7 =? 0)
      then (Raise (LogError "ARM SP should be 8-bit aligned"), f)
      else (Ok tt, set_items (<[item := VInt z]> (items f)) f)
    else (Raise (LogError "Unknown register"), f).
Proof.
  intros Hr. unfold __setitem__.
  rewrite (bind_ok _ _ _ _ _ (frame_registers_eq _ _ Hr)).
  destruct (bool_decide (item ∈ context rs)); [|reflexivity].
  cbn. destruct (String.eqb (arch f) "arm" && String.eqb item "sp"); cbn; [|reflexivity].
  destruct (Z.land z 7 =? 0); reflexivity.
Qed.

(** Whatever the value and whatever is raised, a write that raises leaves
    the frame as it was. *)
Lemma setitem_raise_unchanged f item value e f' :
  __setitem__ item value f = (Raise e, f') -> f' = f.
Proof.
  unfold __setitem__, frame_registers, bind, get, subscript, ret, log_error, raise, modify, and7.
  destruct (registers (arch f)) as [rs|]; [|now intros [= _ <-]].
  destruct (bool_decide (item ∈ context rs)); [|now intros [= _ <-]].
  destruct (String.eqb (arch f) "arm" && String.eqb item "sp"); [|discriminate].
  destruct value as [z| | | | | | | | |]; try (now intros [= _ <-]).
  destruct (negb (Z.land z 7 =? 0)); [now intros [= _ <-] | discriminate].
Qed.

(** C5: writing an integer to a register of a frame raises a hard error
    exactly when the name is not in the architecture's register list, or the
    architecture is ARM, the register is [sp] and the value is not a
    multiple of 8. When it raises, the frame is as it was; otherwise the
    write succeeds and the dictionary holds the value under the name. *)
Theorem setitem_raises_iff f rs item z :
  registers (arch f) = Some rs ->
  (is_error (__setitem__ item (VInt z) f).1 <->
     item ∉ context rs \/ (arch f = "arm" /\ item = "sp" /\ z mod 8 <> 0))
  /\ (is_error (__setitem__ item (VInt z) f).1 -> (__setitem__ item (VInt z) f).2 = f)
  /\ (~ is_error (__setitem__ item (VInt z) f).1 ->
      __setitem__ item (VInt z) f = (Ok tt, set_items (<[item := VInt z]> (items f)) f)).
Proof.
  intros Hr. rewrite (setitem_int_cases _ _ _ _ Hr).
  assert (Hok : forall f' (P : Prop), ~ P ->
            (is_error (Ok tt, f').1 <-> P)
            /\ (is_error (Ok tt, f').1 -> (Ok tt, f').2 = f)
            /\ (~ is_error (Ok tt, f').1 -> (@Ok unit tt, f') = (Ok tt, f'))).
  { intros f' P HP. split; [split|split]; try (intros [msg [=]]); done. }
  assert (Herr : forall msg f' (P : Prop), P ->
            (is_error (@Raise unit (LogError msg), f).1 <-> P)
            /\ (is_error (@Raise unit (LogError msg), f).1 ->
                (@Raise unit (LogError msg), f).2 = f)
            /\ (~ is_error (@Raise unit (LogError msg), f).1 ->
                (@Raise unit (LogError msg), f) = (Ok tt, f'))).
  { intros msg f' P HP. split; [split|split]; try done.
    - intros _. eexists; reflexivity.
    - intros Hn. exfalso. apply Hn. eexists; reflexivity. }
  destruct (bool_decide_reflect (item ∈ context rs)) as [Hin | Hin].
  - destruct (String.eqb_spec (arch f) "arm") as [Ha | Ha];
      destruct (String.eqb_spec item "sp") as [Hi | Hi]; cbn [andb];
      try (apply Hok; intros [? | (? & ? & ?)]; done).
    destruct (Z.eqb_spec (Z.land z 7) 0) as [Hz | Hz]; cbn [negb].
    + apply land7_aligned in Hz. apply Hok. intros [? | (? & ? & ?)]; done.
    + apply Herr. right. repeat split; try done.
      intros Hm. apply Hz, land7_aligned, Hm.
  - apply Herr. now left.
Qed.

Lemma setitem_raises_iff_witness :
  is_error (__setitem__ "sp" (VInt 12) inputs.frame_arm).1
  /\ (__setitem__ "sp" (VInt 12) inputs.frame_arm).2 = inputs.frame_arm.
Proof.
  destruct (setitem_raises_iff inputs.frame_arm (inputs.layout "arm") "sp" 12 eq_refl)
    as (Hiff & Hsame & _).
  assert (He : is_error (__setitem__ "sp" (VInt 12) inputs.frame_arm).1).
  { apply Hiff. right. repeat split. discriminate. }
  exact (conj He (Hsame He)).
Defined.

End FrameFacts.

(** *** The serialization of a frame *)

(** Looking up the registers one after the other. *)
Lemma mapM_getitem f rs vs :
  Forall2 (fun r v => srop.items f !! r = Some v) rs vs ->
  srop.mapM srop.__getitem__ rs f = (Ok vs, f).
Proof.
  induction 1 as [|r v rs vs Hr _ IH]; [reflexivity|].
  cbn [srop.mapM]. unfold bind at 1. unfold srop.__getitem__ at 1.
  unfold bind at 1, get, srop.subscript. rewrite Hr. cbn.
  unfold bind at 1. rewrite IH. reflexivity.
Qed.

(** After a write under [item], the lookups give the old values but at the
    place of [item]. *)
Lemma lookups_insert (m : gmap string Value) rs vs i item x :
  NoDup rs -> rs !! i = Some item ->
  Forall2 (fun r v => m !! r = Some v) rs vs ->
  Forall2 (fun r v => <[item := x]> m !! r = Some v) rs (<[i := x]> vs).
Proof.
  intros Hnd Hi Hall. revert i Hi Hnd.
  induction Hall as [|r v rs vs Hr Hall IH]; intros i Hi Hnd; [constructor|].
  apply NoDup_cons in Hnd as [Hnotin Hnd].
  destruct i as [|i]; cbn in Hi |- *.
  - injection Hi as ->. constructor; [apply lookup_insert_eq|].
    clear IH Hr. induction Hall as [|r' v' rs vs Hr' Hall IH]; [constructor|].
    apply not_elem_of_cons in Hnotin as [Hne Hnotin].
    apply NoDup_cons in Hnd as [_ Hnd].
    constructor; [rewrite lookup_insert_ne; done | auto].
  - constructor; [|auto].
    rewrite lookup_insert_ne; [done|].
    intros ->. apply Hnotin. eapply list_elem_of_lookup_2, Hi.
Qed.

(** A concatenation of pieces of one size. *)
Lemma concat_length_words (A : Type) (w : nat) (bs : list (list A)) :
  Forall (fun b => length b = w) bs -> length (concat bs) = (w * length bs)%nat.
Proof.
  induction 1 as [|b bs Hb _ IH]; cbn; [lia|]. rewrite length_app, IH, Hb. lia.
Qed.

Lemma concat_insert_lookup {A} (w : nat) (bs : list (list A)) b' i j :
  Forall (fun b => length b = w) bs -> length b' = w ->
  (j < w * i \/ w * (i + 1) <= j)%nat ->
  concat (<[i := b']> bs) !! j = concat bs !! j.
Proof.
  intros Hall Hb'. revert i j.
  induction Hall as [|b bs Hb Hall IH]; intros i j Hj; [reflexivity|].
  destruct i as [|i]; cbn.
  - destruct Hj as [Hj | Hj]; [lia|].
    rewrite !lookup_app_r by lia. now rewrite Hb, Hb'.
  - destruct (Nat.lt_ge_cases j w) as [Hlt | Hge].
    + now rewrite !lookup_app_l by lia.
    + rewrite !lookup_app_r by lia. apply IH. rewrite Hb. lia.
Qed.

Section Serialization.
Import srop.

Variable flat1 : nat -> Value -> Result bytes.

(** What is asked of the packer: an integer that fits the word packs into
    exactly that many bytes. *)
Hypothesis flat1_word : forall w z,
  0 <= z < 2 ^ (8 * Z.of_nat w) ->
  exists b, flat1 w (VInt z) = Ok b /\ length b = w.

Definition word_value (w : nat) (v : Value) : Prop :=
  exists z, v = VInt z /\ 0 <= z < 2 ^ (8 * Z.of_nat w).

(** Every register of the layout holds an integer that fits the word. *)
Definition word_frame (f : SigreturnFrame) (rs : list string) : Prop :=
  forall r, r ∈ rs ->
    exists v, items f !! r = Some v /\ word_value (arch_bytes (arch f)) v.

Lemma flat_pieces w vs bs :
  Forall2 (fun v b => flat1 w v = Ok b) vs bs -> flat flat1 w vs = Ok (concat bs).
Proof.
  induction 1 as [|v b vs bs Hv _ IH]; [reflexivity|].
  cbn. now rewrite Hv, IH.
Qed.

Lemma word_frame_values f rs :
  word_frame f rs ->
  exists vs bs,
    Forall2 (fun r v => items f !! r = Some v) rs vs
    /\ Forall2 (fun v b => flat1 (arch_bytes (arch f)) v = Ok b) vs bs
    /\ Forall (fun b => length b = arch_bytes (arch f)) bs.
Proof.
  induction rs as [|r rs IH]; intros Hw.
  - exists [], []. repeat constructor.
  - destruct IH as (vs & bs & H1 & H2 & H3).
    { intros r' Hr'. apply Hw. now right. }
    destruct (Hw r) as (v & Hv & z & -> & Hz); [now left|].
    destruct (flat1_word _ _ Hz) as (b & Hb & Hlen).
    exists (VInt z :: vs), (b :: bs). repeat constructor; assumption.
Qed.

Lemma str_eq f rs vs bs :
  registers (arch f) = Some rs ->
  Forall2 (fun r v => items f !! r = Some v) (context rs) vs ->
  Forall2 (fun v b => flat1 (arch_bytes (arch f)) v = Ok b) vs bs ->
  __str__ flat1 f = (Ok (concat bs), f).
Proof.
  intros Hr H1 H2. unfold __str__.
  unfold bind at 1, get.
  rewrite (bind_ok _ _ _ _ _ (frame_registers_eq _ _ Hr)).
  rewrite (bind_ok _ _ _ _ _ (mapM_getitem _ _ _ H1)).
  unfold lift. now rewrite (flat_pieces _ _ _ H2).
Qed.

(** C4: the serialization of a frame whose registers hold integers that
    fit the word is as long as the word size times the number of registers
    of the layout (80 bytes on i386, 248 on amd64); after a write of such an
    integer to the register at place [i] of the layout, the serialization has
    the same length and the same bytes outside the word at place [i]. *)
Theorem str_length_and_frame_effect f rs :
  registers (arch f) = Some rs ->
  word_frame f (context rs) ->
  exists s,
    (__str__ flat1 f).1 = Ok s
    /\ length s = (arch_bytes (arch f) * length (context rs))%nat
    /\ (arch f = "i386" -> length s = 80%nat)
    /\ (arch f = "amd64" -> length s = 248%nat)
    /\ forall i item z f',
         context rs !! i = Some item ->
         0 <= z < 2 ^ (8 * Z.of_nat (arch_bytes (arch f))) ->
         __setitem__ item (VInt z) f = (Ok tt, f') ->
         exists s',
           (__str__ flat1 f').1 = Ok s'
           /\ length s' = length s
           /\ forall j,
                (j < arch_bytes (arch f) * i \/ arch_bytes (arch f) * (i + 1) <= j)%nat ->
                s' !! j = s !! j.
Proof.
  intros Hr Hw.
  destruct (word_frame_values _ _ Hw) as (vs & bs & H1 & H2 & H3).
  assert (Hlen : length bs = length (context rs)).
  { rewrite <- (Forall2_length _ _ _ H2). symmetry. apply (Forall2_length _ _ _ H1). }
  exists (concat bs). rewrite (str_eq _ _ _ _ Hr H1 H2).
  assert (Hsize : length (concat bs) = (arch_bytes (arch f) * length (context rs))%nat).
  { rewrite (concat_length_words _ _ _ H3). now rewrite Hlen. }
  split; [reflexivity|]. split; [exact Hsize|].
  split; [|split].
  - intros Ha. rewrite Hsize. rewrite Ha in Hr |- *.
    vm_compute in Hr. injection Hr as <-. reflexivity.
  - intros Ha. rewrite Hsize. rewrite Ha in Hr |- *.
    vm_compute in Hr. injection Hr as <-. reflexivity.
  - intros i item z f' Hi Hz Hset.
    rewrite (setitem_int_cases _ _ _ _ Hr) in Hset.
    destruct (bool_decide (item ∈ context rs)); [|discriminate].
    destruct (String.eqb (arch f) "arm" && String.eqb item "sp" && negb (Z.land z 7 =? 0));
      [discriminate|].
    injection Hset as <-.
    destruct (flat1_word _ _ Hz) as (b' & Hb' & Hlb').
    assert (H1' : Forall2 (fun r v => items (set_items (<[item := VInt z]> (items f)) f) !! r
                                      = Some v) (context rs) (<[i := VInt z]> vs)).
    { apply lookups_insert; [eapply registers_NoDup, Hr | exact Hi | exact H1]. }
    assert (H2' : Forall2 (fun v b => flat1 (arch_bytes (arch f)) v = Ok b)
                          (<[i := VInt z]> vs) (<[i := b']> bs)).
    { apply Forall2_insert; assumption. }
    exists (concat (<[i := b']> bs)).
    rewrite (str_eq (set_items _ f) rs _ _ Hr H1' H2').
    split; [reflexivity|]. split.
    + rewrite (concat_length_words _ (arch_bytes (arch f)) (<[i := b']> bs)),
              (concat_length_words _ _ _ H3), length_insert; [reflexivity|].
      apply Forall_insert; assumption.
    + intros j Hj. apply (concat_insert_lookup (arch_bytes (arch f))); assumption.
Qed.

End Serialization.

(** The packer of the examples does what is asked of a packer. *)
Lemma pack_le_length w z : length (inputs.pack_le w z) = w.
Proof. revert z. induction w as [|w IH]; intros z; cbn; [reflexivity | now rewrite IH]. Qed.

Lemma flat1_le_word w z :
  0 <= z < 2 ^ (8 * Z.of_nat w) ->
  exists b, inputs.flat1_le w (VInt z) = Ok b /\ length b = w.
Proof.
  intros [Hlo Hhi]. exists (inputs.pack_le w z). split; [|apply pack_le_length].
  unfold inputs.flat1_le.
  destruct (Z.leb_spec 0 z); [|lia]. destruct (Z.ltb_spec z (2 ^ (8 * Z.of_nat w))); [|lia].
  reflexivity.
Qed.


(** A frame as the constructor leaves it holds integers that fit the
    word. *)
Definition word_frameb (f : srop.SigreturnFrame) (rs : list string) : bool :=
  forallb (fun r => match srop.items f !! r with
                    | Some (VInt z) =>
                        (0 <=? z) && (z <? 2 ^ (8 * Z.of_nat (srop.arch_bytes (srop.arch f))))
                    | _ => false
                    end) rs.

Lemma word_frameb_sound f rs : word_frameb f rs = true -> word_frame f rs.
Proof.
  unfold word_frameb. rewrite forallb_forall. intros Hall r Hin.
  specialize (Hall r (proj1 (list_elem_of_In _ _) Hin)).
  destruct (srop.items f !! r) as [[z| | | | | | | | |]|]; try discriminate.
  apply andb_true_iff in Hall as [Hlo Hhi].
  exists (VInt z). split; [reflexivity|]. exists z. split; [reflexivity|]. lia.
Qed.

Lemma init_word_frame a f rs :
  srop.__init__ a = Ok f -> srop.registers a = Some rs ->
  word_frame f (srop.context rs).
Proof.
  intros Hinit Hr. apply word_frameb_sound.
  destruct (registers_cases _ _ Hr) as [-> | [-> | ->]].
  - assert (f = inputs.frame_i386) as -> by (unfold inputs.frame_i386; now rewrite Hinit).
    assert (rs = inputs.layout "i386") as -> by (unfold inputs.layout; now rewrite Hr).
    vm_compute. reflexivity.
  - assert (f = inputs.frame_amd64) as -> by (unfold inputs.frame_amd64; now rewrite Hinit).
    assert (rs = inputs.layout "amd64") as -> by (unfold inputs.layout; now rewrite Hr).
    vm_compute. reflexivity.
  - assert (f = inputs.frame_arm) as -> by (unfold inputs.frame_arm; now rewrite Hinit).
    assert (rs = inputs.layout "arm") as -> by (unfold inputs.layout; now rewrite Hr).
    vm_compute. reflexivity.
Qed.

(** A write of an integer that fits the word keeps the frame a frame of
    such integers. *)
Lemma setitem_word_frame f rs item z f' :
  srop.registers (srop.arch f) = Some rs ->
  word_frame f (srop.context rs) ->
  0 <= z < 2 ^ (8 * Z.of_nat (srop.arch_bytes (srop.arch f))) ->
  srop.__setitem__ item (VInt z) f = (Ok tt, f') ->
  word_frame f' (srop.context rs).
Proof.
  intros Hr Hw Hz Hset. rewrite (setitem_int_cases _ _ _ _ Hr) in Hset.
  destruct (bool_decide (item ∈ srop.context rs)); [|discriminate].
  destruct (String.eqb (srop.arch f) "arm" && String.eqb item "sp" && negb (Z.land z 7 =? 0));
    [discriminate|].
  injection Hset as <-. intros r Hin. cbn [srop.set_items srop.arch srop.items].
  destruct (decide (item = r)) as [->|Hne].
  - rewrite lookup_insert_eq. eexists. split; [reflexivity|]. now exists z.
  - rewrite lookup_insert_ne by exact Hne. now apply Hw.
Qed.
Lemma str_length_and_frame_effect_witness :
  exists s, (srop.__str__ inputs.flat1_le inputs.frame_i386).1 = Ok s /\ length s = 80%nat.
Proof.
  destruct (str_length_and_frame_effect inputs.flat1_le flat1_le_word
              inputs.frame_i386 (inputs.layout "i386") eq_refl
              (init_word_frame "i386" _ _ eq_refl eq_refl))
    as (s & Hs & _ & H80 & _).
  exists s. split; [exact Hs | exact (H80 eq_refl)].
Defined.

(** The doctest of [SigreturnFrame]: the fresh i386 frame unpacks to zeros
    but for [cs] and [ss], and after four writes to the values of the
    docstring. *)
Example doctest_i386_fresh :
  (srop.__str__ inputs.flat1_le inputs.frame_i386).1
  = Ok (concat (map (inputs.pack_le 4)
                    [0; 0; 0; 0; 0; 0; 0; 0; 0; 0; 0; 0; 0; 0; 0; 115; 0; 0; 123; 0])).
Proof. vm_compute. reflexivity. Qed.

Example doctest_i386_mprotect :
  ((let* _ := srop.__setitem__ "eax" (VInt 125) in
    let* _ := srop.__setitem__ "ebx" (VInt 0x00601000) in
    let* _ := srop.__setitem__ "ecx" (VInt 0x1000) in
    let* _ := srop.__setitem__ "edx" (VInt 0x7) in
    srop.__str__ inputs.flat1_le) inputs.frame_i386).1
  = Ok (concat (map (inputs.pack_le 4)
                    [0; 0; 0; 0; 0; 0; 0; 0; 6295552; 7; 4096; 125; 0; 0; 0; 115; 0; 0; 123; 0])).
Proof. vm_compute. reflexivity. Qed.

(** ** Gadget search *)

Section SearchFacts.
Import rop.

(** [search] finds nothing where no gadget moves the stack pointer by at
    least [mv] bytes. *)
Lemma search_none_without_move self mv rs order :
  (forall g, g ∈ values (gadgets self) -> move g < mv) ->
  search mv rs order self = None.
Proof.
  intros Hsmall. unfold search, search_iter.
  replace (filter _ (values (gadgets self))) with (@nil Gadget); [reflexivity|].
  symmetry. induction (values (gadgets self)) as [|g gs IH]; [reflexivity|].
  cbn. rewrite decide_False.
  - apply IH. intros g' Hg'. apply Hsmall. now right.
  - specialize (Hsmall g (list_elem_of_here _ _)).
    destruct (Z.ltb_spec (move g) mv); [cbn; auto | lia].
Qed.

(** C8: on a gadget set that holds only [leave; ret], a search by move alone
    (no register asked for, so not the stack pointer) returns the [leave]
    gadget with its marker move. *)
Theorem search_returns_leave_marker :
  search 8 [] size inputs.rop_leave = Some inputs.leave_ret
  /\ move inputs.leave_ret = 9999999999 + 4.
Proof. split; reflexivity. Qed.

(** The same by register: [leave; ret] is what a search for [ebp] alone
    returns when the other candidate pops more registers. *)
Example search_ebp_prefers_leave :
  search 0 ["ebp"] by_regs
         (inputs.rop_of "i386" 4
            [mkGadget 0x8048200 ["pop ebp"; "pop esi"; "pop edi"; "ret"]
                      [(DReg "ebp", SMem "esp"); (DReg "esi", SMem "esp");
                       (DReg "edi", SMem "esp")] 16;
             inputs.leave_ret])
  = Some inputs.leave_ret.
Proof. reflexivity. Qed.

End SearchFacts.

(** ** Migration *)

Section MigrateFacts.
Import rop.

(** [leave = self.leave] is never a gadget: the name falls through to the
    call shorthand. *)
Lemma getattr_leave self : __getattr__ "leave" self = (Ok (VFunction "leave"), self).
Proof. reflexivity. Qed.

(** The register shorthands are searches ordered by the number of
    registers. *)
Lemma getattr_reg self (r : string) :
  r = "rsp" \/ r = "esp" \/ r = "rbp" \/ r = "ebp" ->
  __getattr__ r self = (Ok (of_gadget (search 0 [r] by_regs self)), self).
Proof. intros [-> | [-> | [-> | ->]]]; reflexivity. Qed.

(** A successful [migrate] seals the chain. *)
Lemma migrate_seals next_base self self' :
  migrate next_base self = (Ok tt, self') -> migrated self' = true.
Proof.
  unfold migrate. unfold bind at 1, get.
  destruct (or_else (__getattr__ "rsp") (__getattr__ "esp") self) as [[pop_sp|e] s1] eqn:E1;
    [|unfold bind at 1; rewrite E1; discriminate].
  unfold bind at 1. rewrite E1.
  destruct (or_else (__getattr__ "rbp") (__getattr__ "ebp") s1) as [[pop_bp|e] s2] eqn:E2;
    [|unfold bind at 1; rewrite E2; discriminate].
  unfold bind at 1. rewrite E2.
  unfold bind at 1. rewrite getattr_leave.
  unfold bind at 1.
  destruct (and_then (truthy pop_sp) (one_reg pop_sp) s2) as [[c1|e] s3]; [|discriminate].
  unfold bind at 1.
  match goal with |- context [?c s3] =>
    match c with (if c1 then _ else _) => destruct (c s3) as [[[]|e] s4] end end;
    [|discriminate].
  unfold modify. intros [= <-]. reflexivity.
Qed.

(** C6: on a 64-bit binary ([align] is 8) with [pop rbp; ret] and
    [leave; ret], [migrate] takes the base-pointer path and puts
    [next_base - 4] on the chain, which is not [next_base] less one word. *)
Theorem migrate_bp_subtracts_four :
  let '(r, self') := migrate (NBValue (VInt 0x7fff0000)) inputs.rop_amd64 in
  r = Ok tt
  /\ _chain self' = [EValue (VGadget inputs.pop_rbp);
                     EValue (VInt (0x7fff0000 - 4));
                     EValue (VFunction "leave")]
  /\ migrated self' = true
  /\ 0x7fff0000 - 4 <> 0x7fff0000 - align inputs.rop_amd64.
Proof. vm_compute. repeat split; discriminate. Qed.

Lemma py_min_elem {A} (k : A -> Z * Z * Z) (l : list A) x :
  py_min k l = Some x -> x ∈ l.
Proof.
  destruct l as [|y l]; [discriminate|]. cbn. intros [= <-].
  assert (H : forall best, fold_left (fun best z => if tuple_lt (k z) (k best) then z else best)
                                     l best ∈ best :: l).
  { induction l as [|z l IH]; intros best; cbn; [left|].
    specialize (IH (if tuple_lt (k z) (k best) then z else best)).
    destruct (tuple_lt (k z) (k best)).
    - right. exact IH.
    - apply elem_of_cons in IH as [-> | IH]; [left | right; right; exact IH]. }
  apply H.
Qed.

Lemma fold_set_add_elem {K} `{EqDecision K} (r : K) (rs acc : list K) :
  r ∈ acc \/ r ∈ rs -> r ∈ fold_left (fun s k => set_add k s) rs acc.
Proof.
  revert acc. induction rs as [|x rs IH]; intros acc [Hacc | Hrs]; cbn.
  - exact Hacc.
  - inversion Hrs.
  - apply IH. left. unfold set_add. case_bool_decide; [exact Hacc|].
    apply elem_of_app. now left.
  - apply IH. apply elem_of_cons in Hrs as [-> | Hrs]; [left | now right].
    unfold set_add. case_bool_decide; [assumption|].
    apply elem_of_app. right. left.
Qed.

Lemma to_set_elem {K} `{EqDecision K} (r : K) (rs : list K) : r ∈ rs -> r ∈ to_set rs.
Proof. intros Hr. apply fold_set_add_elem. now right. Qed.

(** What [search] returns is a gadget of the set that sets the registers
    asked for. *)
Lemma search_sound self mv rs order g :
  search mv rs order self = Some g ->
  g ∈ values (gadgets self) /\ forall r, r ∈ rs -> DReg r ∈ reg_keys g.
Proof.
  unfold search, search_iter. intros Hmin. apply py_min_elem in Hmin.
  apply list_elem_of_filter in Hmin as [Hp Hin]. split; [exact Hin|].
  apply Is_true_true, andb_true_iff in Hp as [_ Hsub].
  unfold subset in Hsub. rewrite forallb_forall in Hsub.
  intros r Hr. apply (bool_decide_eq_true_1 _), Hsub, list_elem_of_In, list_elem_of_fmap_2.
  now apply to_set_elem.
Qed.

(** X30: where no gadget with a single effect sets a stack or base pointer,
    [migrate] raises and leaves the object as it was. *)
Lemma migrate_raises_without_pops next_base self :
  (forall g r, g ∈ values (gadgets self) -> len_regs g = 1 ->
               r ∈ ["rsp"; "esp"; "rbp"; "ebp"] -> DReg r ∉ reg_keys g) ->
  migrate next_base self
  = (Raise (LogError "Cannot find the gadgets to migrate"), self).
Proof.
  intros Hno.
  assert (Hpop : forall r, r ∈ ["rsp"; "esp"; "rbp"; "ebp"] ->
            match search 0 [r] by_regs self with
            | Some g => (len_regs g =? 1) = false
            | None => True
            end).
  { intros r Hr. destruct (search 0 [r] by_regs self) as [g|] eqn:Es; [|exact I].
    apply search_sound in Es as [Hin Hkeys].
    destruct (Z.eqb_spec (len_regs g) 1) as [H1|]; [|reflexivity].
    exfalso. apply (Hno g r Hin H1 Hr), Hkeys. left. }
  assert (Hor : forall a b, a ∈ ["rsp"; "esp"; "rbp"; "ebp"] -> b ∈ ["rsp"; "esp"; "rbp"; "ebp"] ->
            (a = "rsp" \/ a = "esp" \/ a = "rbp" \/ a = "ebp") ->
            (b = "rsp" \/ b = "esp" \/ b = "rbp" \/ b = "ebp") ->
            exists v, or_else (__getattr__ a) (__getattr__ b) self = (Ok v, self)
                      /\ and_then (truthy v) (one_reg v) self = (Ok false, self)).
  { intros a b Ha Hb Ha' Hb'. unfold or_else.
    rewrite (bind_ok _ _ _ _ _ (getattr_reg self a Ha')).
    pose proof (Hpop a Ha) as Hpa. pose proof (Hpop b Hb) as Hpb.
    destruct (search 0 [a] by_regs self) as [g|]; cbn [of_gadget truthy].
    - eexists. split; [reflexivity|]. cbn. unfold ret. now rewrite Hpa.
    - rewrite (getattr_reg self b Hb').
      destruct (search 0 [b] by_regs self) as [g|]; cbn [of_gadget truthy].
      + eexists. split; [reflexivity|]. cbn. unfold ret. now rewrite Hpb.
      + eexists. split; reflexivity. }
  destruct (Hor "rsp" "esp") as (pop_sp & Esp & Csp);
    [set_solver | set_solver | tauto | tauto |].
  destruct (Hor "rbp" "ebp") as (pop_bp & Ebp & Cbp);
    [set_solver | set_solver | tauto | tauto |].
  unfold migrate. unfold bind at 1, get.
  rewrite (bind_ok _ _ _ _ _ Esp), (bind_ok _ _ _ _ _ Ebp).
  rewrite (bind_ok _ _ _ _ _ (getattr_leave self)).
  rewrite (bind_ok _ _ _ _ _ Csp).
  cbn [truthy andb]. rewrite andb_true_r.
  unfold bind at 1. unfold bind at 1. rewrite Cbp. reflexivity.
Qed.

(** C7: on a binary whose only gadget is [pop ebp; ret] (there is no
    [leave] gadget and no pop of the stack pointer), [migrate] does not
    raise: it puts the gadget, [next_base - 4] and the call shorthand for
    the name [leave] on the chain and seals the chain. *)
Theorem migrate_without_leave_gadget :
  let '(r, self') := migrate (NBValue (VInt 0x2000)) inputs.rop_pop_ebp in
  values (gadgets inputs.rop_pop_ebp) = [inputs.pop_ebp]
  /\ r = Ok tt
  /\ _chain self' = [EValue (VGadget inputs.pop_ebp);
                     EValue (VInt (0x2000 - 4));
                     EValue (VFunction "leave")]
  /\ migrated self' = true.
Proof. vm_compute. repeat split. Qed.

End MigrateFacts.

(** ** The topological sort *)

Section TopSortFacts.
Import rop.

(** C3: on the graph of its own docstring,
    [{'eax': ['ebx'], 'ebx': ['eax'], 'edx': ['eax']}], the sort returns
    Python's [None] and no sequence: [edx] is taken, then [eax] and [ebx]
    are left in a cycle with in-degree 1 each, and the search for an edge to
    delete only looks at an in-degree above 1. *)
Theorem top_sort_docstring_graph fuel deleted :
  __build_top_sort (S (S fuel)) inputs.docstring_graph deleted = (ReturnsNone, deleted).
Proof. reflexivity. Qed.

(** A cycle of two nodes alone gives [None] as well. *)
Example top_sort_two_cycle fuel deleted :
  __build_top_sort (S fuel) [("a", ["b"]); ("b", ["a"])] deleted = (ReturnsNone, deleted).
Proof. reflexivity. Qed.

(** Where an edge is deleted, the nodes of the rest can be lost: the
    recursive call returns [None], which is taken for the empty list. *)
Example top_sort_loses_nodes fuel :
  __build_top_sort (S (S fuel)) [("a", ["b"; "c"]); ("b", ["a"]); ("c", ["a"])] []
  = (Sorted [], [("b", ["a"])]).
Proof. reflexivity. Qed.

(** On a graph without a cycle the sort is the usual one. *)
Example top_sort_acyclic fuel :
  __build_top_sort (S (S (S (S fuel)))) [("a", ["b"; "c"]); ("b", ["c"]); ("c", [])] []
  = (Sorted ["a"; "b"; "c"], []).
Proof. reflexivity. Qed.

End TopSortFacts.

(** ** The first pass of build: byte blobs *)

Section BlobFacts.
Import rop.

Variable cyclic : Z -> bytes.
Variable classify : Gadget -> option Gadget.
Variable verify_path : list Gadget -> list (string * Value) -> option (Z * list (Z * Z)).
Variable randint : nat -> Z.

(** The bytes that the blobs of a stack hold. *)
Definition blob_bytes (stack : list Value) : nat :=
  sum_list (map (fun v => match v with VStr s => length s | _ => 0%nat end) stack).

(** C2: with a word of 4 bytes, the blob ['abcde'] at the start of the
    chain is padded by [5 % 4 = 1] byte at most, not up to the next word:
    the first pass puts ['abcd'] and a piece of at most 2 bytes on the stack,
    6 bytes at most, where the smallest multiple of 4 that is at least 5
    is 8. *)
Theorem blob_padded_by_remainder fuel self :
  exists pad,
    pass1 4 cyclic classify verify_path randint fuel 0
          [EValue (VStr (list_ascii_of_string "abcde"))] [] self
    = (Ok [VStr (list_ascii_of_string "abcd"); VStr ("e"%char :: pad)], self)
    /\ (length pad <= 1)%nat
    /\ (blob_bytes [VStr (list_ascii_of_string "abcd"); VStr ("e"%char :: pad)] <= 6)%nat.
Proof.
  exists (slice_from (-1) (cyclic 1)).
  assert (Hlen : (length (slice_from (-1) (cyclic 1)) <= 1)%nat).
  { unfold slice_from. cbn [Z.ltb Z.compare]. rewrite length_skipn. lia. }
  assert (Hpad : generatePadding cyclic (next 4 0 []) (Z.of_nat 5 mod 4)
                 = slice_from (-1) (cyclic 1)) by reflexivity.
  cbn [pass1]. unfold bind at 1. unfold lift, pass1_str. cbn [Z.eqb].
  change (length (list_ascii_of_string "abcde")) with 5%nat.
  rewrite Hpad. clear Hpad.
  generalize dependent (slice_from (-1) (cyclic 1)). intros pad Hlen.
  destruct pad as [|c [|c' pad]]; cbn in Hlen; [| |lia].
  - split; [reflexivity|]. cbn. lia.
  - split; [reflexivity|]. cbn. lia.
Qed.

(** A blob that is a whole number of words gets all of [cyclic(stack.next)]
    appended, as [s[-0:]] is all of [s]. *)
Example aligned_blob_gets_the_whole_filler fuel self :
  pass1 4 cyclic classify verify_path randint fuel 0
        [EValue (VInt 1); EValue (VStr (list_ascii_of_string "abcd"))] [] self
  = (Ok ([VInt 1] ++ map VStr (group 4 (list_ascii_of_string "abcd" ++ cyclic 4))), self).
Proof. reflexivity. Qed.

End BlobFacts.

(** ** Calls *)

Section CallFacts.
Import rop.

Variable context_arch : string.
Variable constants : string -> option Z.
Variable ABI_syscall : string -> ABI.
Variable ABI_sigreturn ABI_default : ABI.

Lemma subscript_state {S A} (o : option A) (s : S) : (srop.subscript o s).2 = s.
Proof. now destruct o. Qed.

Lemma on_frame_state {A} (c : M srop.SigreturnFrame A) f self : (on_frame c f self).2 = self.
Proof. unfold on_frame. now destruct (c f) as [[]]. Qed.

Lemma raw_open value self :
  migrated self = false -> raw value self = (Ok tt, set_chain (_chain self ++ [value]) self).
Proof. intros Hm. unfold raw, bind, get. rewrite Hm. reflexivity. Qed.

(** [_srop_call] on an open chain: either it puts a call whose target is a
    gadget and a frame on the chain, or it leaves the object as it was. *)
Lemma srop_call_effect resolvable arguments self r self' :
  migrated self = false ->
  _srop_call context_arch constants ABI_syscall ABI_sigreturn ABI_default
             resolvable arguments self = (r, self') ->
  (exists g f n,
      r = Ok true
      /\ self' = set_migrated true
                   (set_chain (_chain self
                               ++ [ECall (Call_init ABI_default "SYS_sigreturn" (VGadget g)
                                                    [VInt n] (Some ABI_sigreturn));
                                   ESigreturnFrame f]) self))
  \/ (self' = self /\ r <> Ok true).
Proof.
  intros Hm. unfold _srop_call.
  destruct (constants ("SYS_" ++ lower resolvable)) as [syscall_number|];
    [|intros [= <- <-]; right; split; [reflexivity | discriminate]].
  unfold bind at 1.
  pose proof (subscript_state (srop.syscall_instructions context_arch) self) as Hs.
  destruct (srop.subscript (srop.syscall_instructions context_arch) self) as [[instrs|e] s];
    cbn in Hs; subst s; [|intros [= <- <-]; right; split; [reflexivity | discriminate]].
  unfold bind at 1, get.
  unfold bind at 1.
  destruct (first_syscall_gadget instrs self) as [g|];
    [|intros [= <- <-]; right; split; [reflexivity | discriminate]].
  cbn [ret]. unfold bind at 1, lift.
  destruct (srop.__init__ (arch self)) as [frame|e];
    [|intros [= <- <-]; right; split; [reflexivity | discriminate]].
  unfold bind at 1.
  match goal with |- context [on_frame ?c frame self] =>
    pose proof (on_frame_state c frame self) as Hs;
    destruct (on_frame c frame self) as [[[[] frame1]|e] s] end;
    cbn in Hs; subst s; [|intros [= <- <-]; right; split; [reflexivity | discriminate]].
  unfold bind at 1.
  destruct (constants "SYS_sigreturn") as [SYS_sigreturn|];
    [|intros [= <- <-]; right; split; [reflexivity | discriminate]].
  cbn [ret]. unfold bind at 1.
  match goal with |- context [on_frame ?c frame1 self] =>
    pose proof (on_frame_state c frame1 self) as Hs;
    destruct (on_frame c frame1 self) as [[[[] frame2]|e] s] end;
    cbn in Hs; subst s; [|intros [= <- <-]; right; split; [reflexivity | discriminate]].
  unfold bind at 1. rewrite raw_open by exact Hm.
  unfold bind at 1. rewrite raw_open by exact Hm.
  cbn. intros [= <- <-]. left. exists g, frame2, SYS_sigreturn.
  split; [reflexivity|]. rewrite <- app_assoc. reflexivity.
Qed.

(** C10: on an open chain, a call whose target resolves to nothing or to
    address 0 (an unknown name, a symbol at 0, the integer 0) runs the
    syscall fallback under the name (the empty name for an integer): what
    it puts on the chain holds no call whose target is the address 0, and
    where the name is no syscall it raises "Could not resolve" and leaves
    the object as it was. *)
Theorem call_unresolved self resolvable arguments abi :
  migrated self = false ->
  resolve resolvable self = None \/ resolve resolvable self = Some 0 ->
  let name := match resolvable with RStr s => s | RInt _ => "" end in
  let out := call context_arch constants ABI_syscall ABI_sigreturn ABI_default
                  resolvable arguments abi self in
  out = (let* ok := _srop_call context_arch constants ABI_syscall ABI_sigreturn ABI_default
                               name arguments in
         if negb ok then log_error "Could not resolve" else ret tt) self
  /\ (exists new, _chain out.2 = _chain self ++ new
                  /\ forall c, ECall c ∈ new -> target c <> VInt 0)
  /\ (constants ("SYS_" ++ lower name) = None ->
      out = (Raise (LogError "Could not resolve"), self)).
Proof.
  intros Hm Hres name out.
  assert (Hout : out = (let* ok := _srop_call context_arch constants ABI_syscall
                                              ABI_sigreturn ABI_default name arguments in
                        if negb ok then log_error "Could not resolve" else ret tt) self).
  { subst out name. unfold call, bind, get. rewrite Hm. unfold ret.
    destruct resolvable as [s|z]; cbn [resolve] in Hres |- *.
    - destruct Hres as [-> | ->]; reflexivity.
    - destruct Hres as [[=] | [= ->]]. reflexivity. }
  split; [exact Hout|]. rewrite Hout. clear Hout out.
  unfold bind.
  destruct (_srop_call context_arch constants ABI_syscall ABI_sigreturn ABI_default
                       name arguments self) as [r self'] eqn:E.
  pose proof E as E'.
  apply (srop_call_effect _ _ _ _ _ Hm) in E as [(g & f & n & -> & ->) | [-> Hr]].
  - split.
    + eexists. split; [reflexivity|]. intros c Hc.
      apply elem_of_cons in Hc as [[= ->] | Hc]; [discriminate|].
      apply elem_of_cons in Hc as [[=] | Hc]. inversion Hc.
    + intros Hnone. unfold _srop_call in E'. rewrite Hnone in E'. discriminate.
  - split.
    + exists []. split; [|intros c Hc; inversion Hc].
      rewrite app_nil_r. destruct r as [[]|]; [congruence | reflexivity | reflexivity].
    + intros Hnone. unfold _srop_call in E'. rewrite Hnone in E'.
      injection E' as <-. reflexivity.
Qed.

End CallFacts.

Lemma call_unresolved_witness :
  rop.call "i386" inputs.constants_i386 inputs.abi_syscall inputs.abi_sigreturn
           inputs.abi_i386 (rop.RStr "nosuchfunc") [VInt 1] None inputs.rop_pop_ebp
  = (Raise (LogError "Could not resolve"), inputs.rop_pop_ebp).
Proof.
  exact (proj2 (proj2 (call_unresolved "i386" inputs.constants_i386 inputs.abi_syscall
                         inputs.abi_sigreturn inputs.abi_i386 inputs.rop_pop_ebp
                         (rop.RStr "nosuchfunc") [VInt 1] None eq_refl (or_introl eq_refl)))
               eq_refl).
Defined.

(** ** The first pass of build: calls *)

Section CallLayout.
Import rop.

Variable context_bytes : Z.
Variable cyclic : Z -> bytes.
Variable classify : Gadget -> option Gadget.
Variable verify_path : list Gadget -> list (string * Value) -> option (Z * list (Z * Z)).
Variable randint : nat -> Z.

(** What the loop over the register groups puts on the stack, when it does
    not raise: the gadgets and values of the groups, in order. *)
Lemma extend_with_groups_ok registers groups stack stack' :
  extend_with_groups registers groups stack = Ok stack' ->
  stack' = stack ++ concat (map snd groups).
Proof.
  revert stack. induction groups as [|[register gadgets] groups IH]; intros stack; cbn.
  - intros [= <-]. now rewrite app_nil_r.
  - destruct (foldM _ (split "_" register) []) as [values|e]; [|discriminate].
    destruct (forallb describable values); [|discriminate].
    intros H. apply IH in H. now rewrite H, app_assoc.
Qed.

(** The stack arguments of a call and what goes on the stack for them. *)
Definition stack_arguments (c : Call) : list Value :=
  skipn (length (register_arguments (abi c))) (args c).

Definition put_arguments (nextGadgetAddr : Z) (stackArguments : list Value) : list Value :=
  map (fun argument => match argument with
                       | VNextGadgetAddress => VInt nextGadgetAddr
                       | _ => argument
                       end) stackArguments.

(** C1 (amended): in the first pass, once the register groups of a call
    are on the stack, the call target follows; then, for a call whose ABI
    returns and which is the last element of the chain, exactly one
    [Padding] word and after it the stack arguments:
    [reg-set gadgets..., target, padding, stackarg0, stackarg1]. For a call
    whose ABI does not return, the stack arguments follow the target with
    no padding, wherever the call is in the chain. *)
Theorem call_padding_layout fuel start c stack self groups self' stack' :
  setRegisters classify verify_path randint fuel
               (to_dict (zip (register_arguments (abi c)) (args c))) self
  = (Ok groups, self') ->
  extend_with_groups (to_dict (zip (register_arguments (abi c)) (args c))) groups stack
  = Ok stack' ->
  let nextGadgetAddr :=
    next context_bytes start (stack' ++ [target c])
    + context_bytes * Z.of_nat (length (stack_arguments c)) in
  stack' = stack ++ concat (map snd groups)
  /\ (returns (abi c) = true ->
      pass1 context_bytes cyclic classify verify_path randint fuel start [ECall c] stack self
      = (Ok (stack' ++ [target c; VPadding]
                    ++ put_arguments nextGadgetAddr (stack_arguments c)), self'))
  /\ (returns (abi c) = false ->
      forall remaining,
        pass1_call context_bytes classify verify_path randint fuel start c remaining stack self
        = (Ok (stack' ++ [target c]
                      ++ put_arguments nextGadgetAddr (stack_arguments c)), self')).
Proof.
  intros Hset Hext nextGadgetAddr.
  split; [eapply extend_with_groups_ok, Hext|]. split.
  - intros Hret. cbn [pass1]. unfold bind at 1. unfold pass1_call.
    unfold bind at 1. rewrite Hset. unfold bind at 1, lift. rewrite Hext.
    rewrite Hret. cbn. unfold ret. rewrite <- !app_assoc. reflexivity.
  - intros Hret remaining. unfold pass1_call.
    unfold bind at 1. rewrite Hset. unfold bind at 1, lift. rewrite Hext.
    rewrite Hret. cbn. unfold ret. rewrite <- !app_assoc. reflexivity.
Qed.

End CallLayout.

Lemma call_padding_layout_witness :
  rop.pass1 4 inputs.cyclic_a inputs.classify_all inputs.verify_one_pop inputs.randint_seq
            10 0 [rop.ECall (inputs.call_dead true)] [] inputs.rop_pop_eax
  = (Ok [VGadget inputs.pop_eax; VInt 1; VInt 0xdead0000; VPadding; VInt 11; VInt 22],
     inputs.rop_pop_eax_solved).
Proof.
  refine (proj1 (proj2 (call_padding_layout 4 inputs.cyclic_a inputs.classify_all
                          inputs.verify_one_pop inputs.randint_seq 10 0
                          (inputs.call_dead true) [] inputs.rop_pop_eax
                          [("eax", [VGadget inputs.pop_eax; VInt 1])]
                          inputs.rop_pop_eax_solved
                          [VGadget inputs.pop_eax; VInt 1] _ _)) eq_refl);
    vm_compute; reflexivity.
Defined.

(** The layout with a padding word after the target. *)
Definition claimed_layout : list Value :=
  [VGadget inputs.pop_eax; VInt 1; VInt 0xdead0000; VPadding; VInt 11; VInt 22].

(** The call to [0xdead0000] with one register argument and two stack
    arguments under an ABI with one register slot that does not return, as
    the only element of the chain: no padding follows the target. *)
Lemma non_resuming_call_has_no_padding :
  (rop.pass1 4 inputs.cyclic_a inputs.classify_all inputs.verify_one_pop inputs.randint_seq
             10 0 [rop.ECall (inputs.call_dead false)] [] inputs.rop_pop_eax).1
  = Ok [VGadget inputs.pop_eax; VInt 1; VInt 0xdead0000; VInt 11; VInt 22]
  /\ (rop.pass1 4 inputs.cyclic_a inputs.classify_all inputs.verify_one_pop inputs.randint_seq
                10 0 [rop.ECall (inputs.call_dead false)] [] inputs.rop_pop_eax).1
     <> Ok claimed_layout.
Proof. split; [vm_compute; reflexivity | vm_compute; discriminate]. Qed.

(** ** Dictionaries in insertion order *)

Section DictFacts.
Context {K V : Type} `{EqDecision K}.


Lemma dict_set_keys (k : K) (v : V) d :
  keys (dict_set k v d) = if bool_decide (k ∈ keys d) then keys d else keys d ++ [k].
Proof.
  unfold keys. induction d as [|[k' v'] d IH]; [reflexivity|]. cbn.
  destruct (decide (k = k')) as [->|Hne]; cbn.
  - rewrite bool_decide_eq_true_2; [reflexivity | left].
  - rewrite IH.
    destruct (bool_decide_reflect (k ∈ map fst d)) as [Hin|Hin].
    + rewrite bool_decide_eq_true_2; [reflexivity | now right].
    + rewrite bool_decide_eq_false_2; [reflexivity|].
      intros Hc. apply elem_of_cons in Hc as [?|?]; done.
Qed.

Lemma dict_set_keys_NoDup (k : K) (v : V) d :
  NoDup (keys d) -> NoDup (keys (dict_set k v d)).
Proof.
  intros Hnd. rewrite dict_set_keys. case_bool_decide; [exact Hnd|].
  apply NoDup_app. split; [exact Hnd|]. split; [|apply NoDup_singleton].
  intros x Hx Hx'. apply list_elem_of_singleton in Hx' as ->. done.
Qed.


End DictFacts.

(** ** Idempotence of build *)

Section Idempotence.
Import rop.

Variable context_bytes : Z.
Variable cyclic : Z -> bytes.
Variable appended_resolve : list Value -> Z -> list Value.
Variable classify : Gadget -> option Gadget.
Variable verify_path : list Gadget -> list (string * Value) -> option (Z * list (Z * Z)).
Variable randint : nat -> Z.

(** The table of gadgets that [init_classify_and_solver] leaves in
    [self.gadgets]. *)
Definition reclassify (G : list (Z * Gadget)) : list (Z * Gadget) :=
  fold_left (fun acc gadget => match classify gadget with
                               | Some cl => dict_set (address cl) cl acc
                               | None => acc
                               end) (values G) [].

(** The random numbers that [search_path] draws for its registers, from the
    [n]-th on. *)
Fixpoint probes (n : nat) (regs : list string) (cond : list (string * Value))
  : list (string * Value) :=
  match regs with
  | [] => cond
  | reg :: regs' => probes (S n) regs' (dict_set reg (VInt (randint n)) cond)
  end.

(** What is asked of the collaborators: a classified gadget classifies to
    itself, and whether the solver accepts a path does not depend on which
    random numbers were drawn for the registers. *)
Hypothesis classify_stable : forall g cl, classify g = Some cl -> classify cl = Some cl.
Hypothesis probes_irrelevant : forall path regs n m,
  is_Some (verify_path path (probes n regs [])) <->
  is_Some (verify_path path (probes m regs [])).
















(** The random numbers that [draw_cond] draws. *)
Lemma draw_cond_eq regs cond s :
  draw_cond randint regs cond s
  = (Ok (probes (random_state s) regs cond),
     set_random_state (random_state s + length regs)%nat s).
Proof.
  revert cond s. induction regs as [|reg regs IH]; intros cond s.
  - cbn. unfold ret. destruct s; cbn. now rewrite Nat.add_0_r.
  - cbn [draw_cond probes]. unfold bind at 1. unfold random_randint at 1.
    unfold bind, get, modify, ret. rewrite IH. destruct s; cbn.
    unfold set_random_state; cbn. now rewrite Nat.add_succ_r.
Qed.

(** [search_path] without the monad. *)
Lemma search_path_eq fuel src regs s :
  search_path verify_path randint fuel src regs s
  = match end_set regs (values (gadgets s)) with
    | Raise e => (Raise e, s)
    | Ok end_ =>
        match all_paths fuel (gadget_graph s) (start_set src (values (gadgets s))) end_ with
        | Raise e => (Raise e, s)
        | Ok paths =>
            let ps := sorted_by path_len
                        (filter (fun path => is_Some (verify_path path
                                                        (probes (random_state s) regs [])))
                                paths) in
            (Ok (if Nat.eqb (length ps) 0 then None else Some ps),
             set_random_state (random_state s + length regs)%nat s)
        end
    end.
Proof.
  unfold search_path, bind, get, lift.
  destruct (end_set regs (values (gadgets s))) as [end_|e]; [|reflexivity].
  destruct (all_paths fuel (gadget_graph s) (start_set src (values (gadgets s))) end_)
    as [paths|e]; [|reflexivity].
  rewrite draw_cond_eq. cbn zeta.
  destruct (Nat.eqb _ 0); reflexivity.
Qed.






























End Idempotence.







Section Idempotence2.
Import rop.

Variable context_bytes : Z.
Variable cyclic : Z -> bytes.
Variable appended_resolve : list Value -> Z -> list Value.
Variable classify : Gadget -> option Gadget.
Variable verify_path : list Gadget -> list (string * Value) -> option (Z * list (Z * Z)).
Variable randint : nat -> Z.



End Idempotence2.



(** The two builds of the example: the same stack, while the object has
    changed in between (the solver has run and random numbers were drawn). *)
Example build_twice :
  let out1 := rop.build 4 inputs.cyclic_a inputs.resolve_flat inputs.classify_all
                        inputs.verify_one_pop inputs.randint_seq 20 None
                        inputs.rop_with_call in
  let out2 := rop.build 4 inputs.cyclic_a inputs.resolve_flat inputs.classify_all
                        inputs.verify_one_pop inputs.randint_seq 20 None out1.2 in
  out1.1 = Ok (rop.mkStack 0
                 [VInt 1; VStr (list_ascii_of_string "abcd");
                  VStr (list_ascii_of_string "aaaa"); VInt 0x804805b;
                  VStr (list_ascii_of_string "aaaa");
                  VInt 0x804805b; VInt 1; VInt 0xdead0000;
                  VStr (list_ascii_of_string "aaaa"); VInt 11; VInt 22])
  /\ out2.1 = out1.1
  /\ rop.random_state out1.2 = 1%nat /\ rop.random_state out2.2 = 2%nat.
Proof. vm_compute. repeat split. Qed.

(** * Further properties of the code *)

(** ** Frames: writes, reads and the key set *)

Section FrameMore.
Import srop.

(** A write that succeeds is a dictionary assignment under a name of the
    layout. *)
Lemma setitem_ok_inv f item value f' :
  __setitem__ item value f = (Ok tt, f') ->
  f' = set_items (<[item := value]> (items f)) f
  /\ exists rs, registers (arch f) = Some rs /\ item ∈ context rs.
Proof.
  unfold __setitem__, frame_registers, bind, get, subscript, ret, log_error, raise, modify, and7.
  destruct (registers (arch f)) as [rs|]; [|discriminate].
  destruct (bool_decide_reflect (item ∈ context rs)) as [Hin|]; [|discriminate].
  destruct (String.eqb (arch f) "arm" && String.eqb item "sp").
  - destruct value as [z| | | | | | | | |]; try discriminate.
    destruct (negb (Z.land z 7 =? 0)); [discriminate|].
    intros [= <-]. eauto.
  - intros [= <-]. eauto.
Qed.

Lemma getitem_eq f item :
  __getitem__ item f = (match items f !! item with
                        | Some v => Ok v
                        | None => Raise KeyError
                        end, f).
Proof. unfold __getitem__, bind, get, subscript. now destruct (items f !! item). Qed.

(** X1: after a write that succeeds, a read of the register gives the value
    written, a read of any other name gives what it gave before, and the
    architecture of the frame is as it was. *)
Theorem setitem_then_getitem f item value f' :
  __setitem__ item value f = (Ok tt, f') ->
  __getitem__ item f' = (Ok value, f')
  /\ (forall r, r <> item -> (__getitem__ r f').1 = (__getitem__ r f).1)
  /\ arch f' = arch f.
Proof.
  intros Hset. apply setitem_ok_inv in Hset as [-> _].
  rewrite getitem_eq. cbn [set_items items arch]. rewrite lookup_insert_eq.
  split; [reflexivity|]. split; [|reflexivity].
  intros r Hne. rewrite !getitem_eq. cbn [set_items items fst].
  now rewrite lookup_insert_ne by congruence.
Qed.

Lemma setitem_then_getitem_witness :
  __getitem__ "eip" (__setitem__ "eip" (VGadget inputs.pop_eax) inputs.frame_i386).2
  = (Ok (VGadget inputs.pop_eax),
     (__setitem__ "eip" (VGadget inputs.pop_eax) inputs.frame_i386).2).
Proof.
  refine (proj1 (setitem_then_getitem inputs.frame_i386 "eip" (VGadget inputs.pop_eax) _ _)).
  vm_compute. reflexivity.
Defined.

(** The frames that the code builds: the constructor's, and what a write
    that succeeds makes of one. *)
Inductive built : SigreturnFrame -> Prop :=
| built_init a f : __init__ a = Ok f -> built f
| built_setitem f item value f' :
    built f -> __setitem__ item value f = (Ok tt, f') -> built f'.

Lemma init_cases a f :
  __init__ a = Ok f ->
  (a = "i386" /\ f = inputs.frame_i386)
  \/ (a = "amd64" /\ f = inputs.frame_amd64)
  \/ (a = "arm" /\ f = inputs.frame_arm).
Proof.
  intros Hinit.
  destruct (registers a) as [rs|] eqn:Hr.
  - destruct (registers_cases _ _ Hr) as [-> | [-> | ->]].
    + left. split; [reflexivity|]. unfold inputs.frame_i386. now rewrite Hinit.
    + right; left. split; [reflexivity|]. unfold inputs.frame_amd64. now rewrite Hinit.
    + right; right. split; [reflexivity|]. unfold inputs.frame_arm. now rewrite Hinit.
  - unfold __init__ in Hinit. rewrite Hr in Hinit. discriminate.
Qed.

(** The keys of the dictionary are the registers of the layout. *)
Definition keys_are_layout (f : SigreturnFrame) : Prop :=
  exists rs, registers (arch f) = Some rs
             /\ forall r, is_Some (items f !! r) <-> r ∈ context rs.

Definition keys_are_layoutb (f : SigreturnFrame) (rs : sropregs) : bool :=
  bool_decide (dom (items f) = list_to_set (context rs)).

Lemma keys_are_layoutb_sound f rs :
  registers (arch f) = Some rs -> keys_are_layoutb f rs = true -> keys_are_layout f.
Proof.
  intros Hr Hb. exists rs. split; [exact Hr|]. intros r.
  apply bool_decide_eq_true_1 in Hb. rewrite <- elem_of_dom, Hb. apply elem_of_list_to_set.
Qed.

Lemma built_keys f : built f -> keys_are_layout f.
Proof.
  induction 1 as [a f Hinit | f item value f' _ IH Hset].
  - destruct (init_cases _ _ Hinit) as [[-> ->] | [[-> ->] | [-> ->]]].
    + apply (keys_are_layoutb_sound _ (inputs.layout "i386")); [reflexivity|].
      vm_compute. reflexivity.
    + apply (keys_are_layoutb_sound _ (inputs.layout "amd64")); [reflexivity|].
      vm_compute. reflexivity.
    + apply (keys_are_layoutb_sound _ (inputs.layout "arm")); [reflexivity|].
      vm_compute. reflexivity.
  - destruct IH as (rs & Hr & Hkeys).
    apply setitem_ok_inv in Hset as [-> (rs' & Hr' & Hin)].
    rewrite Hr in Hr'. injection Hr' as <-.
    exists rs. split; [exact Hr|]. intros r. cbn [set_items items].
    destruct (decide (item = r)) as [->|Hne].
    + rewrite lookup_insert_eq. split; [intros _; exact Hin | intros _; eauto].
    + rewrite lookup_insert_ne by exact Hne. apply Hkeys.
Qed.

(** X2: every register of the layout of a built frame can be read, and a read
    under any other name is a [KeyError]: the dictionary never holds more
    or less than the layout. *)
Theorem built_frame_reads f :
  built f ->
  exists rs,
    registers (arch f) = Some rs
    /\ (forall r, r ∈ context rs -> exists v, __getitem__ r f = (Ok v, f))
    /\ (forall r, r ∉ context rs -> __getitem__ r f = (Raise KeyError, f)).
Proof.
  intros Hb. destruct (built_keys f Hb) as (rs & Hr & Hkeys).
  exists rs. split; [exact Hr|]. split; intros r Hin; rewrite getitem_eq.
  - destruct (proj2 (Hkeys r) Hin) as [v ->]. eauto.
  - destruct (items f !! r) as [v|] eqn:Hv; [|reflexivity].
    exfalso. apply Hin, Hkeys. eauto.
Qed.

Lemma built_frame_reads_witness :
  __getitem__ "rax" inputs.frame_i386 = (Raise KeyError, inputs.frame_i386).
Proof.
  destruct (built_frame_reads inputs.frame_i386 (built_init "i386" _ eq_refl))
    as (rs & Hr & _ & Hout).
  apply Hout. injection Hr as <-. apply (bool_decide_eq_false_1 _). vm_compute. reflexivity.
Defined.

Lemma built_lookups f (l : list string) :
  (forall r, r ∈ l -> is_Some (items f !! r)) ->
  Forall2 (fun r v => items f !! r = Some v) l
          (map (fun r => default VNone (items f !! r)) l).
Proof.
  induction l as [|r l IH]; intros Hall; cbn; constructor.
  - destruct (Hall r (list_elem_of_here _ _)) as [v ->]. reflexivity.
  - apply IH. intros r' Hr'. apply Hall. now right.
Qed.

(** X3: in the first pass of [build], a built frame puts one slot for every
    register of its layout on the stack, in the order of the layout, each
    holding what the frame holds for the register; it never raises. *)
Theorem pass1_built_frame f stack :
  built f ->
  exists rs vs,
    registers (arch f) = Some rs
    /\ rop.pass1_frame f stack = Ok (stack ++ vs)
    /\ length vs = length (context rs)
    /\ forall i r, context rs !! i = Some r -> vs !! i = items f !! r.
Proof.
  intros Hb. destruct (built_keys f Hb) as (rs & Hr & Hkeys).
  pose proof (built_lookups f (context rs) (fun r => proj2 (Hkeys r))) as Hl.
  exists rs, (map (fun r => default VNone (items f !! r)) (context rs)).
  split; [exact Hr|]. split; [|split].
  - unfold rop.pass1_frame.
    rewrite (bind_ok _ _ _ _ _ (frame_registers_eq _ _ Hr)).
    now rewrite (mapM_getitem _ _ _ Hl).
  - apply length_map.
  - intros i r Hi. rewrite list_lookup_fmap, Hi. cbn.
    destruct (proj2 (Hkeys r) (list_elem_of_lookup_2 _ _ _ Hi)) as [v ->]. reflexivity.
Qed.

Lemma pass1_built_frame_witness :
  exists vs, rop.pass1_frame inputs.frame_amd64 [VInt 7] = Ok ([VInt 7] ++ vs)
             /\ length vs = 31%nat.
Proof.
  destruct (pass1_built_frame inputs.frame_amd64 [VInt 7] (built_init "amd64" _ eq_refl))
    as (rs & vs & Hr & Hp & Hlen & _).
  exists vs. split; [exact Hp|]. injection Hr as <-. exact Hlen.
Defined.

End FrameMore.

(** ** Gadget search: what is found, when nothing is found, and which one *)

Section SearchMore.
Import rop.

Lemma fold_set_add_from {K} `{EqDecision K} (r : K) (rs acc : list K) :
  r ∈ fold_left (fun s k => set_add k s) rs acc -> r ∈ acc \/ r ∈ rs.
Proof.
  revert acc. induction rs as [|x rs IH]; intros acc; cbn; [now left|].
  intros Hin. apply IH in Hin as [Hin | Hin]; [|right; now right].
  unfold set_add in Hin. case_bool_decide; [now left|].
  apply elem_of_app in Hin as [Hin | Hin]; [now left|].
  apply list_elem_of_singleton in Hin as ->. right. left.
Qed.

Lemma to_set_elem_iff {K} `{EqDecision K} (r : K) (rs : list K) : r ∈ to_set rs <-> r ∈ rs.
Proof.
  split; [|apply to_set_elem].
  intros Hin. apply fold_set_add_from in Hin as [Hin | Hin]; [inversion Hin | exact Hin].
Qed.

(** A gadget matches a request: it moves the stack pointer by [mv] bytes at
    least and sets every register asked for. *)
Definition matches (mv : Z) (rs : list string) (g : Gadget) : Prop :=
  mv <= move g /\ forall r, r ∈ rs -> DReg r ∈ reg_keys g.

Lemma search_iter_elem mv rs self g :
  g ∈ search_iter mv rs self <-> g ∈ values (gadgets self) /\ matches mv rs g.
Proof.
  unfold search_iter, matches. rewrite list_elem_of_filter.
  rewrite Is_true_true, andb_true_iff, negb_true_iff, Z.ltb_ge.
  unfold subset. rewrite forallb_forall.
  split.
  - intros [[Hmv Hsub] Hin]. repeat split; [exact Hin | exact Hmv|].
    intros r Hr. apply (bool_decide_eq_true_1 _), Hsub, list_elem_of_In, list_elem_of_fmap_2.
    now apply to_set_elem.
  - intros [Hin [Hmv Hregs]]. repeat split; [exact Hmv | | exact Hin].
    intros d Hd. apply list_elem_of_In, list_elem_of_fmap in Hd as (r & -> & Hr).
    apply bool_decide_eq_true_2, Hregs. now apply to_set_elem_iff.
Qed.

(** Python's [<] on triples is the lexicographic order. *)
Lemma tuple_lt_spec a1 a2 a3 b1 b2 b3 :
  tuple_lt (a1, a2, a3) (b1, b2, b3) = true
  <-> a1 < b1 \/ (a1 = b1 /\ (a2 < b2 \/ (a2 = b2 /\ a3 < b3))).
Proof.
  unfold tuple_lt.
  rewrite !orb_true_iff, !andb_true_iff, !orb_true_iff, !andb_true_iff,
          !Z.ltb_lt, !Z.eqb_eq.
  reflexivity.
Qed.

Lemma tuple_lt_false_trans a b c :
  tuple_lt b a = false -> tuple_lt c a = true -> tuple_lt b c = false.
Proof.
  destruct a as [[a1 a2] a3], b as [[b1 b2] b3], c as [[c1 c2] c3].
  intros Hba Hca. apply not_true_iff_false in Hba. apply not_true_iff_false.
  rewrite tuple_lt_spec in *. lia.
Qed.

Lemma tuple_lt_irrefl a : tuple_lt a a = false.
Proof.
  destruct a as [[a1 a2] a3]. apply not_true_iff_false. rewrite tuple_lt_spec. lia.
Qed.

(** [min] returns an element under which no element of the list lies. *)
Lemma py_min_least {A} (k : A -> Z * Z * Z) (l : list A) x :
  py_min k l = Some x -> forall y, y ∈ l -> tuple_lt (k y) (k x) = false.
Proof.
  destruct l as [|x0 l]; [discriminate|]. cbn. intros [= <-].
  assert (H : forall seen best,
             (forall y, y ∈ seen -> tuple_lt (k y) (k best) = false) ->
             forall y, y ∈ seen ++ l ->
               tuple_lt (k y)
                 (k (fold_left (fun best z => if tuple_lt (k z) (k best) then z else best)
                               l best)) = false).
  { induction l as [|z l IH]; intros seen best Hseen y Hy; cbn.
    - rewrite app_nil_r in Hy. now apply Hseen.
    - apply (IH (seen ++ [z])).
      + intros y' Hy'. apply elem_of_app in Hy' as [Hy' | Hy'].
        * destruct (tuple_lt (k z) (k best)) eqn:Hz; [|now apply Hseen].
          eapply tuple_lt_false_trans; [now apply Hseen | exact Hz].
        * apply list_elem_of_singleton in Hy' as ->.
          destruct (tuple_lt (k z) (k best)) eqn:Hz; [apply tuple_lt_irrefl | exact Hz].
      + now rewrite <- app_assoc. }
  intros y Hy. apply (H [x0] x0).
  - intros y' Hy'. apply list_elem_of_singleton in Hy' as ->. apply tuple_lt_irrefl.
  - exact Hy.
Qed.

(** X4: what [search] returns is a gadget of the set that matches the request:
    it moves the stack pointer by the asked number of bytes at least and
    sets every register asked for. *)
Theorem search_result_matches self mv rs order g :
  search mv rs order self = Some g ->
  g ∈ values (gadgets self) /\ mv <= move g /\ forall r, r ∈ rs -> DReg r ∈ reg_keys g.
Proof.
  unfold search. intros Hmin. apply py_min_elem in Hmin.
  apply search_iter_elem in Hmin as [Hin [Hmv Hregs]]. auto.
Qed.

Lemma search_result_matches_witness :
  8 <= move inputs.pop_rbp /\ DReg "rbp" ∈ reg_keys inputs.pop_rbp.
Proof.
  destruct (search_result_matches inputs.rop_amd64 8 ["rbp"] size inputs.pop_rbp eq_refl)
    as (_ & Hmv & Hregs).
  split; [exact Hmv | apply Hregs; left].
Defined.

(** X5: [search] returns [None] exactly when no gadget of the set matches the
    request. *)
Theorem search_none_iff self mv rs order :
  search mv rs order self = None
  <-> forall g, g ∈ values (gadgets self) ->
                ~ (mv <= move g /\ forall r, r ∈ rs -> DReg r ∈ reg_keys g).
Proof.
  unfold search. split.
  - intros Hnone g Hin Hm.
    assert (Hg : g ∈ search_iter mv rs self) by (apply search_iter_elem; now split).
    destruct (search_iter mv rs self); [inversion Hg | discriminate].
  - intros Hno. destruct (search_iter mv rs self) as [|g l] eqn:E; [reflexivity|].
    exfalso. assert (Hg : g ∈ search_iter mv rs self) by (rewrite E; left).
    apply search_iter_elem in Hg as [Hin Hm]. exact (Hno g Hin Hm).
Qed.

(** X6: no matching gadget is better than the one [search] returns: ordered by
    size, none moves the stack pointer by less, and among those that move it
    by as much none sets fewer registers; ordered by registers, the other
    way round. *)
Theorem search_is_least self mv rs order g g' :
  search mv rs order self = Some g ->
  g' ∈ values (gadgets self) ->
  mv <= move g' -> (forall r, r ∈ rs -> DReg r ∈ reg_keys g') ->
  tuple_lt (key order g') (key order g) = false
  /\ (order = size ->
      move g <= move g' /\ (move g = move g' -> len_regs g <= len_regs g'))
  /\ (order = by_regs ->
      len_regs g <= len_regs g' /\ (len_regs g = len_regs g' -> move g <= move g')).
Proof.
  unfold search. intros Hmin Hin Hmv Hregs.
  assert (Hlt : tuple_lt (key order g') (key order g) = false).
  { eapply py_min_least; [exact Hmin|]. apply search_iter_elem. now repeat split. }
  split; [exact Hlt|].
  apply not_true_iff_false in Hlt.
  split; intros ->; cbn [key] in Hlt; rewrite tuple_lt_spec in Hlt; lia.
Qed.

Lemma search_is_least_witness :
  move inputs.pop_rbp <= move inputs.leave_ret64.
Proof.
  destruct (search_is_least inputs.rop_amd64 8 ["rbp"] size inputs.pop_rbp inputs.leave_ret64
              eq_refl) as (_ & Hsize & _).
  - right. left.
  - vm_compute. discriminate.
  - intros r Hr. apply list_elem_of_singleton in Hr as ->. left.
  - exact (proj1 (Hsize eq_refl)).
Defined.

End SearchMore.

(** ** Chains: migration paths, sealing and resolved calls *)

Section ChainMore.
Import rop.

(** [self.a or self.b] for two register shorthands. *)
Definition pop_either (a b : string) (self : ROP) : option Gadget :=
  match search 0 [a] by_regs self with
  | Some g => Some g
  | None => search 0 [b] by_regs self
  end.

(** The condition [pop and len(pop.regs) == 1]. *)
Definition single (o : option Gadget) : bool :=
  match o with
  | Some g => len_regs g =? 1
  | None => false
  end.

Lemma or_else_pop a b self :
  a = "rsp" \/ a = "esp" \/ a = "rbp" \/ a = "ebp" ->
  b = "rsp" \/ b = "esp" \/ b = "rbp" \/ b = "ebp" ->
  or_else (__getattr__ a) (__getattr__ b) self = (Ok (of_gadget (pop_either a b self)), self).
Proof.
  intros Ha Hb. unfold or_else, pop_either.
  rewrite (bind_ok _ _ _ _ _ (getattr_reg self a Ha)).
  destruct (search 0 [a] by_regs self) as [g|]; cbn [of_gadget truthy]; [reflexivity|].
  now rewrite (getattr_reg self b Hb).
Qed.

Lemma and_then_single (o : option Gadget) (self : ROP) :
  and_then (truthy (of_gadget o)) (one_reg (of_gadget o)) self = (Ok (single o), self).
Proof. now destruct o. Qed.

(** [migrate] with the shorthands resolved. *)
Lemma migrate_eq next_base self :
  migrate next_base self
  = (let next_base := match next_base with
                      | NBRop _ => of_base (base self)
                      | NBValue v => v
                      end in
     let pop_sp := pop_either "rsp" "esp" self in
     let pop_bp := pop_either "rbp" "ebp" self in
     let* _ :=
       (if single pop_sp then
          let* _ := raw (EValue (of_gadget pop_sp)) in
          raw (EValue next_base)
        else if single pop_bp then
          let* _ := raw (EValue (of_gadget pop_bp)) in
          let* nb := minus next_base 4 in
          let* _ := raw (EValue nb) in
          raw (EValue (VFunction "leave"))
        else log_error "Cannot find the gadgets to migrate") in
     modify (set_migrated true)) self.
Proof.
  unfold migrate. unfold bind at 1, get.
  rewrite (bind_ok _ _ _ _ _ (or_else_pop "rsp" "esp" self ltac:(tauto) ltac:(tauto))).
  rewrite (bind_ok _ _ _ _ _ (or_else_pop "rbp" "ebp" self ltac:(tauto) ltac:(tauto))).
  rewrite (bind_ok _ _ _ _ _ (getattr_leave self)).
  rewrite (bind_ok _ _ _ _ _ (and_then_single _ self)).
  cbv zeta.
  destruct (single (pop_either "rsp" "esp" self)); [reflexivity|].
  unfold bind at 1. unfold bind at 1.
  cbn [truthy]. rewrite andb_true_r.
  rewrite (and_then_single _ self).
  destruct (single (pop_either "rbp" "ebp" self)); reflexivity.
Qed.

Lemma raw_sealed value self :
  migrated self = true ->
  raw value self = (Raise (LogError "Cannot append to a migrated chain"), self).
Proof. intros Hm. unfold raw, bind, get. now rewrite Hm. Qed.

Lemma single_some o : single o = true -> exists g, o = Some g /\ len_regs g = 1.
Proof. destruct o as [g|]; [|discriminate]. cbn. intros H. exists g. split; [reflexivity | lia]. Qed.

(** The address that [migrate] goes to. *)
Definition target_of (next_base : NextBase) (self : ROP) : Value :=
  match next_base with
  | NBRop _ => of_base (base self)
  | NBValue v => v
  end.

(** X7: where the binary has a gadget that pops the stack pointer and nothing
    else, [migrate] on an open chain appends that gadget and the new base,
    unchanged, and seals the chain; nothing else of the object changes. *)
Theorem migrate_sp_path next_base self g :
  migrated self = false ->
  pop_either "rsp" "esp" self = Some g -> len_regs g = 1 ->
  migrate next_base self
  = (Ok tt, set_migrated true
              (set_chain (_chain self ++ [EValue (VGadget g); EValue (target_of next_base self)])
                         self)).
Proof.
  intros Hm Hsp H1. rewrite migrate_eq. cbv zeta. rewrite Hsp. cbn [single of_gadget].
  apply Z.eqb_eq in H1. rewrite H1.
  unfold bind at 1. unfold bind at 1. rewrite raw_open by exact Hm.
  rewrite raw_open by exact Hm. cbn. rewrite <- app_assoc. reflexivity.
Qed.

(** X8: where no gadget pops the stack pointer alone but one pops the base
    pointer alone, [migrate] to an integer address on an open chain appends
    that gadget, the address less 4 and the call shorthand for the name
    [leave], whatever the width of a word and whether or not the binary has
    a [leave] gadget, and seals the chain. *)
Theorem migrate_bp_path self g z :
  migrated self = false ->
  single (pop_either "rsp" "esp" self) = false ->
  pop_either "rbp" "ebp" self = Some g -> len_regs g = 1 ->
  migrate (NBValue (VInt z)) self
  = (Ok tt, set_migrated true
              (set_chain (_chain self ++ [EValue (VGadget g); EValue (VInt (z - 4));
                                          EValue (VFunction "leave")])
                         self)).
Proof.
  intros Hm Hsp Hbp H1. rewrite migrate_eq. cbv zeta. rewrite Hsp, Hbp. cbn [single of_gadget].
  apply Z.eqb_eq in H1. rewrite H1.
  unfold bind at 1. unfold bind at 1. rewrite raw_open by exact Hm.
  unfold bind at 1. cbn [minus ret].
  unfold bind at 1. rewrite raw_open by exact Hm.
  rewrite raw_open by exact Hm. cbn. rewrite <- !app_assoc. reflexivity.
Qed.

(** X9: on the base-pointer path, [migrate] to another [ROP] object while this
    one has no base fails half way: it raises [TypeError] on [None - 4]
    after it has appended the gadget, and the chain stays open. *)
Theorem migrate_without_base_half_done self other g :
  migrated self = false ->
  single (pop_either "rsp" "esp" self) = false ->
  pop_either "rbp" "ebp" self = Some g -> len_regs g = 1 ->
  base self = None ->
  migrate (NBRop other) self
  = (Raise TypeError, set_chain (_chain self ++ [EValue (VGadget g)]) self).
Proof.
  intros Hm Hsp Hbp H1 Hb. rewrite migrate_eq. cbv zeta. rewrite Hsp, Hbp, Hb.
  cbn [single of_gadget of_base].
  apply Z.eqb_eq in H1. rewrite H1.
  unfold bind at 1. unfold bind at 1. rewrite raw_open by exact Hm.
  reflexivity.
Qed.

Variable context_arch : string.
Variable constants : string -> option Z.
Variable ABI_syscall : string -> ABI.
Variable ABI_sigreturn ABI_default : ABI.

(** X10: a chain that [migrate] has sealed takes nothing more: [raw], [call] and
    a second [migrate] each raise and leave the object as it is. *)
Theorem migrate_then_sealed next_base self self' :
  migrate next_base self = (Ok tt, self') ->
  (forall value, is_error (raw value self').1 /\ (raw value self').2 = self')
  /\ (forall resolvable arguments abi,
        call context_arch constants ABI_syscall ABI_sigreturn ABI_default
             resolvable arguments abi self'
        = (Raise (LogError "Cannot append to a migrated chain"), self'))
  /\ (forall next_base', is_error (migrate next_base' self').1
                         /\ (migrate next_base' self').2 = self').
Proof.
  intros Hmig. apply migrate_seals in Hmig as Hm.
  split; [|split].
  - intros value. rewrite raw_sealed by exact Hm. split; [now eexists | reflexivity].
  - intros resolvable arguments abi. unfold call, bind, get. now rewrite Hm.
  - intros nb. rewrite migrate_eq. cbv zeta.
    destruct (single (pop_either "rsp" "esp" self')) eqn:Esp.
    + unfold bind. rewrite raw_sealed by exact Hm.
      split; [now eexists | reflexivity].
    + destruct (single (pop_either "rbp" "ebp" self')) eqn:Ebp.
      * unfold bind. rewrite raw_sealed by exact Hm.
        split; [now eexists | reflexivity].
      * split; [now eexists | reflexivity].
Qed.

(** X11: a call to a name or an integer that resolves to an address other than 0
    appends one [Call] with that address as its target, under the name (the
    empty name for an integer), and changes nothing else; no system call is
    looked up. *)
Theorem call_resolved self resolvable arguments abi a :
  migrated self = false ->
  resolve resolvable self = Some a -> a <> 0 ->
  call context_arch constants ABI_syscall ABI_sigreturn ABI_default
       resolvable arguments abi self
  = (Ok tt,
     set_chain (_chain self
                ++ [ECall (mkCall (match resolvable with RStr s => s | RInt _ => "" end)
                                  (VInt a) arguments (default ABI_default abi))])
               self).
Proof.
  intros Hm Hres Ha. unfold call. unfold bind at 1, get. unfold bind at 1. rewrite Hm.
  cbn [ret].
  assert (Ht : truthy (VInt a) = true) by (cbn; now apply negb_true_iff, Z.eqb_neq).
  destruct resolvable as [s | z].
  - rewrite Hres. cbn [of_base]. rewrite Ht. now rewrite raw_open by exact Hm.
  - cbn in Hres. injection Hres as ->. rewrite Ht. now rewrite raw_open by exact Hm.
Qed.

End ChainMore.

Lemma migrate_sp_path_witness :
  rop.migrate (rop.NBValue (VInt 0x2000)) inputs.rop_pop_esp
  = (Ok tt, rop.set_migrated true
              (rop.set_chain [rop.EValue (VGadget inputs.pop_esp); rop.EValue (VInt 0x2000)]
                             inputs.rop_pop_esp)).
Proof.
  refine (migrate_sp_path (rop.NBValue (VInt 0x2000)) inputs.rop_pop_esp inputs.pop_esp _ _ _);
    vm_compute; reflexivity.
Defined.

Lemma migrate_bp_path_witness :
  rop.migrate (rop.NBValue (VInt 0x7fff0000)) inputs.rop_amd64
  = (Ok tt, rop.set_migrated true
              (rop.set_chain [rop.EValue (VGadget inputs.pop_rbp);
                              rop.EValue (VInt (0x7fff0000 - 4));
                              rop.EValue (VFunction "leave")]
                             inputs.rop_amd64)).
Proof.
  refine (migrate_bp_path inputs.rop_amd64 inputs.pop_rbp 0x7fff0000 _ _ _ _);
    vm_compute; reflexivity.
Defined.

Lemma migrate_without_base_half_done_witness :
  rop.migrate (rop.NBRop inputs.rop_leave) inputs.rop_pop_ebp
  = (Raise TypeError,
     rop.set_chain [rop.EValue (VGadget inputs.pop_ebp)] inputs.rop_pop_ebp).
Proof.
  refine (migrate_without_base_half_done inputs.rop_pop_ebp inputs.rop_leave inputs.pop_ebp
            _ _ _ _ _);
    vm_compute; reflexivity.
Defined.

(** The object that [migrate] leaves of [inputs.rop_pop_esp]. *)
Definition rop_pop_esp_migrated : rop.ROP :=
  rop.set_migrated true
    (rop.set_chain [rop.EValue (VGadget inputs.pop_esp); rop.EValue (VInt 0x2000)]
                   inputs.rop_pop_esp).

Lemma migrate_then_sealed_witness :
  rop.call "i386" inputs.constants_i386 inputs.abi_syscall inputs.abi_sigreturn inputs.abi_i386
           (rop.RInt 0x8048420) [] None rop_pop_esp_migrated
  = (Raise (LogError "Cannot append to a migrated chain"), rop_pop_esp_migrated).
Proof.
  refine (proj1 (proj2 (migrate_then_sealed "i386" inputs.constants_i386 inputs.abi_syscall
                          inputs.abi_sigreturn inputs.abi_i386
                          (rop.NBValue (VInt 0x2000)) inputs.rop_pop_esp rop_pop_esp_migrated _))
                (rop.RInt 0x8048420) [] None).
  vm_compute; reflexivity.
Defined.

Lemma call_resolved_witness :
  rop.call "i386" inputs.constants_i386 inputs.abi_syscall inputs.abi_sigreturn inputs.abi_i386
           (rop.RStr "system") [VInt 1] None inputs.rop_with_symbol
  = (Ok tt, rop.set_chain [rop.ECall (rop.mkCall "system" (VInt 0x8048420) [VInt 1]
                                                 inputs.abi_i386)]
                          inputs.rop_with_symbol).
Proof.
  refine (call_resolved "i386" inputs.constants_i386 inputs.abi_syscall inputs.abi_sigreturn
            inputs.abi_i386 inputs.rop_with_symbol (rop.RStr "system") [VInt 1] None 0x8048420
            _ _ _);
    vm_compute; first [reflexivity | discriminate].
Defined.

(** ** build: the second pass and chains of plain values *)

Section BuildMore.
Import rop.

Variable context_bytes : Z.
Variable cyclic : Z -> bytes.
Variable appended_resolve : list Value -> Z -> list Value.
Variable classify : Gadget -> option Gadget.
Variable verify_path : list Gadget -> list (string * Value) -> option (Z * list (Z * Z)).
Variable randint : nat -> Z.

(** What the second pass leaves in slot [i] for a slot that is no appended
    argument. *)
Definition resolve_slot (start : Z) (i : nat) (slot : Value) : Value :=
  match slot with
  | VCurrentStackPointer => VInt (start + Z.of_nat i * context_bytes)
  | VPadding => VStr (generatePadding cyclic (Z.of_nat i * context_bytes) context_bytes)
  | VGadget g => VInt (address g)
  | _ => slot
  end.

Definition is_appended (v : Value) : bool :=
  match v with
  | VAppendedArgument _ => true
  | _ => false
  end.

(** The slots that the second pass replaces. *)
Definition is_symbolic (v : Value) : bool :=
  match v with
  | VCurrentStackPointer | VPadding | VGadget _ | VAppendedArgument _ => true
  | _ => false
  end.

Lemma resolve_slot_not_symbolic start i v :
  is_appended v = false -> is_symbolic (resolve_slot start i v) = false.
Proof. now destruct v. Qed.

Lemma pass2_from fuel start i stack :
  Forall (fun v => is_appended v = false) (drop i stack) ->
  (length stack - i < fuel)%nat ->
  pass2 context_bytes cyclic appended_resolve fuel start i stack
  = Ok (take i stack ++ imap (fun n => resolve_slot start (i + n)) (drop i stack)).
Proof.
  revert i stack. induction fuel as [|fuel IH]; intros i stack Hall Hfuel; [lia|].
  cbn [pass2]. destruct (stack !! i) as [slot|] eqn:Hi.
  - pose proof (lookup_lt_Some _ _ _ Hi) as Hlt.
    rewrite (drop_S _ _ _ Hi) in Hall |- *. apply Forall_cons in Hall as [Hslot Hall].
    set (stack' := <[i := resolve_slot start i slot]> stack).
    assert (Hstack : match slot with
                     | VAppendedArgument vs =>
                         <[i := VInt (next context_bytes start stack)]> stack
                         ++ appended_resolve vs (next context_bytes start stack)
                     | VCurrentStackPointer =>
                         <[i := VInt (start + Z.of_nat i * context_bytes)]> stack
                     | VPadding =>
                         <[i := VStr (generatePadding cyclic (Z.of_nat i * context_bytes)
                                                      context_bytes)]> stack
                     | VGadget g => <[i := VInt (address g)]> stack
                     | _ => stack
                     end = stack').
    { subst stack'. destruct slot; cbn [resolve_slot]; try discriminate;
        try reflexivity; symmetry; now apply list_insert_id. }
    rewrite Hstack. rewrite IH.
    + subst stack'. rewrite drop_insert_lt by lia.
      rewrite (take_S_r _ _ (resolve_slot start i slot)).
      * rewrite take_insert_ge by lia. rewrite <- app_assoc. cbn [app].
        rewrite imap_cons. rewrite Nat.add_0_r. do 3 f_equal.
        apply imap_ext. intros n v _. cbn. f_equal. lia.
      * apply list_lookup_insert_eq. exact Hlt.
    + subst stack'. now rewrite drop_insert_lt by lia.
    + subst stack'. rewrite length_insert. lia.
  - apply lookup_ge_None in Hi. rewrite drop_ge, take_ge by lia. cbn.
    now rewrite app_nil_r.
Qed.

(** X12: where no slot is an appended argument, the second pass works in place:
    it returns as many slots as it is given, with every gadget replaced by
    its address, every stack-pointer marker by the address of its slot and
    every padding marker by filler bytes, and every other slot as it was;
    one step of fuel per slot and one more suffice. *)
Theorem pass2_in_place fuel start stack :
  Forall (fun v => is_appended v = false) stack ->
  (length stack < fuel)%nat ->
  pass2 context_bytes cyclic appended_resolve fuel start 0 stack
  = Ok (imap (resolve_slot start) stack)
  /\ length (imap (resolve_slot start) stack) = length stack
  /\ Forall (fun v => is_symbolic v = false) (imap (resolve_slot start) stack).
Proof.
  intros Hall Hfuel. split; [|split].
  - rewrite pass2_from; [reflexivity | exact Hall | cbn; lia].
  - apply length_imap.
  - apply Forall_lookup. intros i v Hi. rewrite list_lookup_imap in Hi.
    destruct (stack !! i) as [slot|] eqn:Hs; [|discriminate]. cbn in Hi. injection Hi as <-.
    apply resolve_slot_not_symbolic. exact (proj1 (Forall_lookup _ _) Hall i slot Hs).
Qed.

Lemma pass2_steps fuel start done pre rest :
  Forall (fun v => is_appended v = false) pre ->
  pass2 context_bytes cyclic appended_resolve (length pre + fuel) start (length done)
        (done ++ pre ++ rest)
  = pass2 context_bytes cyclic appended_resolve fuel start (length done + length pre)
          (done ++ imap (fun n => resolve_slot start (length done + n)) pre ++ rest).
Proof.
  intros Hall. revert done. induction Hall as [|v pre Hv _ IH]; intros done.
  - cbn. now rewrite Nat.add_0_r.
  - cbn [length Nat.add pass2 app].
    rewrite lookup_app_r by lia. rewrite Nat.sub_diag. cbn [lookup list_lookup].
    set (stack := done ++ v :: pre ++ rest).
    assert (Hstack : match v with
                     | VAppendedArgument vs =>
                         <[length done := VInt (next context_bytes start stack)]> stack
                         ++ appended_resolve vs (next context_bytes start stack)
                     | VCurrentStackPointer =>
                         <[length done := VInt (start + Z.of_nat (length done) * context_bytes)]>
                           stack
                     | VPadding =>
                         <[length done := VStr (generatePadding
                                                  cyclic (Z.of_nat (length done) * context_bytes)
                                                  context_bytes)]> stack
                     | VGadget g => <[length done := VInt (address g)]> stack
                     | _ => stack
                     end = (done ++ [resolve_slot start (length done) v]) ++ pre ++ rest).
    { subst stack. rewrite <- app_assoc. cbn [app].
      destruct v; cbn [resolve_slot]; try discriminate; try reflexivity;
        rewrite insert_app_r_alt by lia; rewrite Nat.sub_diag; reflexivity. }
    rewrite Hstack. replace (S (length done)) with (length (done ++ [resolve_slot start (length done) v]))
      by (rewrite length_app; cbn; lia).
    rewrite IH. rewrite length_app. cbn [length].
    rewrite imap_cons, Nat.add_0_r, <- !app_assoc. cbn [app].
    f_equal; [lia|]. do 3 f_equal. apply imap_ext. intros n x _. cbn. f_equal. lia.
Qed.

(** X13: an appended argument among slots that are none: the second pass puts
    what it resolves to at the end of the stack and, in its place, the
    address of that end, so that the slot points at its values; the values
    are then resolved like every other slot. *)
Theorem pass2_appended_argument fuel start pre vs post :
  let stack := pre ++ VAppendedArgument vs :: post in
  let values := appended_resolve vs (next context_bytes start stack) in
  Forall (fun v => is_appended v = false) (pre ++ post ++ values) ->
  (length stack + length values < fuel)%nat ->
  pass2 context_bytes cyclic appended_resolve fuel start 0 stack
  = Ok (imap (resolve_slot start)
             (pre ++ VInt (start + Z.of_nat (length stack) * context_bytes) :: post ++ values)).
Proof.
  intros stack values Hall Hfuel.
  apply Forall_app in Hall as [Hpre Hrest].
  subst stack. rewrite length_app in Hfuel. cbn [length] in Hfuel.
  replace fuel with (length pre + S (fuel - length pre - 1))%nat by lia.
  pose proof (pass2_steps (S (fuel - length pre - 1)) start [] pre
                          (VAppendedArgument vs :: post) Hpre) as Hsteps.
  cbn [app length Nat.add] in Hsteps. rewrite Hsteps. clear Hsteps.
  change (fun n => resolve_slot start n) with (resolve_slot start).
  set (P := imap (resolve_slot start) pre).
  assert (HP : length P = length pre) by apply length_imap.
  cbn [pass2]. rewrite lookup_app_r by lia.
  rewrite HP, Nat.sub_diag. cbn [lookup list_lookup].
  assert (Hnext : next context_bytes start (P ++ VAppendedArgument vs :: post)
                  = next context_bytes start (pre ++ VAppendedArgument vs :: post)).
  { unfold next. now rewrite !length_app, HP. }
  rewrite Hnext. fold values.
  rewrite insert_app_r_alt by lia.
  rewrite HP, Nat.sub_diag. cbn [insert list_insert].
  set (x := VInt (next context_bytes start (pre ++ VAppendedArgument vs :: post))).
  assert (Hsplit : (P ++ x :: post) ++ values = (P ++ [x]) ++ post ++ values).
  { rewrite <- !app_assoc. reflexivity. }
  assert (Hlen : length (P ++ [x]) = S (length pre)).
  { rewrite length_app, HP. cbn. lia. }
  rewrite Hsplit, <- Hlen. rewrite pass2_from.
  - rewrite take_app_length, drop_app_length, Hlen. f_equal.
    rewrite (imap_app _ pre), imap_cons, <- app_assoc. cbn [app]. fold P.
    f_equal. rewrite Nat.add_0_r. cbn [resolve_slot]. f_equal.
    apply imap_ext. intros n v _. cbn. f_equal. lia.
  - rewrite drop_app_length. exact Hrest.
  - rewrite Hlen, length_app, Hlen, length_app. lia.
Qed.

(** A value that the first pass puts on the stack as it is. *)
Definition plain (v : Value) : bool :=
  match v with
  | VStr _ | VAppendedArgument _ => false
  | _ => true
  end.

Lemma pass1_plain fuel start vs stack self :
  Forall (fun v => plain v = true) vs ->
  pass1 context_bytes cyclic classify verify_path randint fuel start (map EValue vs) stack self
  = (Ok (stack ++ vs), self).
Proof.
  intros Hall. revert stack. induction Hall as [|v vs Hv _ IH]; intros stack.
  - cbn. now rewrite app_nil_r.
  - cbn [map pass1].
    assert (Hstep : (match v with
                     | VInt z => ret (stack ++ [VInt z])
                     | VStr s => lift (pass1_str context_bytes cyclic start s stack)
                     | _ => ret (stack ++ [v])
                     end : M ROP (list Value)) self = (Ok (stack ++ [v]), self)).
    { destruct v; try reflexivity; discriminate. }
    rewrite (bind_ok _ _ _ _ _ Hstep). rewrite IH. now rewrite <- app_assoc.
Qed.

Lemma pass1_call_extends fuel start slot remaining stack self stack' self' :
  pass1_call context_bytes classify verify_path randint fuel start slot remaining stack self
  = (Ok stack', self') ->
  exists new, stack' = stack ++ new.
Proof.
  unfold pass1_call. unfold bind at 1.
  destruct (setRegisters _ _ _ _ _ self) as [[groups|e] s1]; [|discriminate].
  unfold bind at 1, lift.
  destruct (extend_with_groups _ groups stack) as [stack1|e] eqn:E1; [|discriminate].
  apply extend_with_groups_ok in E1 as ->.
  unfold bind at 1.
  destruct (returns (abi slot)).
  - destruct (negb (remaining =? 0)%nat).
    + unfold bind at 1, get.
      destruct (search _ [] size s1) as [adjust|]; [|discriminate].
      unfold bind at 1, lift. destruct (range_len _ _ _) as [pads|e]; [|discriminate].
      cbn. intros [= <- _]. rewrite <- !app_assoc. eauto.
    + cbn. intros [= <- _]. rewrite <- !app_assoc. eauto.
  - cbn. intros [= <- _]. rewrite <- !app_assoc. eauto.
Qed.

(** X14: the first pass only appends: whatever the chain holds, the slots that
    are on the stack stay where they are, so that an address taken for a
    slot stays right. *)
Theorem pass1_extends fuel start chain stack self stack' self' :
  pass1 context_bytes cyclic classify verify_path randint fuel start chain stack self
  = (Ok stack', self') ->
  exists new, stack' = stack ++ new.
Proof.
  revert stack self. induction chain as [|slot chain IH]; intros stack self.
  - cbn. intros [= <- _]. exists []. now rewrite app_nil_r.
  - cbn [pass1]. unfold bind at 1.
    match goal with |- context [match ?c self with _ => _ end] =>
      destruct (c self) as [[stack1|e] s1] eqn:E1 end; [|discriminate].
    intros H. apply IH in H as [new ->].
    assert (H1 : exists new1, stack1 = stack ++ new1).
    { destruct slot as [v | c | f].
      - destruct v; try (injection E1 as <- _; eauto).
        unfold lift, pass1_str in E1. destruct (context_bytes =? 0); [discriminate|].
        injection E1 as <- _. eauto.
      - eapply pass1_call_extends. exact E1.
      - unfold lift, pass1_frame in E1.
        destruct ((let* rs := srop.frame_registers in srop.mapM srop.__getitem__ rs) f)
          as [[values|e] f']; [|discriminate].
        injection E1 as <- _. eauto. }
    destruct H1 as [new1 ->]. exists (new1 ++ new). now rewrite app_assoc.
Qed.

(** X15: on a chain of raw values other than byte blobs and appended arguments,
    [build] returns one slot for each value, in the order of the chain, with
    the gadgets, stack-pointer markers and padding markers resolved, at the
    base given or else at the base of the object or else at 0; it does not
    change the object. *)
Theorem build_plain_chain fuel base self vs :
  _chain self = map EValue vs ->
  Forall (fun v => plain v = true) vs ->
  (length vs < fuel)%nat ->
  let b := match base with
           | None => default 0 (rop.base self)
           | Some b => b
           end in
  build context_bytes cyclic appended_resolve classify verify_path randint fuel base self
  = (Ok (mkStack b (imap (resolve_slot b) vs)), self).
Proof.
  intros Hchain Hall Hfuel b. unfold build. unfold bind at 1, get. fold b.
  rewrite Hchain. rewrite (bind_ok _ _ _ _ _ (pass1_plain fuel b vs [] self Hall)).
  cbn [app]. unfold bind, lift.
  rewrite pass2_from; [reflexivity | | cbn; lia].
  cbn. eapply Forall_impl; [exact Hall|]. intros v Hv. now destruct v.
Qed.

End BuildMore.

Lemma pass2_in_place_witness :
  rop.pass2 4 inputs.cyclic_a inputs.resolve_flat 5 0x1000 0
            [VGadget inputs.pop_eax; VInt 1; VPadding; VCurrentStackPointer]
  = Ok [VInt 0x804805b; VInt 1; VStr (list_ascii_of_string "aaaa"); VInt 0x100c].
Proof.
  refine (eq_trans (proj1 (pass2_in_place 4 inputs.cyclic_a inputs.resolve_flat 5 0x1000
                             [VGadget inputs.pop_eax; VInt 1; VPadding; VCurrentStackPointer]
                             _ _)) _).
  - repeat constructor.
  - cbn. lia.
  - vm_compute. reflexivity.
Defined.

Lemma pass2_appended_argument_witness :
  rop.pass2 4 inputs.cyclic_a inputs.resolve_flat 6 0x1000 0
            [VInt 1; VAppendedArgument [VInt 7; VInt 8]; VGadget inputs.pop_eax]
  = Ok [VInt 1; VInt 0x100c; VInt 0x804805b; VInt 7; VInt 8].
Proof.
  refine (eq_trans (pass2_appended_argument 4 inputs.cyclic_a inputs.resolve_flat 6 0x1000
                      [VInt 1] [VInt 7; VInt 8] [VGadget inputs.pop_eax] _ _) _).
  - repeat constructor.
  - cbn. lia.
  - vm_compute. reflexivity.
Defined.

Lemma pass1_extends_witness :
  exists new,
    [VInt 1; VStr (list_ascii_of_string "abcd"); VStr (list_ascii_of_string "efga");
     VStr (list_ascii_of_string "aa")]
    = [VInt 1] ++ new.
Proof.
  refine (pass1_extends 4 inputs.cyclic_a inputs.classify_all inputs.verify_one_pop
            inputs.randint_seq 3 0
            [rop.EValue (VStr (list_ascii_of_string "abcdefg"))] [VInt 1] inputs.rop_pop_eax
            [VInt 1; VStr (list_ascii_of_string "abcd"); VStr (list_ascii_of_string "efga");
             VStr (list_ascii_of_string "aa")]
            inputs.rop_pop_eax _).
  vm_compute. reflexivity.
Defined.

(** A chain of a gadget, a word, a padding marker and a stack-pointer
    marker. *)
Definition rop_plain : rop.ROP :=
  rop.set_chain (map rop.EValue [VGadget inputs.pop_eax; VInt 1; VPadding; VCurrentStackPointer])
                inputs.rop_pop_eax.

Lemma build_plain_chain_witness :
  rop.build 4 inputs.cyclic_a inputs.resolve_flat inputs.classify_all inputs.verify_one_pop
            inputs.randint_seq 5 (Some 0x1000) rop_plain
  = (Ok (rop.mkStack 0x1000 [VInt 0x804805b; VInt 1; VStr (list_ascii_of_string "aaaa");
                            VInt 0x100c]),
     rop_plain).
Proof.
  refine (eq_trans (build_plain_chain 4 inputs.cyclic_a inputs.resolve_flat inputs.classify_all
                      inputs.verify_one_pop inputs.randint_seq 5 (Some 0x1000) rop_plain
                      [VGadget inputs.pop_eax; VInt 1; VPadding; VCurrentStackPointer]
                      _ _ _) _).
  - reflexivity.
  - repeat constructor.
  - cbn. lia.
  - vm_compute. reflexivity.
Defined.

(** ** The path search in the gadget graph *)

Section FindPathMore.
Import rop.

Variable graph : list (Gadget * list Gadget).

(** [b] is a successor of [a]. *)
Definition edge (a b : Gadget) : Prop :=
  exists succs, dict_get a graph = Some succs /\ b ∈ succs.

(** Every node of the list is a successor of the one before it. *)
Fixpoint walk (l : list Gadget) : Prop :=
  match l with
  | a :: (b :: _) as l' => edge a b /\ walk l'
  | _ => True
  end.

(** A path that continues [path] from [start]: it follows the edges of the
    graph to [end_] and comes to no node twice, nor to a node of [path] or
    to [start] again. *)
Definition simple_path (end_ : Gadget) (path : list Gadget) (start : Gadget)
    (p : list Gadget) : Prop :=
  exists tail,
    p = path ++ start :: tail
    /\ last (start :: tail) = Some end_
    /\ walk (start :: tail)
    /\ NoDup tail
    /\ forall n, n ∈ tail -> n ∉ path ++ [start].

(** The body of the loop over the successors. *)
Definition visit (fuel : nat) (end_ : Gadget) (path : list Gadget)
    (acc : Result (list (list Gadget))) (node : Gadget) : Result (list (list Gadget)) :=
  match acc with
  | Raise e => Raise e
  | Ok yielded =>
      if bool_decide (node ∈ path) then Ok yielded
      else
        match __find_path fuel graph node end_ path with
        | Raise e => Raise e
        | Ok new_paths => Ok (yielded ++ filter (fun p => p ≠ []) new_paths)
        end
  end.

Lemma find_path_eq fuel start end_ path :
  __find_path (S fuel) graph start end_ path
  = match dict_get start graph with
    | None => Ok (if bool_decide (start = end_) then [path ++ [start]] else [])
    | Some succs =>
        fold_left (visit fuel end_ (path ++ [start])) succs
                  (Ok (if bool_decide (start = end_) then [path ++ [start]] else []))
    end.
Proof. reflexivity. Qed.

Lemma visit_raise fuel end_ path e l :
  fold_left (visit fuel end_ path) l (Raise e) = Raise e.
Proof. induction l as [|n l IH]; [reflexivity | exact IH]. Qed.

(** What the loop has yielded when it ends. *)
Lemma visit_fold fuel end_ path l yielded ps :
  fold_left (visit fuel end_ path) l (Ok yielded) = Ok ps ->
  forall p, p ∈ ps <->
    p ∈ yielded
    \/ exists node new_paths,
         node ∈ l /\ (node ∉ path)
         /\ __find_path fuel graph node end_ path = Ok new_paths
         /\ p ∈ new_paths /\ p ≠ [].
Proof.
  revert yielded. induction l as [|n l IH]; intros yielded; cbn [fold_left].
  - intros [= <-] p. split; [now left|].
    intros [Hp | (node & _ & Hin & _)]; [exact Hp | inversion Hin].
  - unfold visit at 2. case_bool_decide as Hn.
    + intros H p. rewrite (IH _ H p). split.
      * intros [Hp | (node & nps & Hin & Hrest)]; [now left|].
        right. exists node, nps. split; [now right | exact Hrest].
      * intros [Hp | (node & nps & Hin & Hnot & Hrest)]; [now left|].
        right. exists node, nps. apply elem_of_cons in Hin as [-> | Hin]; [done|].
        split; [exact Hin|]. split; [exact Hnot | exact Hrest].
    + destruct (__find_path fuel graph n end_ path) as [nps|e] eqn:En;
        [|rewrite visit_raise; discriminate].
      intros H p. rewrite (IH _ H p). rewrite elem_of_app, list_elem_of_filter. split.
      * intros [[Hp | [Hne Hp]] | (node & nps' & Hin & Hrest)].
        -- now left.
        -- right. exists n, nps. repeat split; [left | exact Hn | exact En | exact Hp | exact Hne].
        -- right. exists node, nps'. split; [now right | exact Hrest].
      * intros [Hp | (node & nps' & Hin & Hnot & Hf & Hp & Hne)]; [left; now left|].
        apply elem_of_cons in Hin as [-> | Hin].
        -- rewrite En in Hf. injection Hf as <-. left. right. now split.
        -- right. exists node, nps'. repeat split; assumption.
Qed.

Lemma find_path_yields fuel start end_ path ps :
  __find_path fuel graph start end_ path = Ok ps ->
  forall p, p ∈ ps <-> simple_path end_ path start p.
Proof.
  revert start path ps. induction fuel as [|fuel IH]; intros start path ps; [discriminate|].
  rewrite find_path_eq.
  set (here := if bool_decide (start = end_) then [path ++ [start]] else []).
  assert (Hhere : forall p, p ∈ here <-> p = path ++ [start] /\ start = end_).
  { intros p. subst here. case_bool_decide as He.
    - rewrite list_elem_of_singleton. tauto.
    - split; [intros H; inversion H | tauto]. }
  assert (Hnil : forall p, p = path ++ [start] /\ start = end_
                           <-> (simple_path end_ path start p
                                /\ exists tail, p = path ++ start :: tail /\ tail = [])).
  { intros p. split.
    - intros [-> ->]. split; [|now exists []].
      exists []. repeat split; [constructor | intros n Hn; inversion Hn].
    - intros [(tail & -> & Hlast & _) (tail' & Heq & ->)].
      apply app_inv_head in Heq. injection Heq as ->. cbn in Hlast.
      injection Hlast as ->. now split. }
  destruct (dict_get start graph) as [succs|] eqn:Eg.
  - intros Hfold p. rewrite (visit_fold _ _ _ _ _ _ Hfold p), Hhere, Hnil. split.
    + intros [[Hs _] | (node & nps & Hin & Hnot & Hf & Hp & _)]; [exact Hs|].
      apply (IH _ _ _ Hf) in Hp as (tail & -> & Hlast & Hwalk & Hnd & Hfresh).
      exists (node :: tail). split; [now rewrite <- app_assoc|].
      split; [exact Hlast|]. split; [|split].
      * split; [|exact Hwalk]. now exists succs.
      * apply NoDup_cons. split; [|exact Hnd].
        intros Hc. apply (Hfresh _ Hc), elem_of_app. right. left.
      * intros n Hn. apply elem_of_cons in Hn as [-> | Hn]; [exact Hnot|].
        intros Hc. apply (Hfresh _ Hn), elem_of_app. now left.
    + intros Hs. pose proof Hs as (tail & -> & Hlast & Hwalk & Hnd & Hfresh).
      destruct tail as [|node tail]; [left; split; [exact Hs | now exists []]|].
      right. destruct Hwalk as [(succs' & Eg' & Hin) Hwalk].
      rewrite Eg in Eg'. injection Eg' as <-.
      apply NoDup_cons in Hnd as [Hnode Hnd].
      assert (Hnot : node ∉ path ++ [start]) by (apply Hfresh; left).
      destruct (__find_path fuel graph node end_ (path ++ [start])) as [nps|e] eqn:Ef.
      * exists node, nps. split; [exact Hin|]. split; [exact Hnot|].
        split; [exact Ef|]. split.
        -- apply (IH _ _ _ Ef). exists tail. split; [now rewrite <- app_assoc|].
           split; [exact Hlast|]. split; [exact Hwalk|]. split; [exact Hnd|].
           intros n Hn Hc. apply elem_of_app in Hc as [Hc | Hc].
           ++ apply (Hfresh n); [now right | exact Hc].
           ++ apply list_elem_of_singleton in Hc as ->. done.
        -- now destruct path.
      * exfalso. clear -Hfold Hin Hnot Ef.
        revert Hfold. generalize (Ok here). induction succs as [|n succs IHs]; intros acc.
        -- inversion Hin.
        -- cbn [fold_left]. apply elem_of_cons in Hin as [<- | Hin]; [|now apply IHs].
           destruct acc as [y|e']; [|cbn; now rewrite visit_raise].
           unfold visit at 2. rewrite bool_decide_eq_false_2 by exact Hnot.
           rewrite Ef. now rewrite visit_raise.
  - intros [= <-] p. rewrite Hhere, Hnil. split; [tauto|].
    intros Hs. split; [exact Hs|].
    destruct Hs as (tail & -> & _ & Hwalk & _). exists tail. split; [reflexivity|].
    destruct tail as [|node tail]; [reflexivity|].
    destruct Hwalk as [(succs & Eg' & _) _]. congruence.
Qed.

(** X16: the search yields the simple paths from [start] to [end_] that continue
    [path], and nothing else. *)
Theorem find_path_simple_paths fuel start end_ path ps :
  __find_path fuel graph start end_ path = Ok ps ->
  forall p, p ∈ ps <-> simple_path end_ path start p.
Proof. apply find_path_yields. Qed.

(** The nodes that a path of the search can still come to. *)
Definition unvisited (path : list Gadget) : list Gadget :=
  filter (fun n => n ∉ path) (flat_map snd graph).

Lemma dict_get_elem {K V} `{EqDecision K} (k : K) (d : list (K * V)) v :
  dict_get k d = Some v -> (k, v) ∈ d.
Proof.
  induction d as [|[k' v'] d IH]; [discriminate|]. cbn.
  destruct (decide (k = k')) as [<-|]; [intros [= <-]; left | intros H; right; auto].
Qed.

Lemma unvisited_less path node :
  node ∈ flat_map snd graph -> node ∉ path ->
  (length (unvisited (path ++ [node])) < length (unvisited path))%nat.
Proof.
  unfold unvisited. generalize (flat_map snd graph). intros l Hin Hnot.
  assert (Hle : forall l', (length (filter (fun n => n ∉ path ++ [node]) l')
                            <= length (filter (fun n => n ∉ path) l'))%nat).
  { induction l' as [|x l' IH]; [reflexivity|]. rewrite !filter_cons.
    destruct (decide (x ∉ path ++ [node])) as [Hx|Hx].
    - rewrite decide_True; [cbn; lia|]. intros Hc. apply Hx, elem_of_app. now left.
    - destruct (decide (x ∉ path)); cbn; lia. }
  induction l as [|x l IH]; [inversion Hin|]. rewrite !filter_cons.
  apply elem_of_cons in Hin as [<- | Hin].
  - rewrite decide_False, decide_True by (rewrite ?elem_of_app, ?list_elem_of_singleton; tauto).
    specialize (Hle l). cbn. lia.
  - specialize (IH Hin).
    destruct (decide (x ∉ path ++ [node])) as [Hx|Hx].
    + rewrite decide_True; [cbn; lia|]. intros Hc. apply Hx, elem_of_app. now left.
    + destruct (decide (x ∉ path)); cbn; lia.
Qed.

Lemma find_path_fuel fuel start end_ path :
  (length (unvisited (path ++ [start])) < fuel)%nat ->
  exists ps, __find_path fuel graph start end_ path = Ok ps.
Proof.
  revert start path. induction fuel as [|fuel IH]; intros start path Hfuel; [lia|].
  rewrite find_path_eq. destruct (dict_get start graph) as [succs|] eqn:Eg; [|eauto].
  assert (Hsub : forall n, n ∈ succs -> n ∈ flat_map snd graph).
  { intros n Hn. apply list_elem_of_In, in_flat_map. exists (start, succs).
    split; [apply list_elem_of_In; now apply dict_get_elem | now apply list_elem_of_In]. }
  clear Eg. revert Hsub.
  generalize (if bool_decide (start = end_) then [path ++ [start]] else []).
  induction succs as [|n succs IHs]; intros yielded Hsub; cbn [fold_left]; [eauto|].
  unfold visit at 2. case_bool_decide as Hn.
  - apply IHs. intros n' Hn'. apply Hsub. now right.
  - destruct (IH n (path ++ [start])) as [nps ->].
    + pose proof (unvisited_less (path ++ [start]) n (Hsub n (list_elem_of_here _ _)) Hn). lia.
    + apply IHs. intros n' Hn'. apply Hsub. now right.
Qed.

(** X17: the search comes to an end: more steps of fuel than the graph has edges
    are enough for a result, whatever the graph, cycles included. *)
Theorem find_path_terminates fuel start end_ path :
  (length (flat_map snd graph) < fuel)%nat ->
  exists ps, __find_path fuel graph start end_ path = Ok ps.
Proof.
  intros Hfuel. apply find_path_fuel.
  unfold unvisited. pose proof (length_filter (fun n => n ∉ path ++ [start]) (flat_map snd graph)).
  lia.
Qed.

End FindPathMore.

Lemma find_path_simple_paths_witness :
  simple_path inputs.cyclic_graph inputs.leave_ret [] inputs.pop_eax
              [inputs.pop_eax; inputs.pop_ebp; inputs.leave_ret].
Proof.
  refine (proj1 (find_path_simple_paths inputs.cyclic_graph 4 inputs.pop_eax inputs.leave_ret []
                   [[inputs.pop_eax; inputs.pop_ebp; inputs.leave_ret];
                    [inputs.pop_eax; inputs.leave_ret]] _ _) _).
  - vm_compute. reflexivity.
  - left.
Defined.

Lemma find_path_terminates_witness :
  exists ps, rop.__find_path 5 inputs.cyclic_graph inputs.pop_eax inputs.leave_ret [] = Ok ps.
Proof.
  refine (find_path_terminates inputs.cyclic_graph 5 inputs.pop_eax inputs.leave_ret [] _).
  cbn. lia.
Defined.

(** ** The gadget graph *)

Section GraphMore.
Import rop.

Lemma dict_get_set_eq {K V} `{EqDecision K} (k : K) (v : V) d :
  dict_get k (dict_set k v d) = Some v.
Proof.
  induction d as [|[k' v'] d IH]; cbn.
  - now rewrite decide_True.
  - destruct (decide (k = k')) as [->|Hne]; cbn.
    + now rewrite decide_True.
    + now rewrite decide_False.
Qed.

Lemma dict_get_set_ne {K V} `{EqDecision K} (k k0 : K) (v : V) d :
  k0 <> k -> dict_get k0 (dict_set k v d) = dict_get k0 d.
Proof.
  intros Hne. induction d as [|[k' v'] d IH]; cbn.
  - now rewrite decide_False.
  - destruct (decide (k = k')) as [->|Hne']; cbn.
    + now rewrite !decide_False.
    + destruct (decide (k0 = k')); [reflexivity | exact IH].
Qed.

Lemma set_add_elem {K} `{EqDecision K} (x k : K) s : x ∈ set_add k s <-> x = k \/ x ∈ s.
Proof.
  unfold set_add. case_bool_decide as Hk.
  - split; [now right | intros [-> | H]; assumption].
  - rewrite elem_of_app, list_elem_of_singleton. tauto.
Qed.

(** A register that [g1] writes is one that [g2] reads, both taken by their
    last two letters. *)
Definition feeds (g1 g2 : Gadget) : Prop :=
  exists r, r ∈ inputs_of g2 /\ r ∈ outputs_of g1.

Lemma inter_nonempty g1 g2 :
  (0 <? length (intersection (to_set (inputs_of g2)) (to_set (outputs_of g1))))%nat = true
  <-> feeds g1 g2.
Proof.
  rewrite Nat.ltb_lt. unfold feeds, intersection. split.
  - destruct (filter _ _) as [|r l] eqn:E; [cbn; lia|]. intros _.
    assert (Hr : r ∈ filter (fun k => k ∈ to_set (outputs_of g1)) (to_set (inputs_of g2)))
      by (rewrite E; left).
    apply list_elem_of_filter in Hr as [Ho Hi].
    exists r. split; now apply to_set_elem_iff.
  - intros (r & Hi & Ho).
    assert (Hr : r ∈ filter (fun k => k ∈ to_set (outputs_of g1)) (to_set (inputs_of g2))).
    { apply list_elem_of_filter. split; now apply to_set_elem. }
    destruct (filter _ _); [inversion Hr | cbn; lia].
Qed.

(** The inner loop of [build_graph], over [gad_2]. *)
Definition add_successors (gad_1 : Gadget) (gs : list Gadget)
    (gadget_graph : list (Gadget * list Gadget)) : list (Gadget * list Gadget) :=
  fold_left
    (fun gadget_graph gad_2 =>
       if bool_decide (gad_1 = gad_2) then gadget_graph
       else
         let inter := intersection (to_set (inputs_of gad_2)) (to_set (outputs_of gad_1)) in
         if (0 <? length inter)%nat then
           dict_set gad_1 (set_add gad_2 (default [] (dict_get gad_1 gadget_graph)))
                    gadget_graph
         else gadget_graph)
    gs gadget_graph.

Lemma add_successors_other gad_1 gs graph k :
  k <> gad_1 -> dict_get k (add_successors gad_1 gs graph) = dict_get k graph.
Proof.
  intros Hne. unfold add_successors. revert graph.
  induction gs as [|g2 gs IH]; intros graph; cbn [fold_left]; [reflexivity|].
  rewrite IH. case_bool_decide; [reflexivity|].
  destruct (0 <? _)%nat; [|reflexivity]. now apply dict_get_set_ne.
Qed.

Lemma add_successors_self gad_1 gs graph s :
  dict_get gad_1 graph = Some s ->
  exists s', dict_get gad_1 (add_successors gad_1 gs graph) = Some s'
             /\ forall g2, g2 ∈ s' <-> g2 ∈ s \/ (g2 ∈ gs /\ gad_1 <> g2 /\ feeds gad_1 g2).
Proof.
  unfold add_successors. revert graph s.
  induction gs as [|g gs IH]; intros graph s Hs; cbn [fold_left].
  - exists s. split; [exact Hs|]. intros g2. split; [now left|].
    intros [H | [H _]]; [exact H | inversion H].
  - case_bool_decide as Heq.
    + destruct (IH graph s Hs) as (s' & Hs' & Hiff). exists s'. split; [exact Hs'|].
      intros g2. rewrite Hiff, elem_of_cons. intuition (subst; first [congruence | auto]).
    + destruct (0 <? _)%nat eqn:Ei.
      * apply inter_nonempty in Ei.
        rewrite Hs. cbn [default].
        destruct (IH _ _ (dict_get_set_eq gad_1 (set_add g s) graph)) as (s' & Hs' & Hiff).
        exists s'. split; [exact Hs'|].
        intros g2. rewrite Hiff, set_add_elem, elem_of_cons. intuition (subst; first [congruence | auto]).
      * assert (Hno : ~ feeds gad_1 g).
        { intros Hf. apply inter_nonempty in Hf. congruence. }
        destruct (IH graph s Hs) as (s' & Hs' & Hiff). exists s'. split; [exact Hs'|].
        intros g2. rewrite Hiff, elem_of_cons. intuition (subst; first [congruence | auto]).
Qed.

Lemma build_graph_fold gs l graph :
  let out := fold_left (fun graph gad_1 => add_successors gad_1 gs (dict_set gad_1 [] graph))
                       l graph in
  (forall k, k ∉ l -> dict_get k out = dict_get k graph)
  /\ (forall g1, g1 ∈ l ->
        exists succs, dict_get g1 out = Some succs
                      /\ forall g2, g2 ∈ succs <-> g2 ∈ gs /\ g1 <> g2 /\ feeds g1 g2).
Proof.
  revert graph. induction l as [|g l IH]; intros graph; cbn [fold_left].
  - split; [reflexivity | intros g1 H; inversion H].
  - destruct (IH (add_successors g gs (dict_set g [] graph))) as [Hout Hin]. split.
    + intros k Hk. apply not_elem_of_cons in Hk as [Hne Hk].
      rewrite (Hout k Hk), add_successors_other by exact Hne.
      now apply dict_get_set_ne.
    + intros g1 Hg1. destruct (decide (g1 ∈ l)) as [Hl | Hl]; [now apply Hin|].
      apply elem_of_cons in Hg1 as [-> | Hg1]; [|done].
      rewrite (Hout g Hl).
      destruct (add_successors_self g gs _ [] (dict_get_set_eq g [] graph)) as (s' & Hs' & Hiff).
      exists s'. split; [exact Hs'|]. intros g2. rewrite Hiff. split; [|tauto].
      intros [H | H]; [inversion H | exact H].
Qed.

(** X18: the graph that [build_graph] returns has the gadgets of the object as
    its nodes, and an edge from a gadget to another one exactly where a
    register that the first writes is read by the second; no gadget leads to
    itself. *)
Theorem build_graph_edges self :
  (forall g, is_Some (dict_get g (build_graph self)) <-> g ∈ values (gadgets self))
  /\ (forall g1 succs, dict_get g1 (build_graph self) = Some succs ->
        (forall g2, g2 ∈ succs <-> g2 ∈ values (gadgets self) /\ g1 <> g2 /\ feeds g1 g2)
        /\ g1 ∉ succs).
Proof.
  pose proof (build_graph_fold (values (gadgets self)) (values (gadgets self)) []) as [Hout Hin].
  change (fold_left _ _ _) with (build_graph self) in Hout, Hin.
  split.
  - intros g. split.
    + intros Hsome. destruct (decide (g ∈ values (gadgets self))) as [H | H]; [exact H|].
      rewrite (Hout g H) in Hsome. now destruct Hsome.
    + intros Hg. destruct (Hin g Hg) as (succs & -> & _). now eexists.
  - intros g1 succs Hget.
    destruct (decide (g1 ∈ values (gadgets self))) as [H | H].
    + destruct (Hin g1 H) as (succs' & Hget' & Hiff). rewrite Hget in Hget'.
      injection Hget' as <-. split; [exact Hiff|]. intros Hc. apply Hiff in Hc. tauto.
    + now rewrite (Hout g1 H) in Hget.
Qed.

End GraphMore.

(** ** Sorting by a key *)

Lemma insert_by_elem {A} (k : A -> Z) (x y : A) l :
  y ∈ rop.insert_by k x l <-> y = x \/ y ∈ l.
Proof.
  induction l as [|z l IH]; cbn.
  - rewrite list_elem_of_singleton. split; [now left | intros [H | H]; [exact H | inversion H]].
  - destruct (k z <=? k x); rewrite !elem_of_cons, ?IH; tauto.
Qed.

Lemma sorted_by_elem {A} (k : A -> Z) (y : A) l : y ∈ rop.sorted_by k l <-> y ∈ l.
Proof.
  unfold rop.sorted_by.
  assert (H : forall acc, y ∈ fold_left (fun acc x => rop.insert_by k x acc) l acc
                          <-> y ∈ acc \/ y ∈ l).
  { induction l as [|x l IH]; intros acc; cbn.
    - split; [now left | intros [H | H]; [exact H | inversion H]].
    - rewrite IH, insert_by_elem, elem_of_cons. tauto. }
  rewrite H. split; [intros [Hc | Hc]; [inversion Hc | exact Hc] | now right].
Qed.

(** ** Frames: the pointers, get_spindex and get_frame *)

Section FramePointers.
Import srop srop_frame.

Variable flat1 : nat -> Value -> Result bytes.
Variable context_bytes : nat.

Lemma pointers_cases a rs :
  registers a = Some rs ->
  exists sp pc i,
    stack_pointers a = Some sp /\ instruction_pointers a = Some pc /\ sp <> pc
    /\ rop.index_of sp (context rs) = Some (Z.of_nat i) /\ context rs !! i = Some sp.
Proof.
  intros Hr. destruct (registers_cases _ _ Hr) as [-> | [-> | ->]]; injection Hr as <-.
  - exists "esp", "eip", 7%nat. repeat split; discriminate.
  - exists "rsp", "rip", 20%nat. repeat split; discriminate.
  - exists "sp", "pc", 21%nat. repeat split; discriminate.
Qed.

Lemma get_sp_eq f sp :
  stack_pointers (arch f) = Some sp ->
  get_sp f = (match items f !! sp with
              | Some v => Ok v
              | None => Raise KeyError
              end, f).
Proof. intros H. unfold get_sp, bind, get. rewrite H. apply getitem_eq. Qed.

Lemma get_pc_eq f pc :
  instruction_pointers (arch f) = Some pc ->
  get_pc f = (match items f !! pc with
              | Some v => Ok v
              | None => Raise KeyError
              end, f).
Proof. intros H. unfold get_pc, bind, get. rewrite H. apply getitem_eq. Qed.

(** X19: reading a pointer back: after [frame.sp = v] (or [frame.pc = v]) has
    gone through, [frame.sp] (or [frame.pc]) is [v] and the other pointer
    reads as before. *)
Theorem pointers_round_trip f v f' :
  (set_sp v f = (Ok tt, f') ->
   get_sp f' = (Ok v, f') /\ (get_pc f').1 = (get_pc f).1)
  /\ (set_pc v f = (Ok tt, f') ->
      get_pc f' = (Ok v, f') /\ (get_sp f').1 = (get_sp f).1).
Proof.
  unfold set_sp, set_pc. unfold bind, get.
  split; intros Hset.
  - destruct (stack_pointers (arch f)) as [sp|] eqn:Esp; [|discriminate].
    cbn [subscript ret] in Hset. apply setitem_ok_inv in Hset as [-> (rs & Hr & _)].
    destruct (pointers_cases _ _ Hr) as (sp' & pc & i & Hsp & Hpc & Hne & _).
    rewrite Esp in Hsp. injection Hsp as <-.
    rewrite (get_sp_eq _ sp), (get_pc_eq _ pc), (get_pc_eq f pc) by assumption.
    cbn [items set_items fst].
    rewrite lookup_insert_eq, lookup_insert_ne by exact Hne. split; reflexivity.
  - destruct (instruction_pointers (arch f)) as [pc|] eqn:Epc; [|discriminate].
    cbn [subscript ret] in Hset. apply setitem_ok_inv in Hset as [-> (rs & Hr & _)].
    destruct (pointers_cases _ _ Hr) as (sp & pc' & i & Hsp & Hpc & Hne & _).
    rewrite Epc in Hpc. injection Hpc as <-.
    rewrite (get_pc_eq _ pc), (get_sp_eq _ sp), (get_sp_eq f sp) by assumption.
    cbn [items set_items fst].
    rewrite lookup_insert_eq, lookup_insert_ne by (intros ->; now apply Hne).
    split; reflexivity.
Qed.

Lemma mapM_getitem_state rs f : (mapM __getitem__ rs f).2 = f.
Proof.
  induction rs as [|r rs IH]; [reflexivity|]. cbn [mapM]. unfold bind at 1.
  rewrite getitem_eq. destruct (items f !! r); [|reflexivity].
  unfold bind. destruct (mapM __getitem__ rs f) as [[vs|e] f'']; exact IH.
Qed.

(** [str(frame)] leaves the frame as it is. *)
Lemma str_state f : (__str__ flat1 f).2 = f.
Proof.
  unfold __str__, frame_registers. unfold bind at 1, get. unfold bind at 1.
  unfold bind at 1, get. unfold bind at 1.
  destruct (registers (arch f)) as [rs|]; [|reflexivity]. cbn [subscript ret].
  unfold bind. pose proof (mapM_getitem_state (context rs) f) as Hs.
  destruct (mapM __getitem__ (context rs) f) as [[vs|e] f'']; cbn in Hs; subst f'';
    reflexivity.
Qed.

(** X20: on i386 and amd64, whose layouts have no coprocessor blocks, and
    without names, [get_frame] is [str(frame)]: the names are not looked at,
    known or not. *)
Theorem get_frame_without_blocks f namedoffsets :
  arch f = "i386" \/ arch f = "amd64" \/ named namedoffsets = false ->
  get_frame flat1 context_bytes namedoffsets f = __str__ flat1 f.
Proof.
  intros Hcase. unfold get_frame, bind.
  pose proof (str_state f) as Hs.
  destruct (__str__ flat1 f) as [[s|e] f''] eqn:Estr; cbn in Hs; subst f''; [|reflexivity].
  unfold fix_offsets, bind, get.
  destruct (registers (arch f)) as [r|] eqn:Er.
  - cbn [subscript ret].
    destruct Hcase as [Ha | [Ha | Hn]].
    + rewrite Ha in Er. injection Er as <-. reflexivity.
    + rewrite Ha in Er. injection Er as <-. reflexivity.
    + rewrite Hn. cbn. now destruct (offsets r).
  - exfalso. unfold __str__, frame_registers, bind, get in Estr. rewrite Er in Estr.
    discriminate.
Qed.

Lemma collect_state {S} o names (s : S) : (collect o names s).2 = s.
Proof.
  induction names as [|key names IH]; [reflexivity|]. cbn [collect].
  destruct (offset_info_get o (upper key)); [|reflexivity].
  unfold bind. destruct (collect o names s) as [[vs|e] s']; exact IH.
Qed.

Lemma collect_unknown {S} o names (s : S) :
  (exists key, key ∈ names /\ offset_info_get o (upper key) = None) ->
  exists msg, collect o names s = (Raise (LogError msg), s).
Proof.
  induction names as [|key names IH]; intros (k & Hin & Hk); [inversion Hin|].
  cbn [collect]. destruct (offset_info_get o (upper key)) as [v|] eqn:Ev; [|now eexists].
  destruct IH as [msg Hmsg].
  { exists k. split; [|exact Hk]. apply elem_of_cons in Hin as [-> | Hin]; [congruence | exact Hin]. }
  exists msg. unfold bind. now rewrite Hmsg.
Qed.

(** The coprocessor blocks of the ARM layout, as [fix_offsets] reads
    them. *)
Definition arm_offsets : offsets_t :=
  {| off_base := 232;
     off_coproc := [("CRUNCH", (0x5065cf03, 0xa8)); ("IWMMXT", (0x12ef842a, 0x98));
                    ("VFPU", (0x56465001, 0x120))] |}.

Lemma fix_offsets_arm f frcontents namedoffsets :
  arch f = "arm" -> named namedoffsets = true ->
  fix_offsets flat1 context_bytes frcontents namedoffsets f
  = (let* offsetvals := collect arm_offsets (iterate namedoffsets) in
     let* offsetvals := lift (sort_keys offsetvals) in
     lift (_fixup flat1 context_bytes frcontents (rop.sorted_by snd offsetvals) 232)) f.
Proof.
  intros Ha Hn. unfold fix_offsets. unfold bind at 1, get. unfold bind at 1.
  rewrite Ha. cbn [registers String.eqb Ascii.eqb Bool.eqb subscript ret offsets].
  rewrite Hn. reflexivity.
Qed.

(** No string in capital letters is the key ['base']: the loop of
    [fix_offsets] never reads the base as a block. *)
Lemma upper_not_base key : upper key <> "base".
Proof.
  destruct key as [|c key]; [discriminate|]. cbn [upper]. intros [= Hc _].
  revert Hc. destruct c as [[] [] [] [] [] [] [] []]; vm_compute; discriminate.
Qed.

(** X21: on ARM, a name that is not one of [crunch], [iwmmxt] and [vfpu], in
    small or capital letters, makes [get_frame] fail with [log.error],
    whatever the other names are; the frame stays as it is. *)
Theorem get_frame_unknown_name f names key :
  arch f = "arm" -> key ∈ names ->
  upper key ∉ ["CRUNCH"; "IWMMXT"; "VFPU"] ->
  (exists s, (__str__ flat1 f).1 = Ok s) ->
  exists msg, get_frame flat1 context_bytes (NOList names) f = (Raise (LogError msg), f).
Proof.
  intros Ha Hin Hkey [s Hstr]. unfold get_frame, bind.
  pose proof (str_state f) as Hs.
  destruct (__str__ flat1 f) as [[s'|e] f''] eqn:Estr; cbn in Hs, Hstr; subst f'';
    [|discriminate].
  rewrite fix_offsets_arm; [|exact Ha|].
  2:{ destruct names; [inversion Hin | reflexivity]. }
  destruct (collect_unknown (S := SigreturnFrame) arm_offsets names f) as [msg Hmsg].
  { exists key. split; [exact Hin|]. unfold offset_info_get, arm_offsets. cbn [off_coproc].
    destruct (String.eqb_spec (upper key) "base") as [E|_]; [now apply upper_not_base in E|].
    cbn. repeat (case_decide as E; [rewrite E in Hkey; set_solver | clear E]). reflexivity. }
  exists msg. unfold bind. cbn [iterate]. now rewrite Hmsg.
Qed.

(** X22: on ARM, [get_frame] with a string for the names, as in
    [s.get_frame("vfpu")], fails with [log.error] on the first letter: the
    loop over the names takes a string letter by letter, and no letter is
    the name of a block. *)
Theorem get_frame_string_argument f c name s :
  arch f = "arm" -> (__str__ flat1 f).1 = Ok s ->
  get_frame flat1 context_bytes (NOStr (String c name)) f
  = (Raise (LogError ("Named offset '" ++ String (upper_ascii c) "" ++ "' not supported")), f).
Proof.
  intros Ha Hstr. unfold get_frame, bind.
  pose proof (str_state f) as Hs.
  destruct (__str__ flat1 f) as [[s'|e] f''] eqn:Estr; cbn in Hs, Hstr; subst f'';
    [|discriminate].
  rewrite fix_offsets_arm; [|exact Ha | reflexivity].
  unfold bind. cbn [iterate list_ascii_of_string map collect upper].
  assert (Hnone : offset_info_get arm_offsets (String (upper_ascii c) "") = None).
  { unfold offset_info_get, arm_offsets. cbn [off_coproc].
    destruct (String.eqb_spec (String (upper_ascii c) "") "base") as [E|_]; [discriminate|].
    cbn. repeat (case_decide as E; [discriminate | clear E]). reflexivity. }
  rewrite Hnone. reflexivity.
Qed.

Lemma fixup_loop_extends frcontents offsetvals out :
  _fixup_loop flat1 context_bytes frcontents offsetvals = Ok out ->
  (exists rest, out = frcontents ++ rest)
  /\ forall magicva size, (magicva, size) ∈ offsetvals -> size <= Z.of_nat (length out).
Proof.
  revert frcontents. induction offsetvals as [|[m sz] l IH]; intros fr; cbn [_fixup_loop].
  - intros [= <-]. split; [exists []; now rewrite app_nil_r|]. intros ? ? H. inversion H.
  - destruct (flat flat1 context_bytes [VInt m; VInt sz]) as [b|e]; [|discriminate].
    intros Hloop. apply IH in Hloop as [[rest ->] Hsizes]. split.
    + destruct (Z.of_nat (length (fr ++ b)) <? sz); rewrite <- !app_assoc; eauto.
    + intros magicva size Hin. apply elem_of_cons in Hin as [[= -> ->] | Hin]; [|eauto].
      rewrite length_app.
      destruct (Z.ltb_spec (Z.of_nat (length (fr ++ b))) sz) as [Hlt | Hge].
      * rewrite length_app. unfold filler. rewrite repeat_length. lia.
      * lia.
Qed.

Lemma collect_elem {S} o names (s : S) vs :
  (collect o names s).1 = Ok vs ->
  forall key, key ∈ names -> exists v, offset_info_get o (upper key) = Some v /\ v ∈ vs.
Proof.
  revert vs. induction names as [|k names IH]; intros vs; cbn [collect].
  - intros _ key H. inversion H.
  - destruct (offset_info_get o (upper k)) as [v|] eqn:Ev; [|discriminate].
    unfold bind. destruct (collect o names s) as [[vs'|e] s'] eqn:Ec; [|discriminate].
    cbn. intros [= <-] key Hin. apply elem_of_cons in Hin as [-> | Hin].
    + exists v. split; [exact Ev | left].
    + destruct (IH vs' eq_refl key Hin) as (v' & Hv' & Hin'). exists v'. split; [exact Hv'|].
      now right.
Qed.

Lemma sort_keys_elem l ps :
  sort_keys l = Ok ps -> forall v, v ∈ l -> exists p, v = inr p /\ p ∈ ps.
Proof.
  revert ps. induction l as [|[z|p] l IH]; intros ps; cbn.
  - intros _ v H. inversion H.
  - discriminate.
  - destruct (sort_keys l) as [ps'|e]; [|discriminate]. intros [= <-] v Hin.
    apply elem_of_cons in Hin as [-> | Hin]; [exists p; split; [reflexivity | left]|].
    destruct (IH ps' eq_refl v Hin) as (p' & -> & Hp'). exists p'. split; [reflexivity|].
    now right.
Qed.

(** X23: what [fix_offsets] returns starts with the frame contents it was given,
    and it leaves the frame as it is; where it adds blocks (on ARM, with
    names), the result is 232 bytes long at least and as long as the size of
    every block named at least. *)
Theorem fix_offsets_extends f frcontents namedoffsets out f' :
  fix_offsets flat1 context_bytes frcontents namedoffsets f = (Ok out, f') ->
  f' = f
  /\ (exists rest, out = frcontents ++ rest)
  /\ (arch f = "arm" -> named namedoffsets = true ->
      232 <= Z.of_nat (length out)
      /\ forall key, key ∈ iterate namedoffsets ->
           exists magicva size,
             dict_get (upper key) (off_coproc arm_offsets) = Some (magicva, size)
             /\ size <= Z.of_nat (length out)).
Proof.
  intros Hfix.
  assert (Hplain : (out, f') = (frcontents, f) ->
                   f' = f /\ exists rest, out = frcontents ++ rest).
  { intros [= -> ->]. split; [reflexivity|]. exists []. now rewrite app_nil_r. }
  destruct (decide (arch f = "arm" /\ named namedoffsets = true)) as [[Ha Hn] | Hno].
  - rewrite fix_offsets_arm in Hfix by assumption. unfold bind at 1 in Hfix.
    pose proof (collect_state (S := SigreturnFrame) arm_offsets (iterate namedoffsets) f) as Hs.
    pose proof (collect_elem (S := SigreturnFrame) arm_offsets (iterate namedoffsets) f) as Hel.
    destruct (collect arm_offsets (iterate namedoffsets) f) as [[vs|e] f''];
      cbn in Hs; subst f''; [|discriminate].
    specialize (Hel vs eq_refl).
    unfold bind, lift in Hfix.
    destruct (sort_keys vs) as [ps|e] eqn:Esort; [|discriminate].
    destruct (_fixup flat1 context_bytes frcontents (rop.sorted_by snd ps) 232) as [o|e] eqn:Efix;
      [|discriminate].
    injection Hfix as -> ->. unfold _fixup in Efix.
    apply fixup_loop_extends in Efix as [[rest ->] Hsizes].
    split; [reflexivity|]. split; [rewrite <- app_assoc; eauto|].
    intros _ _. split.
    + rewrite !length_app. unfold filler. rewrite repeat_length. lia.
    + intros key Hkey. destruct (Hel key Hkey) as (v & Hv & Hin).
      destruct (sort_keys_elem _ _ Esort v Hin) as ([magicva size] & -> & Hp).
      exists magicva, size. split.
      * unfold offset_info_get in Hv.
        destruct (String.eqb (upper key) "base"); [discriminate|].
        destruct (dict_get (upper key) (off_coproc arm_offsets)) as [p|]; [|discriminate].
        cbn in Hv. congruence.
      * apply Hsizes with magicva. now apply sorted_by_elem.
  - assert (Hret : (out, f') = (frcontents, f)).
    { unfold fix_offsets, bind, get in Hfix.
      destruct (registers (arch f)) as [r|] eqn:Er; [|discriminate]. cbn [subscript ret] in Hfix.
      destruct (offsets r) as [o|] eqn:Eo; [|now injection Hfix as <- <-].
      destruct (named namedoffsets); [|now injection Hfix as <- <-].
      exfalso. apply Hno. split; [|reflexivity].
      destruct (registers_cases _ _ Er) as [Ha | [Ha | Ha]]; [| |exact Ha];
        rewrite Ha in Er; injection Er as <-; discriminate. }
    destruct (Hplain Hret) as [-> Hrest]. split; [reflexivity|]. split; [exact Hrest|].
    intros Ha Hn. exfalso. apply Hno. now split.
Qed.

End FramePointers.

Section FrameSpindex.
Import srop srop_frame.

Variable flat1 : nat -> Value -> Result bytes.

Hypothesis flat1_word : forall w z,
  0 <= z < 2 ^ (8 * Z.of_nat w) ->
  exists b, flat1 w (VInt z) = Ok b /\ length b = w.



End FrameSpindex.

Lemma pointers_round_trip_witness :
  srop_frame.get_sp (srop.set_items (<["esp" := VInt 0x1000]> (srop.items inputs.frame_i386))
                                    inputs.frame_i386)
  = (Ok (VInt 0x1000),
     srop.set_items (<["esp" := VInt 0x1000]> (srop.items inputs.frame_i386))
                    inputs.frame_i386).
Proof.
  refine (proj1 (proj1 (pointers_round_trip inputs.frame_i386 (VInt 0x1000) _) _)).
  vm_compute. reflexivity.
Defined.

Lemma get_frame_without_blocks_witness :
  srop_frame.get_frame inputs.flat1_le 4 (srop_frame.NOList ["fpu"]) inputs.frame_i386
  = srop.__str__ inputs.flat1_le inputs.frame_i386.
Proof.
  refine (get_frame_without_blocks inputs.flat1_le 4 inputs.frame_i386
            (srop_frame.NOList ["fpu"]) _).
  left. reflexivity.
Defined.

Lemma get_frame_unknown_name_witness :
  exists msg,
    srop_frame.get_frame inputs.flat1_le 4 (srop_frame.NOList ["vfpu"; "fpu"]) inputs.frame_arm
    = (Raise (LogError msg), inputs.frame_arm).
Proof.
  refine (get_frame_unknown_name inputs.flat1_le 4 inputs.frame_arm ["vfpu"; "fpu"] "fpu"
            _ _ _ _).
  - reflexivity.
  - right. left.
  - vm_compute. intros H. repeat (apply elem_of_cons in H as [H | H]; [discriminate|]).
    inversion H.
  - eexists. vm_compute. reflexivity.
Defined.

Lemma get_frame_string_argument_witness :
  srop_frame.get_frame inputs.flat1_le 4 (srop_frame.NOStr "vfpu") inputs.frame_arm
  = (Raise (LogError "Named offset 'V' not supported"), inputs.frame_arm).
Proof.
  refine (get_frame_string_argument inputs.flat1_le 4 inputs.frame_arm "v"%char "fpu"
            (match (srop.__str__ inputs.flat1_le inputs.frame_arm).1 with
             | Ok s => s
             | Raise _ => []
             end) _ _).
  - reflexivity.
  - vm_compute. reflexivity.
Defined.

(** What [fix_offsets] makes of no contents for the block [vfpu], with a
    word of 4 bytes. *)
Definition arm_vfpu_block : bytes :=
  srop_frame.filler 232 ++ inputs.pack_le 4 0x56465001 ++ inputs.pack_le 4 0x120
  ++ srop_frame.filler 48.

Lemma fix_offsets_extends_witness : 0x120 <= Z.of_nat (length arm_vfpu_block).
Proof.
  destruct (fix_offsets_extends inputs.flat1_le 4 inputs.frame_arm []
              (srop_frame.NOList ["vfpu"]) arm_vfpu_block inputs.frame_arm)
    as (_ & _ & H).
  - vm_compute. reflexivity.
  - destruct (H eq_refl eq_refl) as [_ Hkeys].
    destruct (Hkeys "vfpu") as (magicva & size & Hget & Hle); [left|].
    vm_compute in Hget. injection Hget as <- <-. exact Hle.
Defined.


(** ** The search for register paths *)

Lemma insert_by_sorted {A} (k : A -> Z) (x : A) l :
  StronglySorted (fun a b => k a <= k b) l ->
  StronglySorted (fun a b => k a <= k b) (rop.insert_by k x l).
Proof.
  induction 1 as [|y l Hs IH Hy]; cbn; [repeat constructor|].
  destruct (Z.leb_spec (k y) (k x)) as [Hle | Hlt].
  - constructor; [exact IH|]. apply Forall_forall. intros z Hz.
    apply insert_by_elem in Hz as [-> | Hz]; [exact Hle|].
    exact (proj1 (Forall_forall _ _) Hy z Hz).
  - constructor; [now constructor|]. constructor; [lia|].
    eapply Forall_impl; [exact Hy|]. cbn. intros z Hz. lia.
Qed.

Lemma sorted_by_sorted {A} (k : A -> Z) (l : list A) :
  StronglySorted (fun a b => k a <= k b) (rop.sorted_by k l).
Proof.
  unfold rop.sorted_by.
  assert (H : forall acc, StronglySorted (fun a b => k a <= k b) acc ->
                StronglySorted (fun a b => k a <= k b)
                               (fold_left (fun acc x => rop.insert_by k x acc) l acc)).
  { induction l as [|x l IH]; intros acc Hacc; [exact Hacc|].
    cbn. apply IH. now apply insert_by_sorted. }
  apply H. constructor.
Qed.

Section SearchPathMore.
Import rop.

Variable verify_path : list Gadget -> list (string * Value) -> option (Z * list (Z * Z)).
Variable randint : nat -> Z.

Lemma all_paths_elem fuel graph start end_ paths :
  all_paths fuel graph start end_ = Ok paths ->
  forall p, p ∈ paths ->
    exists s e ps, s ∈ start /\ e ∈ end_
                   /\ __find_path fuel graph s e [] = Ok ps /\ p ∈ ps.
Proof.
  unfold all_paths. destruct (_ && _); [|intros [= <-] p Hp; inversion Hp].
  set (found := fun (acc : list (list Gadget)) (p : list Gadget) =>
                  exists s e ps, s ∈ start /\ e ∈ end_
                                 /\ __find_path fuel graph s e [] = Ok ps /\ p ∈ ps).
  assert (Hinner : forall s, s ∈ start -> forall es acc out,
            (forall e, e ∈ es -> e ∈ end_) ->
            (forall p, p ∈ acc -> found acc p) ->
            foldM (fun paths e => match __find_path fuel graph s e [] with
                                  | Ok path => Ok (paths ++ path)
                                  | Raise e => Raise e
                                  end) es acc = Ok out ->
            forall p, p ∈ out -> found out p).
  { intros s Hs es. induction es as [|e es IH]; intros acc out Hes Hacc; cbn [foldM].
    - intros [= <-]. exact Hacc.
    - destruct (__find_path fuel graph s e []) as [ps|err] eqn:Ef; [|discriminate].
      apply IH.
      + intros e' He'. apply Hes. now right.
      + intros p Hp. apply elem_of_app in Hp as [Hp | Hp].
        * destruct (Hacc p Hp) as (s' & e' & ps' & H). now exists s', e', ps'.
        * exists s, e, ps. repeat split; [exact Hs | apply Hes; left | exact Ef | exact Hp]. }
  assert (Houter : forall ss acc out,
            (forall s, s ∈ ss -> s ∈ start) ->
            (forall p, p ∈ acc -> found acc p) ->
            foldM (fun paths s =>
                     foldM (fun paths e => match __find_path fuel graph s e [] with
                                           | Ok path => Ok (paths ++ path)
                                           | Raise e => Raise e
                                           end) end_ paths) ss acc = Ok out ->
            forall p, p ∈ out -> found out p).
  { induction ss as [|s ss IH]; intros acc out Hss Hacc; cbn [foldM].
    - intros [= <-]. exact Hacc.
    - destruct (foldM _ end_ acc) as [acc'|err] eqn:Ei; [|discriminate].
      apply IH.
      + intros s' Hs'. apply Hss. now right.
      + eapply (Hinner s); [apply Hss; left | | exact Hacc | exact Ei]. auto. }
  intros Hfold p Hp.
  eapply (Houter start [] paths); [auto | | exact Hfold | exact Hp].
  intros p' Hp'. inversion Hp'.
Qed.

(** X25: the paths that [search_path] returns: there is one at least; each is a
    simple path of the gadget graph from a gadget that reads the source to a
    gadget that sets all the registers; the solver accepts each under the
    random numbers drawn for the registers; and they come by the length of
    their text, the shortest first. The search draws one number for each
    register and changes nothing else of the object. *)
Theorem search_path_result fuel src regs self paths self' :
  search_path verify_path randint fuel src regs self = (Ok (Some paths), self') ->
  self' = set_random_state (random_state self + length regs)%nat self
  /\ paths <> []
  /\ StronglySorted (fun p q => path_len p <= path_len q) paths
  /\ exists end_,
       end_set regs (values (gadgets self)) = Ok end_
       /\ forall p, p ∈ paths ->
            is_Some (verify_path p (probes randint (random_state self) regs []))
            /\ exists s e, s ∈ start_set src (values (gadgets self)) /\ e ∈ end_
                           /\ simple_path (gadget_graph self) e [] s p.
Proof.
  rewrite search_path_eq.
  destruct (end_set regs (values (gadgets self))) as [end_|e] eqn:Eend; [|discriminate].
  destruct (all_paths fuel (gadget_graph self) (start_set src (values (gadgets self))) end_)
    as [all|e] eqn:Eall; [|discriminate].
  cbv zeta. destruct (Nat.eqb_spec (length (sorted_by path_len
              (filter (fun path => is_Some (verify_path path
                                              (probes randint (random_state self) regs [])))
                      all))) 0) as [Hz | Hnz]; [discriminate|].
  intros [= <- <-]. split; [reflexivity|]. split; [|split].
  - intros Hnil. rewrite Hnil in Hnz. now apply Hnz.
  - apply sorted_by_sorted.
  - exists end_. split; [reflexivity|]. intros p Hp.
    apply sorted_by_elem, list_elem_of_filter in Hp as [Hv Hp]. split; [exact Hv|].
    destruct (all_paths_elem _ _ _ _ _ Eall p Hp) as (s & e & ps & Hs & He & Hf & Hin).
    exists s, e. split; [exact Hs|]. split; [exact He|].
    exact (proj1 (find_path_yields _ _ _ _ _ _ Hf p) Hin).
Qed.

End SearchPathMore.

Lemma search_path_result_witness :
  exists end_,
    rop.end_set ["eax"] (values (rop.gadgets inputs.rop_pop_eax_solved)) = Ok end_
    /\ forall p, p ∈ [[inputs.pop_eax]] ->
         is_Some (inputs.verify_one_pop p (probes inputs.randint_seq 1 ["eax"] []))
         /\ exists s e,
              s ∈ rop.start_set "sp" (values (rop.gadgets inputs.rop_pop_eax_solved))
              /\ e ∈ end_
              /\ simple_path (rop.gadget_graph inputs.rop_pop_eax_solved) e [] s p.
Proof.
  refine (proj2 (proj2 (proj2 (search_path_result inputs.verify_one_pop inputs.randint_seq 3
                                 "sp" ["eax"] inputs.rop_pop_eax_solved [[inputs.pop_eax]]
                                 (rop.set_random_state 2 inputs.rop_pop_eax_solved) _)))).
  vm_compute. reflexivity.
Defined.

(** ** The topological sort on graphs without a cycle *)

Section TopSortMore.
Import rop.
Context {N : Type} `{EqDecision N}.

(** How often [v] occurs in a list. *)
Definition cnt (v : N) (l : list N) : Z := Z.of_nat (length (filter (fun x => x = v) l)).

Lemma cnt_cons v x l : cnt v (x :: l) = (if decide (x = v) then 1 else 0) + cnt v l.
Proof. unfold cnt. rewrite filter_cons. destruct (decide (x = v)); cbn [length]; lia. Qed.

Lemma cnt_app v l l' : cnt v (l ++ l') = cnt v l + cnt v l'.
Proof. unfold cnt. rewrite filter_app, length_app. lia. Qed.

Lemma cnt_nonneg v l : 0 <= cnt v l.
Proof. unfold cnt. lia. Qed.

Lemma cnt_zero v l : cnt v l = 0 <-> v ∉ l.
Proof.
  induction l as [|x l IH]; [split; [intros _ Hc; inversion Hc | reflexivity]|].
  rewrite cnt_cons, not_elem_of_cons. pose proof (cnt_nonneg v l).
  destruct (decide (x = v)) as [->|Hne].
  - split; [lia | intros [Hc _]; done].
  - rewrite <- IH. split; [intros Hz; split; [congruence | lia] | intros [_ Hz]; lia].
Qed.

(** [indegree[v]], 0 where the key is missing. *)
Definition dget (d : list (N * Z)) (v : N) : Z := default 0 (dict_get v d).

Lemma dget_set d k z v : dget (dict_set k z d) v = if decide (v = k) then z else dget d v.
Proof.
  unfold dget. destruct (decide (v = k)) as [->|Hne].
  - now rewrite dict_get_set_eq.
  - now rewrite dict_get_set_ne.
Qed.

Lemma dget_incr d m n v :
  dget (dict_incr m n d) v = if decide (v = m) then dget d m + n else dget d v.
Proof. unfold dict_incr. rewrite dget_set. reflexivity. Qed.

Lemma keys_set {V} (d : list (N * V)) k z x : x ∈ keys (dict_set k z d) <-> x = k \/ x ∈ keys d.
Proof.
  rewrite dict_set_keys. case_bool_decide as Hk.
  - split; [now right | intros [-> | Hx]; assumption].
  - rewrite elem_of_app, list_elem_of_singleton. tauto.
Qed.

Lemma dict_get_none {V} (d : list (N * V)) k : dict_get k d = None <-> k ∉ keys d.
Proof.
  unfold keys. induction d as [|[k' v'] d IH]; cbn.
  - split; [intros _ Hc; inversion Hc | reflexivity].
  - rewrite not_elem_of_cons. destruct (decide (k = k')) as [->|Hne].
    + split; [discriminate | intros [Hc _]; done].
    + rewrite IH. tauto.
Qed.

Lemma dict_get_of_elem {V} (d : list (N * V)) k v :
  NoDup (keys d) -> (k, v) ∈ d -> dict_get k d = Some v.
Proof.
  unfold keys. induction d as [|[k' v'] d IH]; cbn; intros Hnd Hin; [inversion Hin|].
  apply NoDup_cons in Hnd as [Hk' Hnd].
  apply elem_of_cons in Hin as [[= <- <-] | Hin].
  - now rewrite decide_True.
  - rewrite decide_False; [now apply IH|].
    intros <-. apply Hk'. apply list_elem_of_fmap. now exists (k, v).
Qed.

Lemma dict_del_get {V} (d : list (N * V)) n k :
  NoDup (keys d) ->
  dict_get k (dict_del n d) = if decide (k = n) then None else dict_get k d.
Proof.
  unfold keys. induction d as [|[k' v'] d IH]; cbn; intros Hnd.
  - now destruct (decide (k = n)).
  - apply NoDup_cons in Hnd as [Hk' Hnd].
    destruct (decide (n = k')) as [->|Hne].
    + destruct (decide (k = k')) as [->|Hne']; [|reflexivity].
      now apply dict_get_none.
    + cbn. rewrite IH by exact Hnd.
      destruct (decide (k = k')) as [->|Hne']; [|reflexivity].
      now rewrite decide_False by congruence.
Qed.

Lemma dict_del_keys {V} (d : list (N * V)) n x :
  NoDup (keys d) -> x ∈ keys (dict_del n d) <-> x ∈ keys d /\ x <> n.
Proof.
  intros Hnd. pose proof (dict_del_get d n x Hnd) as Hget.
  destruct (decide (x = n)) as [->|Hne].
  - apply dict_get_none in Hget. tauto.
  - split.
    + intros Hx. split; [|exact Hne].
      destruct (decide (x ∈ keys d)) as [Hd|Hd]; [exact Hd|].
      apply dict_get_none in Hd. rewrite Hd in Hget. now apply dict_get_none in Hget.
    + intros [Hx _]. destruct (decide (x ∈ keys (dict_del n d))) as [Hd|Hd]; [exact Hd|].
      apply dict_get_none in Hd. rewrite Hd in Hget. symmetry in Hget.
      now apply dict_get_none in Hget.
Qed.

Lemma dict_del_NoDup {V} (d : list (N * V)) n : NoDup (keys d) -> NoDup (keys (dict_del n d)).
Proof.
  unfold keys. induction d as [|[k' v'] d IH]; cbn; intros Hnd; [constructor|].
  apply NoDup_cons in Hnd as [Hk' Hnd].
  destruct (decide (n = k')); [exact Hnd|]. cbn. apply NoDup_cons. split; [|now apply IH].
  intros Hc. apply Hk'.
  exact (proj1 (proj1 (dict_del_keys d n k' Hnd) Hc)).
Qed.

Lemma cnt_del (g : list (N * list N)) n succs v :
  dict_get n g = Some succs ->
  cnt v (flat_map snd (dict_del n g)) = cnt v (flat_map snd g) - cnt v succs.
Proof.
  induction g as [|[k s] g IH]; cbn; [discriminate|].
  destruct (decide (n = k)) as [->|Hne].
  - intros [= ->]. rewrite cnt_app. lia.
  - intros Hg. cbn. rewrite !cnt_app, (IH Hg). lia.
Qed.

Lemma cnt_succs_le (g : list (N * list N)) n succs v :
  dict_get n g = Some succs -> cnt v succs <= cnt v (flat_map snd g).
Proof.
  intros Hg. pose proof (cnt_del g n succs v Hg).
  pose proof (cnt_nonneg v (flat_map snd (dict_del n g))). lia.
Qed.

Lemma pop_spec {A} (l : list A) :
  match pop l with
  | None => l = []
  | Some (x, rest) => l = rest ++ [x]
  end.
Proof.
  unfold pop. destruct (rev l) as [|x r] eqn:E.
  - apply (f_equal (@rev A)) in E. now rewrite rev_involutive in E.
  - apply (f_equal (@rev A)) in E. rewrite rev_involutive in E. now cbn in E.
Qed.

(** The loop over the successors of the node taken. *)
Lemma visit_successors l ind zero :
  (forall v, cnt v l <= dget ind v) ->
  NoDup zero -> (forall v, v ∈ zero -> v ∉ l) ->
  let out := fold_left visit_successor l (ind, zero) in
  (forall v, dget out.1 v = dget ind v - cnt v l)
  /\ (forall v, v ∈ out.2 <-> v ∈ zero \/ (v ∈ l /\ dget ind v - cnt v l = 0))
  /\ NoDup out.2.
Proof.
  revert ind zero. induction l as [|m l IH]; intros ind zero Hle Hnd Hfresh;
    cbv zeta; cbn [fold_left].
  - cbn [fst snd]. split; [|split; [|exact Hnd]].
    + intros v. change (cnt v []) with 0. lia.
    + intros v. split; [now left | intros [Hv | [Hv _]]; [exact Hv | inversion Hv]].
  - set (ind1 := dict_incr m (-1) ind).
    assert (Hind1 : forall v, dget ind1 v = dget ind v - (if decide (m = v) then 1 else 0)).
    { intros v. subst ind1. rewrite dget_incr.
      destruct (decide (v = m)) as [->|Hne]; [now rewrite decide_True|].
      rewrite decide_False by congruence. lia. }
    assert (Hle1 : forall v, cnt v l <= dget ind1 v).
    { intros v. rewrite Hind1. specialize (Hle v). rewrite cnt_cons in Hle. lia. }
    assert (Hm : m ∉ zero) by (intros Hc; apply (Hfresh m Hc); left).
    assert (Hstep : visit_successor (ind, zero) m
                    = if dget ind1 m =? 0 then (ind1, zero ++ [m]) else (ind1, zero))
      by reflexivity.
    rewrite Hstep. clear Hstep.
    destruct (Z.eqb_spec (dget ind1 m) 0) as [Hz | Hnz].
    + assert (Hml : m ∉ l).
      { apply cnt_zero. pose proof (Hle1 m). pose proof (cnt_nonneg m l). lia. }
      destruct (IH ind1 (zero ++ [m]) Hle1) as (H1 & H2 & H3).
      * apply NoDup_app. split; [exact Hnd|]. split; [|apply NoDup_singleton].
        intros x Hx Hx'. apply list_elem_of_singleton in Hx' as ->. done.
      * intros v Hv. apply elem_of_app in Hv as [Hv | Hv].
        -- intros Hc. apply (Hfresh v Hv). now right.
        -- apply list_elem_of_singleton in Hv as ->. exact Hml.
      * split; [|split; [|exact H3]].
        -- intros v. rewrite H1, Hind1, cnt_cons. lia.
        -- intros v. rewrite H2, elem_of_app, list_elem_of_singleton, elem_of_cons.
           rewrite Hind1, cnt_cons. rewrite Hind1, decide_True in Hz by reflexivity.
           apply cnt_zero in Hml.
           destruct (decide (m = v)) as [->|Hne].
           ++ split; [intros _; right; split; [now left | lia]|]. intros _. left. now right.
           ++ split.
              ** intros [[Hv | ->] | [Hv Hc]]; [now left | done | right; split; [now right | lia]].
              ** intros [Hv | [[-> | Hv] Hc]]; [left; now left | done | right; split; [exact Hv | lia]].
    + destruct (IH ind1 zero Hle1 Hnd) as (H1 & H2 & H3).
      * intros v Hv Hc. apply (Hfresh v Hv). now right.
      * split; [|split; [|exact H3]].
        -- intros v. rewrite H1, Hind1, cnt_cons. lia.
        -- intros v. rewrite H2, elem_of_cons. rewrite Hind1, cnt_cons.
           rewrite Hind1, decide_True in Hnz by reflexivity.
           destruct (decide (m = v)) as [->|Hne].
           ++ pose proof (Hle1 v) as Hv1. rewrite Hind1, decide_True in Hv1 by reflexivity.
              split.
              ** intros [Hv | [Hv Hc]]; [now left | right; split; [now left | lia]].
              ** intros [Hv | [_ Hc]]; [now left|].
                 right. split; [|lia]. apply dec_stable. intros Hnot.
                 apply cnt_zero in Hnot. lia.
           ++ split.
              ** intros [Hv | [Hv Hc]]; [now left | right; split; [now right | lia]].
              ** intros [Hv | [[-> | Hv] Hc]]; [now left | done | right; split; [exact Hv | lia]].
Qed.

(** The nodes of a graph: its keys and their successors. *)
Definition nodes (G : list (N * list N)) : list N := keys G ++ flat_map snd G.

Lemma fold_set_keys (f : list (N * Z) -> N -> Z) l d :
  NoDup (keys d) ->
  let out := fold_left (fun d x => dict_set x (f d x) d) l d in
  NoDup (keys out) /\ forall x, x ∈ keys out <-> x ∈ keys d \/ x ∈ l.
Proof.
  revert d. induction l as [|y l IH]; intros d Hnd; cbv zeta; cbn [fold_left].
  - split; [exact Hnd|]. intros x. split; [now left | intros [Hx | Hx]; [exact Hx | inversion Hx]].
  - destruct (IH (dict_set y (f d y) d) (dict_set_keys_NoDup _ _ _ Hnd)) as [H1 H2].
    split; [exact H1|]. intros x. rewrite H2, keys_set, elem_of_cons. tauto.
Qed.

Lemma zero_indegree_spec (G : list (N * list N)) :
  (forall v, dget (zero_indegree G) v = 0)
  /\ NoDup (keys (zero_indegree G))
  /\ forall x, x ∈ keys (zero_indegree G) <-> x ∈ nodes G.
Proof.
  unfold zero_indegree.
  assert (Hgen : forall ind : list (N * Z),
            (forall v, dget ind v = 0) -> NoDup (keys ind) ->
            let out := fold_left
                         (fun ind kv => fold_left (fun ind l => dict_set l 0 ind) kv.2
                                                  (dict_set kv.1 0 ind)) G ind in
            (forall v, dget out v = 0)
            /\ NoDup (keys out)
            /\ forall x, x ∈ keys out <-> x ∈ keys ind \/ x ∈ nodes G).
  { induction G as [|[k s] G IH]; intros ind Hz Hnd; cbv zeta; cbn [fold_left].
    - split; [exact Hz|]. split; [exact Hnd|]. intros x. unfold nodes. cbn.
      split; [now left | intros [Hx | Hx]; [exact Hx | inversion Hx]].
    - cbn [fst snd].
      set (ind1 := dict_set k 0 ind).
      set (ind2 := fold_left (fun ind l => dict_set l 0 ind) s ind1).
      assert (Hnd1 : NoDup (keys ind1)) by now apply dict_set_keys_NoDup.
      destruct (fold_set_keys (fun _ _ => 0) s ind1 Hnd1) as [Hnd2 Hk2]. fold ind2 in Hnd2, Hk2.
      assert (Hz2 : forall v, dget ind2 v = 0).
      { subst ind2. clear Hnd2 Hk2 Hnd1.
        assert (Hz1 : forall v, dget ind1 v = 0).
        { intros v. subst ind1. rewrite dget_set. now destruct (decide (v = k)). }
        clearbody ind1. revert ind1 Hz1. induction s as [|y s IHs]; intros ind1 Hz1; [exact Hz1|].
        cbn [fold_left]. apply IHs. intros v. rewrite dget_set. now destruct (decide (v = y)). }
      destruct (IH ind2 Hz2 Hnd2) as (H1 & H2 & H3).
      split; [exact H1|]. split; [exact H2|].
      intros x. rewrite H3, Hk2. subst ind1. rewrite keys_set. unfold nodes, keys. cbn.
      rewrite !elem_of_app, !elem_of_cons, !elem_of_app. tauto. }
  destruct (Hgen [] (fun _ => eq_refl) (NoDup_nil_2)) as (H1 & H2 & H3).
  split; [exact H1|]. split; [exact H2|]. intros x. rewrite H3.
  split; [intros [Hx | Hx]; [inversion Hx | exact Hx] | now right].
Qed.

Lemma count_indegree_spec (G : list (N * list N)) ind :
  NoDup (keys ind) ->
  (forall v, dget (count_indegree G ind) v = dget ind v + cnt v (flat_map snd G))
  /\ NoDup (keys (count_indegree G ind))
  /\ forall x, x ∈ keys (count_indegree G ind) <-> x ∈ keys ind \/ x ∈ flat_map snd G.
Proof.
  unfold count_indegree. revert ind.
  induction G as [|[k s] G IH]; intros ind Hnd; cbn [fold_left flat_map].
  - split; [intros v; change (cnt v []) with 0; lia|]. split; [exact Hnd|].
    intros x. split; [now left | intros [Hx | Hx]; [exact Hx | inversion Hx]].
  - cbn [fst snd].
    set (ind1 := fold_left (fun ind gadget => dict_incr gadget 1 ind) s ind).
    destruct (fold_set_keys (fun d x => default 0 (dict_get x d) + 1) s ind Hnd) as [Hnd1 Hk1].
    change (fold_left _ s ind) with ind1 in Hnd1, Hk1.
    assert (Hv1 : forall v, dget ind1 v = dget ind v + cnt v s).
    { subst ind1. clear. revert ind. induction s as [|y s IHs]; intros ind v; cbn [fold_left].
      - change (cnt v []) with 0. lia.
      - rewrite IHs, dget_incr, cnt_cons.
        destruct (decide (v = y)) as [->|Hne]; [rewrite decide_True by reflexivity; lia|].
        rewrite decide_False by congruence. lia. }
    destruct (IH ind1 Hnd1) as (H1 & H2 & H3).
    split; [|split; [exact H2|]].
    + intros v. rewrite H1, Hv1, cnt_app. lia.
    + intros x. rewrite H3, Hk1, elem_of_app. tauto.
Qed.

Lemma filter_keys_NoDup (P : N * Z -> Prop) `{forall x, Decision (P x)} (d : list (N * Z)) :
  NoDup (keys d) -> NoDup (map fst (filter P d)).
Proof.
  unfold keys. induction d as [|[k z] d IH]; intros Hnd; [constructor|].
  cbn in Hnd. apply NoDup_cons in Hnd as [Hk Hnd]. rewrite filter_cons.
  destruct (decide (P (k, z))); [|now apply IH].
  cbn. apply NoDup_cons. split; [|now apply IH].
  intros Hc. apply Hk. apply list_elem_of_fmap in Hc as ([k' z'] & -> & Hc).
  apply list_elem_of_filter in Hc as [_ Hc]. apply list_elem_of_fmap. now exists (k', z').
Qed.

(** [u] comes before [v] in a list. *)
Definition before (u v : N) (l : list N) : Prop :=
  exists l1 l2 l3, l = l1 ++ u :: l2 ++ v :: l3.

Lemma before_snoc u v l n : before u v l -> before u v (l ++ [n]).
Proof.
  intros (l1 & l2 & l3 & ->). exists l1, l2, (l3 ++ [n]).
  rewrite <- !app_assoc. cbn. rewrite <- !app_assoc. reflexivity.
Qed.

Lemma before_last u l n : u ∈ l -> before u n (l ++ [n]).
Proof.
  intros Hu. apply list_elem_of_split in Hu as (l1 & l2 & ->). exists l1, l2, [].
  rewrite <- app_assoc. reflexivity.
Qed.

Lemma keys_get {V} (d : list (N * V)) k : k ∈ keys d -> exists v, dict_get k d = Some v.
Proof.
  intros Hk. destruct (dict_get k d) as [v|] eqn:E; [now exists v|].
  now apply dict_get_none in E.
Qed.

Lemma get_keys {V} (d : list (N * V)) k v : dict_get k d = Some v -> k ∈ keys d.
Proof.
  intros Hg. destruct (decide (k ∈ keys d)) as [Hk|Hk]; [exact Hk|].
  apply dict_get_none in Hk. congruence.
Qed.

(** What one turn of the [while] loop makes of the state, for the node [n]
    that it takes. *)
Definition turn (st : @loop_state N) (n : N) (rest : list N) : @loop_state N :=
  let sorted := st_top_sorted st ++ [n] in
  match dict_get n (st_graph st) with
  | None => mkLoop rest sorted (st_indegree st) (st_graph st)
  | Some succs =>
      let out := fold_left visit_successor succs (st_indegree st, rest) in
      mkLoop out.2 sorted out.1 (dict_del n (st_graph st))
  end.

Lemma top_loop_eq fuel st :
  top_loop (S fuel) st
  = match pop (st_indegree_zero st) with
    | None => Some st
    | Some (n, rest) => top_loop fuel (turn st n rest)
    end.
Proof.
  cbn [top_loop]. destruct (pop (st_indegree_zero st)) as [[n rest]|]; [|reflexivity].
  unfold turn. destruct (dict_get n (st_graph st)) as [succs|]; [|reflexivity].
  cbv zeta. now destruct (fold_left visit_successor succs (st_indegree st, rest)).
Qed.

Section Acyclic.

Variable G : list (N * list N).
Hypothesis G_keys : NoDup (keys G).

(** [v] is a successor of [u]. *)
Definition arc (u v : N) : Prop :=
  exists succs, dict_get u G = Some succs /\ v ∈ succs.

(** What holds of the state of the loop at every turn. *)
Record inv (st : @loop_state N) : Prop := mkInv {
  inv_sub : forall k s, dict_get k (st_graph st) = Some s -> dict_get k G = Some s;
  inv_keys : forall k, k ∈ keys G -> (k ∈ keys (st_graph st) <-> k ∉ st_top_sorted st);
  inv_graph : NoDup (keys (st_graph st));
  inv_ind : forall v, dget (st_indegree st) v = cnt v (flat_map snd (st_graph st));
  inv_nodup : NoDup (st_top_sorted st ++ st_indegree_zero st);
  inv_zero : forall v, v ∈ st_top_sorted st ++ st_indegree_zero st
                       <-> v ∈ nodes G /\ cnt v (flat_map snd (st_graph st)) = 0;
  inv_order : forall u v, arc u v -> v ∈ st_top_sorted st -> before u v (st_top_sorted st)
}.

Lemma arc_node u v : arc u v -> v ∈ nodes G.
Proof.
  intros (succs & Hg & Hv). unfold nodes. apply elem_of_app. right.
  apply list_elem_of_In, in_flat_map. exists (u, succs).
  split; [apply list_elem_of_In; now apply dict_get_elem | now apply list_elem_of_In].
Qed.

Lemma inv_init :
  let ind := count_indegree G (zero_indegree G) in
  inv (mkLoop (map fst (filter (fun gi => gi.2 = 0) ind)) [] ind G).
Proof.
  intros ind.
  destruct (zero_indegree_spec G) as (Hz0 & Hnd0 & Hk0).
  destruct (count_indegree_spec G (zero_indegree G) Hnd0) as (Hv & Hnd & Hk).
  fold ind in Hv, Hnd, Hk.
  assert (Hval : forall v, dget ind v = cnt v (flat_map snd G)).
  { intros v. rewrite Hv, Hz0. lia. }
  assert (Hkeys : forall x, x ∈ keys ind <-> x ∈ nodes G).
  { intros x. rewrite Hk, Hk0. unfold nodes. rewrite elem_of_app. tauto. }
  constructor; cbn [st_graph st_top_sorted st_indegree st_indegree_zero app].
  - auto.
  - intros k Hk'. split; [intros _ Hc; inversion Hc | intros _; exact Hk'].
  - exact G_keys.
  - exact Hval.
  - now apply filter_keys_NoDup.
  - intros v. rewrite <- Hval, <- Hkeys. split.
    + intros Hin. apply list_elem_of_fmap in Hin as ([v' z] & -> & Hin).
      apply list_elem_of_filter in Hin as [Hz Hin]. cbn in Hz. subst z. cbn [fst].
      split; [apply list_elem_of_fmap; now exists (v', 0)|].
      unfold dget. now rewrite (dict_get_of_elem _ _ _ Hnd Hin).
    + intros [Hin Hz]. destruct (keys_get _ _ Hin) as [z Hg].
      unfold dget in Hz. rewrite Hg in Hz. cbn in Hz. subst z.
      apply list_elem_of_fmap. exists (v, 0). split; [reflexivity|].
      apply list_elem_of_filter. split; [reflexivity | now apply dict_get_elem].
  - intros u v _ Hc. inversion Hc.
Qed.

Lemma inv_turn st n rest :
  inv st -> st_indegree_zero st = rest ++ [n] -> inv (turn st n rest).
Proof.
  intros [Hsub Hkeys Hg Hind Hnd Hzero Horder] Hz. rewrite Hz in Hnd, Hzero.
  assert (Hn : n ∈ nodes G /\ cnt n (flat_map snd (st_graph st)) = 0).
  { apply Hzero. rewrite !elem_of_app, list_elem_of_singleton. tauto. }
  assert (Hpred : forall u, arc u n -> u ∈ st_top_sorted st).
  { intros u (succs & Hgu & Hnu).
    apply dec_stable. intros Hnot.
    assert (Hku : u ∈ keys (st_graph st)) by (apply Hkeys; [now apply get_keys in Hgu | exact Hnot]).
    destruct (keys_get _ _ Hku) as [s Hs].
    pose proof (Hsub _ _ Hs) as Hs'. rewrite Hgu in Hs'. injection Hs' as <-.
    destruct Hn as [_ Hn0]. apply cnt_zero in Hn0. apply Hn0.
    apply list_elem_of_In, in_flat_map. exists (u, succs).
    split; [apply list_elem_of_In; now apply dict_get_elem | now apply list_elem_of_In]. }
  assert (Horder' : forall u v, arc u v -> v ∈ st_top_sorted st ++ [n] ->
                                before u v (st_top_sorted st ++ [n])).
  { intros u v Harc Hv. apply elem_of_app in Hv as [Hv | Hv].
    - apply before_snoc. now apply Horder.
    - apply list_elem_of_singleton in Hv as ->. apply before_last. now apply Hpred. }
  assert (Hnd' : NoDup ((st_top_sorted st ++ [n]) ++ rest)).
  { rewrite <- app_assoc. apply NoDup_app in Hnd as (H1 & H2 & H3).
    apply NoDup_app in H3 as (H4 & H5 & H6).
    apply NoDup_app. split; [exact H1|]. split.
    - intros x Hx Hc. apply (H2 x Hx). rewrite elem_of_app. rewrite elem_of_app in Hc. tauto.
    - apply NoDup_app. split; [exact H6|]. split; [|exact H4].
      intros x Hx Hc. apply list_elem_of_singleton in Hx as ->. now apply (H5 n Hc), list_elem_of_singleton. }
  assert (Hmem : forall v, v ∈ (st_top_sorted st ++ [n]) ++ rest
                           <-> v ∈ st_top_sorted st ++ rest ++ [n]).
  { intros v. rewrite !elem_of_app. tauto. }
  unfold turn. destruct (dict_get n (st_graph st)) as [succs|] eqn:Egn.
  - set (out := fold_left visit_successor succs (st_indegree st, rest)). cbv zeta.
    assert (Hle : forall v, cnt v succs <= dget (st_indegree st) v).
    { intros v. rewrite Hind. now apply cnt_succs_le with n. }
    assert (Hrest_nd : NoDup rest).
    { apply NoDup_app in Hnd' as (_ & _ & H3). exact H3. }
    assert (Hrest_fresh : forall v, v ∈ rest -> v ∉ succs).
    { intros v Hv. apply cnt_zero.
      assert (Hv0 : cnt v (flat_map snd (st_graph st)) = 0).
      { apply Hzero. rewrite !elem_of_app. tauto. }
      pose proof (cnt_succs_le _ _ _ v Egn). pose proof (cnt_nonneg v succs). lia. }
    destruct (visit_successors succs (st_indegree st) rest Hle Hrest_nd Hrest_fresh)
      as (H1 & H2 & H3). fold out in H1, H2, H3.
    assert (Hcnt : forall v, cnt v (flat_map snd (dict_del n (st_graph st)))
                             = cnt v (flat_map snd (st_graph st)) - cnt v succs).
    { intros v. now apply cnt_del. }
    assert (Hsucc_node : forall v, v ∈ succs -> v ∈ nodes G).
    { intros v Hv. apply (arc_node n). exists succs. split; [now apply Hsub | exact Hv]. }
    constructor; cbn [st_graph st_top_sorted st_indegree st_indegree_zero].
    + intros k s. rewrite dict_del_get by exact Hg.
      destruct (decide (k = n)); [discriminate | apply Hsub].
    + intros k Hk. rewrite dict_del_keys by exact Hg. rewrite (Hkeys k Hk).
      rewrite elem_of_app, list_elem_of_singleton. tauto.
    + now apply dict_del_NoDup.
    + intros v. rewrite H1, Hcnt, Hind. reflexivity.
    + apply NoDup_app. apply NoDup_app in Hnd' as (Ha & Hb & _).
      split; [exact Ha|]. split; [|exact H3].
      intros x Hx Hc. apply H2 in Hc as [Hc | [Hc _]]; [exact (Hb x Hx Hc)|].
      assert (Hx0 : cnt x (flat_map snd (st_graph st)) = 0).
      { apply Hzero. apply Hmem. apply elem_of_app. now left. }
      apply cnt_zero in Hx0. apply Hx0.
      apply list_elem_of_In, in_flat_map. exists (n, succs).
      split; [apply list_elem_of_In; now apply dict_get_elem | now apply list_elem_of_In].
    + intros v. rewrite Hcnt. rewrite elem_of_app, H2. rewrite Hind.
      pose proof (cnt_succs_le _ _ _ v Egn) as Hle'. pose proof (cnt_nonneg v succs) as Hnn.
      split.
      * intros [Hv | [Hv | [Hv Hc]]].
        -- assert (Hv' : v ∈ nodes G /\ cnt v (flat_map snd (st_graph st)) = 0).
           { apply Hzero, Hmem, elem_of_app. now left. }
           split; [tauto | lia].
        -- assert (Hv' : v ∈ nodes G /\ cnt v (flat_map snd (st_graph st)) = 0).
           { apply Hzero, Hmem, elem_of_app. now right. }
           split; [tauto | lia].
        -- split; [now apply Hsucc_node | exact Hc].
      * intros [Hv Hc]. destruct (decide (v ∈ succs)) as [Hs | Hs]; [tauto|].
        apply cnt_zero in Hs.
        assert (Hv' : v ∈ (st_top_sorted st ++ [n]) ++ rest).
        { apply Hmem, Hzero. split; [exact Hv | lia]. }
        apply elem_of_app in Hv'. tauto.
    + exact Horder'.
  - apply dict_get_none in Egn.
    constructor; cbn [st_graph st_top_sorted st_indegree st_indegree_zero].
    + exact Hsub.
    + intros k Hk. rewrite (Hkeys k Hk), elem_of_app, list_elem_of_singleton.
      split; [|tauto]. intros Hks [Hc | ->]; [done|].
      apply Egn. now apply Hkeys.
    + exact Hg.
    + exact Hind.
    + exact Hnd'.
    + intros v. rewrite Hmem. apply Hzero.
    + exact Horder'.
Qed.

Lemma inv_length st :
  inv st -> (length (st_top_sorted st) + length (st_indegree_zero st) <= length (nodes G))%nat.
Proof.
  intros Hinv. rewrite <- length_app. apply submseteq_length, NoDup_submseteq.
  - apply (inv_nodup _ Hinv).
  - intros x Hx. now apply (inv_zero _ Hinv) in Hx as [Hx _].
Qed.

Lemma top_loop_runs fuel st :
  inv st -> (length (nodes G) - length (st_top_sorted st) < fuel)%nat ->
  exists st', top_loop fuel st = Some st' /\ inv st' /\ st_indegree_zero st' = [].
Proof.
  revert st. induction fuel as [|fuel IH]; intros st Hinv Hfuel; [lia|].
  rewrite top_loop_eq. pose proof (pop_spec (st_indegree_zero st)) as Hpop.
  destruct (pop (st_indegree_zero st)) as [[n rest]|]; [|now exists st].
  pose proof (inv_length st Hinv) as Hlen. rewrite Hpop, length_app in Hlen. cbn in Hlen.
  apply IH; [now apply inv_turn|].
  unfold turn. destruct (dict_get n (st_graph st)); cbn [st_top_sorted];
    rewrite length_app; cbn; lia.
Qed.

(** A numbering of the nodes that every edge increases: the graph has no
    cycle. *)
Variable rank : N -> nat.
Hypothesis rank_arc : forall u v, arc u v -> (rank u < rank v)%nat.

Lemma least_rank (l : list N) :
  l <> [] -> exists k, k ∈ l /\ forall k', k' ∈ l -> (rank k <= rank k')%nat.
Proof.
  induction l as [|x l IH]; [done|]. intros _. destruct l as [|y l].
  - exists x. split; [left|]. intros k' Hk'. apply list_elem_of_singleton in Hk' as ->. lia.
  - destruct IH as (k & Hk & Hmin); [done|].
    destruct (le_lt_dec (rank x) (rank k)) as [Hle | Hlt].
    + exists x. split; [left|]. intros k' Hk'.
      apply elem_of_cons in Hk' as [-> | Hk']; [lia|]. specialize (Hmin k' Hk'). lia.
    + exists k. split; [now right|]. intros k' Hk'.
      apply elem_of_cons in Hk' as [-> | Hk']; [lia | now apply Hmin].
Qed.

Lemma loop_empties st : inv st -> st_indegree_zero st = [] -> st_graph st = [].
Proof.
  intros [Hsub Hkeys Hg Hind Hnd Hzero Horder] Hz.
  assert (Hne : st_graph st <> [] -> False).
  { intros Hne.
    destruct (least_rank (keys (st_graph st))) as (k & Hk & Hmin).
    { unfold keys. intros Hc. apply map_eq_nil in Hc. done. }
    destruct (keys_get _ _ Hk) as [s Hs].
    assert (HkG : k ∈ keys G) by (eapply get_keys, Hsub, Hs).
    assert (Hnot : k ∉ st_top_sorted st ++ st_indegree_zero st).
    { rewrite Hz, app_nil_r. now apply Hkeys. }
    assert (Hin : k ∈ flat_map snd (st_graph st)).
    { apply dec_stable. intros Hc. apply cnt_zero in Hc. apply Hnot, Hzero.
      split; [|exact Hc]. unfold nodes. apply elem_of_app. now left. }
    apply list_elem_of_In, in_flat_map in Hin as ([u su] & Hu & Hku). cbn in Hku.
    apply list_elem_of_In in Hu, Hku.
    pose proof (dict_get_of_elem _ _ _ Hg Hu) as Hgu.
    assert (Harc : arc u k) by (exists su; split; [now apply Hsub | exact Hku]).
    apply rank_arc in Harc.
    assert (Huk : u ∈ keys (st_graph st)) by now apply get_keys in Hgu.
    specialize (Hmin u Huk). lia. }
  destruct (st_graph st); [reflexivity | exfalso; apply Hne; discriminate].
Qed.

Lemma top_sort_acyclic_spec fuel deleted :
  (length (nodes G) < fuel)%nat ->
  exists l,
    __build_top_sort fuel G deleted = (Sorted l, deleted)
    /\ NoDup l
    /\ (forall n, n ∈ l <-> n ∈ nodes G)
    /\ forall u v, arc u v -> before u v l.
Proof.
  intros Hfuel. destruct fuel as [|fuel]; [lia|]. cbn [__build_top_sort].
  set (ind := count_indegree G (zero_indegree G)).
  pose proof inv_init as Hinit. cbv zeta in Hinit. fold ind in Hinit.
  destruct (top_loop_runs (S fuel) _ Hinit) as (st & Hloop & Hinv & Hzero);
    [cbn [st_top_sorted length]; lia|].
  rewrite Hloop. pose proof (loop_empties st Hinv Hzero) as Hempty.
  rewrite Hempty. cbn [length Nat.eqb].
  exists (st_top_sorted st). split; [reflexivity|].
  pose proof (inv_nodup _ Hinv) as Hnd. pose proof (inv_zero _ Hinv) as Hmem.
  rewrite Hzero, app_nil_r in Hnd, Hmem. rewrite Hempty in Hmem.
  assert (Hall : forall n, n ∈ st_top_sorted st <-> n ∈ nodes G).
  { intros n. rewrite Hmem. cbn. split; [tauto | intros Hn; split; [exact Hn | reflexivity]]. }
  split; [exact Hnd|]. split; [exact Hall|].
  intros u v Harc. apply (inv_order _ Hinv); [exact Harc|].
  apply Hall. now apply (arc_node u).
Qed.

(** X26: on a graph without a cycle, [__build_top_sort] is a topological sort:
    it returns every node of the graph once, each before its successors, and
    records no deleted edge; more steps of fuel than the graph has keys and
    edges are enough. *)
Theorem top_sort_without_cycle fuel deleted :
  (length (nodes G) < fuel)%nat ->
  exists l,
    __build_top_sort fuel G deleted = (Sorted l, deleted)
    /\ NoDup l
    /\ (forall n, n ∈ l <-> n ∈ nodes G)
    /\ forall u v, arc u v -> before u v l.
Proof. apply top_sort_acyclic_spec. Qed.

End Acyclic.

End TopSortMore.

Lemma top_sort_without_cycle_witness :
  exists l,
    rop.__build_top_sort 6 inputs.acyclic_graph [] = (rop.Sorted l, [])
    /\ NoDup l
    /\ (forall n, n ∈ l <-> n ∈ nodes inputs.acyclic_graph)
    /\ forall u v, arc inputs.acyclic_graph u v -> before u v l.
Proof.
  refine (top_sort_without_cycle inputs.acyclic_graph _ inputs.acyclic_rank _ 6 [] _).
  - unfold keys. cbn. apply NoDup_cons.
    split; [intros Hc; apply list_elem_of_singleton in Hc; discriminate|].
    apply NoDup_singleton.
  - intros u v (succs & Hg & Hv). cbn [dict_get inputs.acyclic_graph] in Hg.
    destruct (decide (u = "eax")) as [->|_].
    + injection Hg as <-. apply list_elem_of_singleton in Hv as ->. vm_compute. lia.
    + destruct (decide (u = "edx")) as [->|_]; [|discriminate].
      injection Hg as <-. apply list_elem_of_singleton in Hv as ->. vm_compute. lia.
  - cbn. lia.
Defined.

(** ** System calls through sigreturn *)

Section SropCallMore.
Import rop.

Lemma zip_lookup {A B} (l : list A) (l' : list B) i a b :
  zip l l' !! i = Some (a, b) <-> l !! i = Some a /\ l' !! i = Some b.
Proof.
  revert l' i. induction l as [|x l IH]; intros [|y l'] i; cbn.
  - split; [discriminate | intros [H _]; discriminate].
  - split; [discriminate | intros [H _]; discriminate].
  - split; [discriminate | intros [_ H]; discriminate].
  - destruct i as [|i]; cbn; [|apply IH].
    split; [intros [= -> ->]; now split | intros [[= ->] [= ->]]; reflexivity].
Qed.

Lemma zip_keys {A B} (l : list A) (l' : list B) : map fst (zip l l') = take (length l') l.
Proof.
  revert l'. induction l as [|x l IH]; intros [|y l']; cbn; try reflexivity.
  now rewrite IH.
Qed.

(** The writes of a list of items, one after the other. *)
Definition writes (l : list (string * Value)) (m : gmap string Value) : gmap string Value :=
  fold_left (fun m rv => <[rv.1 := rv.2]> m) l m.

Lemma writes_fresh l m r : r ∉ map fst l -> writes l m !! r = m !! r.
Proof.
  revert m. induction l as [|[r' v'] l IH]; intros m Hr; [reflexivity|].
  cbn in Hr. apply not_elem_of_cons in Hr as [Hne Hr]. cbn [writes fold_left fst snd].
  fold (writes l (<[r' := v']> m)). rewrite IH by exact Hr. now rewrite lookup_insert_ne.
Qed.

Lemma writes_lookup l m i r v :
  NoDup (map fst l) -> l !! i = Some (r, v) -> writes l m !! r = Some v.
Proof.
  revert m i. induction l as [|[r' v'] l IH]; intros m i Hnd Hi; [discriminate|].
  cbn in Hnd. apply NoDup_cons in Hnd as [Hr' Hnd]. cbn [writes fold_left fst snd].
  fold (writes l (<[r' := v']> m)). destruct i as [|i]; cbn in Hi.
  - injection Hi as -> ->. rewrite writes_fresh by exact Hr'. apply lookup_insert_eq.
  - now apply (IH _ i).
Qed.

Lemma for_each_setitem l f f' :
  for_each (fun '(register, value) => srop.__setitem__ register value) l f = (Ok tt, f') ->
  srop.arch f' = srop.arch f /\ srop.items f' = writes l (srop.items f).
Proof.
  revert f. induction l as [|[r v] l IH]; intros f; cbn [for_each].
  - intros [= <-]. now split.
  - unfold bind at 1.
    destruct (srop.__setitem__ r v f) as [[[]|e] f1] eqn:E1; [|discriminate].
    apply setitem_ok_inv in E1 as [-> _]. intros H. apply IH in H as [Ha Hi].
    split; [exact Ha|]. rewrite Hi. reflexivity.
Qed.

Lemma first_syscall_gadget_found instrs self g :
  first_syscall_gadget instrs self = Some g ->
  g ∈ values (gadgets self)
  /\ exists instruction, instruction ∈ instrs /\ insns g = [instruction].
Proof.
  induction instrs as [|instruction instrs IH]; cbn; [discriminate|].
  destruct (find_gadget [instruction] self) as [g'|] eqn:Ef.
  - intros [= ->]. unfold find_gadget in Ef.
    assert (Hg : g ∈ values (gadgets self) /\ insns g = [instruction]).
    { revert Ef. generalize (values (gadgets self)). intros gs.
      induction gs as [|g0 gs IHg]; cbn; [discriminate|].
      case_bool_decide as Hi.
      - intros [= ->]. split; [left | exact Hi].
      - intros Hf. destruct (IHg Hf) as [Hin Hins]. split; [now right | exact Hins]. }
    split; [tauto|]. exists instruction. split; [left | tauto].
  - intros Hf. destruct (IH Hf) as (Hin & instruction' & Hi & Hins).
    split; [exact Hin|]. exists instruction'. split; [now right | exact Hins].
Qed.

Variable context_arch : string.
Variable constants : string -> option Z.
Variable ABI_syscall : string -> ABI.
Variable ABI_sigreturn ABI_default : ABI.

(** X27: where [_srop_call] returns [True] on an open chain: the name is that of
    a system call; the chain gets a call of [SYS_sigreturn] whose target is
    a gadget of the binary that is one system-call instruction, and after it
    a frame of the architecture of the object; the chain is sealed. In the
    frame, the argument registers of the system-call ABI hold the arguments
    in order (arguments beyond the registers are dropped), the register of
    the system-call number holds the number and the program counter the
    gadget, unless an argument register is the same one. *)
Theorem srop_call_frame resolvable arguments self self' :
  migrated self = false ->
  _srop_call context_arch constants ABI_syscall ABI_sigreturn ABI_default
             resolvable arguments self = (Ok true, self') ->
  exists number sigreturn g f,
    constants ("SYS_" ++ lower resolvable) = Some number
    /\ constants "SYS_sigreturn" = Some sigreturn
    /\ g ∈ values (gadgets self)
    /\ (exists instrs instruction,
          srop.syscall_instructions context_arch = Some instrs
          /\ instruction ∈ instrs /\ insns g = [instruction])
    /\ self' = set_migrated true
                 (set_chain (_chain self
                             ++ [ECall (mkCall "SYS_sigreturn" (VGadget g) [VInt sigreturn]
                                               ABI_sigreturn);
                                 ESigreturnFrame f]) self)
    /\ srop.arch f = arch self
    /\ let regs := tail (register_arguments (ABI_syscall (arch self))) in
       let sysreg := syscall_register (ABI_syscall (arch self)) in
       (NoDup regs ->
        forall i r v, regs !! i = Some r -> arguments !! i = Some v ->
                      srop.items f !! r = Some v)
       /\ (sysreg ∉ take (length arguments) regs -> srop.items f !! sysreg = Some (VInt number))
       /\ (forall pc, srop.instruction_pointers (arch self) = Some pc ->
                      pc ∉ take (length arguments) regs -> pc <> sysreg ->
                      srop.items f !! pc = Some (VGadget g)).
Proof.
  intros Hm. unfold _srop_call.
  destruct (constants ("SYS_" ++ lower resolvable)) as [number|] eqn:Enum; [|discriminate].
  unfold bind at 1.
  pose proof (subscript_state (srop.syscall_instructions context_arch) self) as Hs.
  destruct (srop.subscript (srop.syscall_instructions context_arch) self) as [[instrs|e] s]
    eqn:Einstrs; cbn in Hs; subst s; [|discriminate].
  assert (Hinstrs : srop.syscall_instructions context_arch = Some instrs).
  { destruct (srop.syscall_instructions context_arch); [|discriminate].
    now injection Einstrs as ->. }
  unfold bind at 1, get. unfold bind at 1.
  destruct (first_syscall_gadget instrs self) as [g|] eqn:Eg; [|discriminate].
  apply first_syscall_gadget_found in Eg as (Hg & instruction & Hinstr & Hinsns).
  cbn [ret]. unfold bind at 1, lift.
  destruct (srop.__init__ (arch self)) as [frame|e] eqn:Einit; [|discriminate].
  assert (Harch0 : srop.arch frame = arch self).
  { unfold srop.__init__ in Einit.
    destruct (srop.registers (arch self)), (srop.defaults (arch self)); try discriminate.
    now injection Einit as <-. }
  unfold bind at 1. unfold on_frame at 1.
  match goal with |- context [(let* _ := srop.set_pc ?v in ?k) frame] =>
    destruct ((let* _ := srop.set_pc v in k) frame) as [[[]|e] frame1] eqn:E1 end;
    [|discriminate].
  unfold bind at 1.
  destruct (constants "SYS_sigreturn") as [sigreturn|] eqn:Esig; [|discriminate].
  cbn [ret]. unfold bind at 1. unfold on_frame at 1.
  match goal with |- context [bind (srop.arguments ABI_syscall) ?k frame1] =>
    destruct (bind (srop.arguments ABI_syscall) k frame1) as [[[]|e] frame2] eqn:E2
  end; [|discriminate].
  unfold bind at 1. rewrite raw_open by exact Hm.
  unfold bind at 1. rewrite raw_open by exact Hm.
  cbn. intros [= <-].
  (* the frame *)
  unfold bind in E1.
  destruct (srop.set_pc (VGadget g) frame) as [[[]|e] framep] eqn:Epc; [|discriminate].
  unfold srop.set_pc, bind, get in Epc.
  destruct (srop.instruction_pointers (srop.arch frame)) as [pcname|] eqn:Epcname;
    [|discriminate].
  cbn [srop.subscript ret] in Epc. apply setitem_ok_inv in Epc as [-> _].
  unfold srop.set_syscall, bind, get in E1. cbn [srop.arch srop.set_items] in E1.
  apply setitem_ok_inv in E1 as [-> _].
  unfold srop.arguments, bind, get, ret in E2. cbn [srop.arch srop.set_items] in E2.
  apply for_each_setitem in E2 as [Harch2 Hitems2].
  cbn [srop.arch srop.set_items srop.items] in Harch2, Hitems2.
  rewrite Harch0 in *.
  exists number, sigreturn, g, frame2.
  split; [reflexivity|]. split; [reflexivity|]. split; [exact Hg|].
  split; [now exists instrs, instruction|].
  split; [unfold Call_init; cbn; now rewrite <- app_assoc|].
  split; [exact Harch2|].
  cbv zeta. rewrite Hitems2. split; [|split].
  - intros Hnd i r v Hr Hv. apply (writes_lookup _ _ i).
    + rewrite zip_keys. eapply sublist_NoDup; [exact Hnd | apply sublist_take].
    + now apply zip_lookup.
  - intros Hfresh. rewrite writes_fresh by (now rewrite zip_keys). apply lookup_insert_eq.
  - intros pc Hpc Hfresh Hne. rewrite writes_fresh by (now rewrite zip_keys).
    rewrite lookup_insert_ne by (intros Heq; now apply Hne).
    rewrite Epcname in Hpc. injection Hpc as <-. apply lookup_insert_eq.
Qed.

End SropCallMore.

(** The object after [execve(1, 2, 3)] has gone through the sigreturn
    fallback on [inputs.rop_int80]. *)
Definition rop_int80_called : rop.ROP :=
  (rop._srop_call "i386" inputs.constants_i386 inputs.abi_syscall inputs.abi_sigreturn
                  inputs.abi_i386 "execve" [VInt 1; VInt 2; VInt 3] inputs.rop_int80).2.

Lemma srop_call_frame_witness :
  exists f, rop.ESigreturnFrame f ∈ rop._chain rop_int80_called
            /\ srop.items f !! "ebx" = Some (VInt 1)
            /\ srop.items f !! "eax" = Some (VInt 0xb).
Proof.
  destruct (srop_call_frame "i386" inputs.constants_i386 inputs.abi_syscall inputs.abi_sigreturn
              inputs.abi_i386 "execve" [VInt 1; VInt 2; VInt 3] inputs.rop_int80
              rop_int80_called)
    as (number & sigreturn & g & f & Hnum & _ & _ & _ & Hself & _ & Hargs & Hsys & _).
  - reflexivity.
  - vm_compute. reflexivity.
  - exists f. split; [|split].
    + rewrite Hself. cbn. right. left.
    + refine (Hargs _ 0%nat "ebx" (VInt 1) eq_refl eq_refl).
      apply (bool_decide_unpack _). vm_compute. exact I.
    + vm_compute in Hnum. injection Hnum as <-. apply Hsys.
      apply (bool_decide_unpack _). vm_compute. exact I.
Defined.

(** ** flat_as_stack: the words of a group *)

Section FlatMore.
Import rop.

Lemma pack_at_result align i stack_result :
  (exists z, pack_at align i stack_result = Ok z)
  \/ pack_at align i stack_result = Raise KeyError.
Proof.
  unfold pack_at. generalize (seqZ 0 align). generalize 0. intros acc l. revert acc.
  induction l as [|j l IH]; intros acc; cbn [foldM]; [left; eexists; reflexivity|].
  destruct (dict_get (i + j) stack_result); [apply IH | now right].
Qed.

Lemma flat_loop_from fuel align mv i stack_result know outrop (k : nat) :
  0 < align -> mv - align - i = Z.of_nat k * align -> (k < fuel)%nat ->
  (exists new, flat_loop fuel align mv i stack_result know outrop = Ok (outrop ++ new)
               /\ length new = k)
  \/ flat_loop fuel align mv i stack_result know outrop = Raise KeyError.
Proof.
  intros Halign. revert i outrop k.
  induction fuel as [|fuel IH]; intros i outrop k Hk Hfuel; [lia|].
  cbn [flat_loop]. destruct (Z.ltb_spec i (mv - align)) as [Hlt | Hge].
  - destruct k as [|k]; [lia|].
    assert (Hk' : mv - align - (i + align) = Z.of_nat k * align) by lia.
    assert (Hnext : forall x,
              (exists new, flat_loop fuel align mv (i + align) stack_result know (outrop ++ [x])
                           = Ok (outrop ++ new) /\ length new = S k)
              \/ flat_loop fuel align mv (i + align) stack_result know (outrop ++ [x])
                 = Raise KeyError).
    { intros x. destruct (IH (i + align) (outrop ++ [x]) k Hk') as [(new & Hnew & Hlen) | He];
        [lia | | now right].
      left. exists (x :: new). rewrite Hnew, <- app_assoc. split; [reflexivity | cbn; lia]. }
    destruct (dict_has i stack_result).
    + destruct (pack_at_result align i stack_result) as [[z ->] | ->]; [apply Hnext | now right].
    + destruct (dict_get i know); apply Hnext.
  - destruct k as [|k]; [|nia]. left. exists []. now rewrite app_nil_r.
Qed.

(** X28: the words that [flat_as_stack] makes for a group whose gadgets advance
    the stack pointer by [move] bytes, a multiple of the word: the first
    gadget and then one word for every further word of the advance, [move]
    bytes in all, unless the solver's bytes have a gap, which is a
    [KeyError]; the loop ends within [move / align] turns. *)
Theorem flat_loop_fills_move fuel align mv stack_result know g0 :
  0 < align -> align <= mv -> (align | mv) -> (Z.to_nat (mv / align) <= fuel)%nat ->
  (exists rest,
      flat_loop fuel align mv 0 stack_result know [VGadget g0] = Ok (VGadget g0 :: rest)
      /\ Z.of_nat (length (VGadget g0 :: rest)) * align = mv)
  \/ flat_loop fuel align mv 0 stack_result know [VGadget g0] = Raise KeyError.
Proof.
  intros Halign Hmv [q Hq] Hfuel. subst mv.
  rewrite Z.div_mul in Hfuel by lia.
  assert (Hq1 : 1 <= q) by nia.
  destruct (flat_loop_from fuel align (q * align) 0 stack_result know [VGadget g0]
              (Z.to_nat (q - 1)) Halign) as [(new & Hnew & Hlen) | He].
  - rewrite Z2Nat.id by lia. lia.
  - lia.
  - left. exists new. split; [exact Hnew|]. cbn [length]. rewrite Hlen.
    replace (Z.of_nat (S (Z.to_nat (q - 1)))) with q by lia. reflexivity.
  - now right.
Qed.

End FlatMore.

Lemma flat_loop_fills_move_witness :
  exists rest,
    rop.flat_loop 2 4 8 0 [(0, 0x44); (1, 0x33); (2, 0x22); (3, 0x11)] [] [VGadget inputs.pop_eax]
    = Ok (VGadget inputs.pop_eax :: rest)
    /\ Z.of_nat (length (VGadget inputs.pop_eax :: rest)) * 4 = 8.
Proof.
  destruct (flat_loop_fills_move 2 4 8 [(0, 0x44); (1, 0x33); (2, 0x22); (3, 0x11)] []
              inputs.pop_eax) as [H | H].
  - lia.
  - lia.
  - exists 2. reflexivity.
  - vm_compute. lia.
  - exact H.
  - vm_compute in H. discriminate.
Defined.

(** ** init_classify_and_solver on a graph without a cycle *)

Section InitMore.
Import rop.

Lemma add_successors_NoDup gad_1 gs graph :
  NoDup (keys graph) -> NoDup (keys (add_successors gad_1 gs graph)).
Proof.
  unfold add_successors. revert graph.
  induction gs as [|g2 gs IH]; intros graph Hnd; cbn [fold_left]; [exact Hnd|].
  apply IH. case_bool_decide; [exact Hnd|].
  destruct (0 <? _)%nat; [now apply dict_set_keys_NoDup | exact Hnd].
Qed.

Lemma build_graph_fold_NoDup gs l graph :
  NoDup (keys graph) ->
  NoDup (keys (fold_left (fun graph gad_1 =>
                            add_successors gad_1 gs (dict_set gad_1 [] graph)) l graph)).
Proof.
  revert graph. induction l as [|g l IH]; intros graph Hnd; [exact Hnd|].
  cbn [fold_left]. apply IH. now apply add_successors_NoDup, dict_set_keys_NoDup.
Qed.

Lemma build_graph_NoDup self : NoDup (keys (build_graph self)).
Proof.
  exact (build_graph_fold_NoDup (values (gadgets self)) (values (gadgets self)) []
                                (NoDup_nil_2)).
Qed.

Variable classify : Gadget -> option Gadget.

(** X29: where the graph of the classified gadgets has no cycle,
    [init_classify_and_solver] leaves the classified gadgets, their graph
    with every edge, no deleted edge, and in [_top_sorted] a topological
    order of the graph: every gadget once, each before the gadgets that read
    what it writes. *)
Theorem init_sorts_acyclic_graph fuel self (rank : Gadget -> nat) :
  let self1 := set_gadgets (reclassify classify (gadgets self)) self in
  let graph := build_graph self1 in
  (forall u v, arc graph u v -> (rank u < rank v)%nat) ->
  (length (nodes graph) < fuel)%nat ->
  exists l self',
    init_classify_and_solver classify fuel self = (Ok tt, self')
    /\ gadgets self' = reclassify classify (gadgets self)
    /\ gadget_graph self' = graph
    /\ _global_delete_gadget self' = []
    /\ _top_sorted self' = Some l
    /\ NoDup l
    /\ (forall n, n ∈ l <-> n ∈ nodes graph)
    /\ forall u v, arc graph u v -> before u v l.
Proof.
  intros self1 graph Hrank Hfuel.
  destruct (top_sort_acyclic_spec graph (build_graph_NoDup self1) rank Hrank fuel [] Hfuel)
    as (l & Hsort & Hnd & Hall & Horder).
  exists l. eexists.
  split; [|split; [|split; [|split; [|split; [|split; [exact Hnd|split;
    [exact Hall | exact Horder]]]]]]].
  - unfold init_classify_and_solver, bind, get, modify, lift.
    change (fold_left _ (values (gadgets self)) []) with (reclassify classify (gadgets self)).
    fold self1. cbn [gadget_graph set_global_delete_gadget set_gadget_graph].
    fold graph. rewrite Hsort. cbn [foldM]. reflexivity.
  - destruct self. reflexivity.
  - destruct self. reflexivity.
  - destruct self. reflexivity.
  - destruct self. reflexivity.
Qed.

End InitMore.

Lemma init_sorts_acyclic_graph_witness :
  exists l self',
    rop.init_classify_and_solver inputs.classify_all 4 inputs.rop_mov = (Ok tt, self')
    /\ rop._top_sorted self' = Some l
    /\ before inputs.pop_eax inputs.mov_ebx_eax l.
Proof.
  assert (Hgraph : rop.build_graph
                     (rop.set_gadgets (reclassify inputs.classify_all
                                                  (rop.gadgets inputs.rop_mov)) inputs.rop_mov)
                   = [(inputs.pop_eax, [inputs.mov_ebx_eax]); (inputs.mov_ebx_eax, [])])
    by (vm_compute; reflexivity).
  destruct (init_sorts_acyclic_graph inputs.classify_all 4 inputs.rop_mov inputs.rank_mov)
    as (l & self' & Hinit & _ & _ & _ & Htop & _ & _ & Horder).
  - cbv zeta. rewrite Hgraph. intros u v (succs & Hg & Hv). cbn [dict_get] in Hg.
    destruct (decide (u = inputs.pop_eax)) as [->|_].
    + injection Hg as <-. apply list_elem_of_singleton in Hv as ->. vm_compute. lia.
    + destruct (decide (u = inputs.mov_ebx_eax)); [|discriminate].
      injection Hg as <-. inversion Hv.
  - cbv zeta. rewrite Hgraph. cbn. lia.
  - exists l, self'. split; [exact Hinit|]. split; [exact Htop|].
    apply Horder. rewrite Hgraph. exists [inputs.mov_ebx_eax]. split; [|left].
    cbn [dict_get]. now rewrite decide_True.
Defined.

Lemma migrate_raises_without_pops_witness :
  rop.migrate (rop.NBValue (VInt 0x2000)) inputs.rop_pop_eax
  = (Raise (LogError "Cannot find the gadgets to migrate"), inputs.rop_pop_eax).
Proof.
  refine (migrate_raises_without_pops (rop.NBValue (VInt 0x2000)) inputs.rop_pop_eax _).
  intros g r Hg _ Hr Hc.
  apply list_elem_of_singleton in Hg as ->.
  apply list_elem_of_singleton in Hc. injection Hc as ->.
  repeat (apply elem_of_cons in Hr as [Hr | Hr]; [discriminate|]). inversion Hr.
Defined.
